(** * A shallow embedding of [lcp_physics/lcp/solvers/batch_pdipm.py]

    The batched primal-dual interior-point solver is embedded as Rocq
    functions over lists.  Tensor entries are rational numbers extended
    with the three special values of the floating-point format, so that
    the quotient by a zero entry is the infinity the interpreter
    produces and not an arbitrary rational.  Rounding, overflow and the
    sign of zero are not part of the embedding: a finite entry is an
    exact rational, and a zero divisor counts as a positive zero (the
    zero that [x - x] yields).

    The linear-algebra primitives of the tensor library ([btrifact],
    [btrisolve], [btriunpack], [norm]) are a record of functions, the
    back end, over which every definition is parametrised. *)

From Stdlib Require Import QArith Qabs Qminmax Lqa ZArith.
From stdpp Require Import base option list strings gmap.

Local Open Scope Z_scope.

(** ** Scalars *)

Module Scalar.

Inductive fval : Type :=
| Fin (q : Q)
| PInf
| NInf
| NaN.

Definition F0 : fval := Fin 0.
Definition F1 : fval := Fin 1.

(** [of_nat n] is the conversion of a Python [int] used in mixed
    arithmetic such as [nineq * mu]. *)
Definition of_nat (n : nat) : fval := Fin (inject_Z (Z.of_nat n)).

Definition fneg (a : fval) : fval :=
  match a with
  | Fin x => Fin (Qred (- x))
  | PInf => NInf
  | NInf => PInf
  | NaN => NaN
  end.

Definition fadd (a b : fval) : fval :=
  match a, b with
  | NaN, _ | _, NaN => NaN
  | Fin x, Fin y => Fin (Qred (x + y))
  | PInf, NInf | NInf, PInf => NaN
  | PInf, _ | _, PInf => PInf
  | NInf, _ | _, NInf => NInf
  end.

Definition fsub (a b : fval) : fval :=
  match a, b with
  | NaN, _ | _, NaN => NaN
  | Fin x, Fin y => Fin (Qred (x - y))
  | PInf, PInf | NInf, NInf => NaN
  | PInf, _ | _, NInf => PInf
  | NInf, _ | _, PInf => NInf
  end.

(** Sign of an infinite or finite operand, for products with an
    infinity: [None] stands for zero. *)
Definition sign_of (x : Q) : option bool :=
  match (x ?= 0)%Q with
  | Eq => None
  | Gt => Some true
  | Lt => Some false
  end.

Definition inf_of (positive : bool) : fval :=
  if positive then PInf else NInf.

Definition fmul (a b : fval) : fval :=
  match a, b with
  | NaN, _ | _, NaN => NaN
  | Fin x, Fin y => Fin (Qred (x * y))
  | Fin x, PInf | PInf, Fin x =>
      match sign_of x with None => NaN | Some p => inf_of p end
  | Fin x, NInf | NInf, Fin x =>
      match sign_of x with None => NaN | Some p => inf_of (negb p) end
  | PInf, PInf | NInf, NInf => PInf
  | PInf, NInf | NInf, PInf => NInf
  end.

(** Division.  A finite non-zero value over zero is an infinity of the
    sign of the numerator, zero over zero is not a number.  The
    floating-point format has also a negative zero, which the code can
    produce (by a negation, as at line 771, or by a product of opposite
    signs) and over which a quotient is the infinity of the opposite
    sign.  The embedding has one zero, which divides as the positive
    one: where the code divides by a negative zero, the infinity here
    has the other sign.  The general properties of the ratio test and
    of the update are therefore stated for directions without zero
    component. *)
Definition fdiv (a b : fval) : fval :=
  match a, b with
  | NaN, _ | _, NaN => NaN
  | Fin x, Fin y =>
      match sign_of y with
      | Some _ => Fin (Qred (x / y))
      | None => match sign_of x with None => NaN | Some p => inf_of p end
      end
  | Fin _, PInf | Fin _, NInf => Fin 0
  | PInf, Fin y =>
      match sign_of y with Some false => NInf | _ => PInf end
  | NInf, Fin y =>
      match sign_of y with Some false => PInf | _ => NInf end
  | _, _ => NaN
  end.

Definition fabs (a : fval) : fval :=
  match a with
  | Fin x => Fin (Qabs x)
  | PInf | NInf => PInf
  | NaN => NaN
  end.

(** [x ** 3] *)
Definition fcube (a : fval) : fval := fmul (fmul a a) a.

(** Comparisons are false as soon as one side is not a number. *)
Definition flt (a b : fval) : bool :=
  match a, b with
  | NaN, _ | _, NaN => false
  | Fin x, Fin y => match (x ?= y)%Q with Lt => true | _ => false end
  | NInf, NInf | PInf, PInf => false
  | NInf, _ | _, PInf => true
  | _, _ => false
  end.

Definition fle (a b : fval) : bool :=
  match a, b with
  | NaN, _ | _, NaN => false
  | Fin x, Fin y => match (x ?= y)%Q with Gt => false | _ => true end
  | NInf, _ | _, PInf => true
  | _, _ => false
  end.

Definition fgt (a b : fval) : bool := flt b a.

(** Element-wise [torch.min] and [torch.max] of two entries. *)
Definition tmin2 (a b : fval) : fval :=
  match a, b with
  | NaN, _ | _, NaN => NaN
  | _, _ => if flt b a then b else a
  end.

Definition tmax2 (a b : fval) : fval :=
  match a, b with
  | NaN, _ | _, NaN => NaN
  | _, _ => if flt a b then b else a
  end.

(** Python's built-in [max(a, b)]: the first argument unless the second
    compares greater. *)
Definition py_max (a b : fval) : fval := if fgt b a then b else a.

(** Reductions [t.min()], [t.max()] and [t.sum()] of a non-empty list of
    entries.  The interpreter refuses to reduce an empty tensor; the
    embedding gives the neutral elements there. *)
Definition tmin (l : list fval) : fval :=
  match l with [] => PInf | x :: r => foldl tmin2 x r end.

Definition tmax (l : list fval) : fval :=
  match l with [] => NInf | x :: r => foldl tmax2 x r end.

Definition tsum (l : list fval) : fval := foldl fadd F0 l.

Definition tmean (l : list fval) : fval := fdiv (tsum l) (of_nat (length l)).

(** Strict positivity, as the comparison [x > 0] decides it. *)
Definition fpos (a : fval) : bool := fgt a F0.

Definition is_fin (a : fval) : bool :=
  match a with Fin _ => true | _ => false end.

End Scalar.
Export Scalar.

(** ** Tensors *)

Module Tensor.

(** A one-dimensional tensor, a batch of them (two dimensions, first
    index the batch element), a matrix as the list of its rows, and a
    batch of matrices (three dimensions). *)
Abbreviation vec := (list fval) (only parsing).
Abbreviation bvec := (list (list fval)) (only parsing).
Abbreviation mat := (list (list fval)) (only parsing).
Abbreviation bmat := (list (list (list fval))) (only parsing).

(** Element-wise operations on tensors of equal shape. *)
Definition vmap2 (f : fval → fval → fval) (u v : vec) : vec := zip_with f u v.
Definition bmap2 (f : fval → fval → fval) (u v : bvec) : bvec :=
  zip_with (vmap2 f) u v.
Definition mmap2 (f : fval → fval → fval) (u v : bmat) : bmat :=
  zip_with (bmap2 f) u v.

Definition bneg (u : bvec) : bvec := map (map fneg) u.

(** [torch.zeros(n, m)] and [torch.ones(n, m)] *)
Definition zeros (n m : nat) : bvec := replicate n (replicate m F0).
Definition ones (n m : nat) : bvec := replicate n (replicate m F1).
Definition zeros3 (n r c : nat) : bmat := replicate n (zeros r c).

(** [a.repeat(n, 1).t()] for a one-dimensional [a] with one entry per
    batch element: row [b] holds [n] copies of [a[b]]. *)
Definition repeat_t (n : nat) (a : vec) : bvec := map (replicate n) a.

(** [t.sum(1)] and [t.min(1)[0]]: reductions along dimension 1. *)
Definition sum1 (t : bvec) : vec := map tsum t.
Definition min1 (t : bvec) : vec := map tmin t.

(** The [j]-th column of a matrix and [m.transpose(1, 2)] for a batch
    of matrices with [c] columns. *)
Definition column (j : nat) (m : mat) : vec := map (λ row, nth j row F0) m.
Definition transpose (c : nat) (m : mat) : mat := map (λ j, column j m) (seq 0 c).
Definition btranspose (c : nat) (m : bmat) : bmat := map (transpose c) m.

Definition dot (u v : vec) : fval := tsum (vmap2 fmul u v).

(** Matrix product of an [r * k] by a [k * c] matrix. *)
Definition matmul (c : nat) (a b : mat) : mat :=
  map (λ row, map (λ j, dot row (column j b)) (seq 0 c)) a.

(** [torch.bmm(a, b)] for [b] with [c] columns. *)
Definition bmm (c : nat) (a b : bmat) : bmat := zip_with (matmul c) a b.

(** [torch.bmm(v.unsqueeze(1), m).squeeze(1)]: the row vector [v] times
    the matrix [m], for every batch element. *)
Definition bvm (c : nat) (v : bvec) (m : bmat) : bvec :=
  zip_with (λ u a, map (λ j, dot u (column j a)) (seq 0 c)) v m.

(** [torch.cat([a, b], 1)] on two- and three-dimensional tensors and
    [torch.cat([a, b], 2)]. *)
Definition cat1 {A} (a b : list (list A)) : list (list A) := zip_with app a b.
Definition cat2 (a b : bmat) : bmat := zip_with (zip_with app) a b.

(** The slices [t[:, :k]] and [t[:, k:]]. *)
Definition cols_to {A} (k : nat) (t : list (list A)) : list (list A) := map (take k) t.
Definition cols_from {A} (k : nat) (t : list (list A)) : list (list A) := map (drop k) t.

(** Python's [l[-n:]] and [l[:-n]]; [l[-0:]] is the whole list. *)
Definition last_n {A} (n : nat) (l : list A) : list A :=
  if decide (n = 0%nat) then l else drop (length l - n) l.
Definition but_last_n {A} (n : nat) (l : list A) : list A :=
  if decide (n = 0%nat) then [] else take (length l - n) l.

(** Strict positivity of a whole tensor. *)
Definition all_pos (t : bvec) : Prop := Forall (Forall (λ x, fpos x = true)) t.

End Tensor.
Export Tensor.

(** ** The step-length computer *)

(** [get_step(v, dv)], lines 345-349.  [a.max()] is the maximum over
    every entry of [a], all batch elements together. *)
Definition get_step (v dv : bvec) : vec :=
  let a := bmap2 (λ x y, fdiv (fneg x) y) v dv in
  let m := py_max F1 (tmax (concat a)) in
  let a := bmap2 (λ ai di, if fgt di F0 then m else ai) a dv in
  min1 a.

(** ** Exceptions, the interpreter state and the back end *)

Inductive exn : Type :=
| RuntimeError (msg : string)
| TypeError
| AttributeError
| AssertionError
| ShapeError
| IndexError.

Inductive result (A : Type) : Type :=
| Ok (a : A)
| Raise (e : exn).
Arguments Ok {A} a.
Arguments Raise {A} e.

(** What the module prints. *)
Inductive line : Type :=
| PrintStr (s : string)
| PrintVal (v : fval)
| PrintIter (i : nat) (pri_resid dual_resid mu : fval).

(** Integer tensor of pivots, one row per batch element, pivots counted
    from 1 as LAPACK does. *)
Abbreviation bpiv := (list (list Z)) (only parsing).

(** A factorization as [btrifact] returns it: the packed factors and
    the pivots. *)
Definition lu : Type := (bmat * bpiv)%type.

(** Objects that outlive a call and are written in place: the cached
    factorizations [Q_LU] and [S_LU] and the cached block [R]. *)
Inductive obj : Type :=
| OLU (f : lu)
| OTensor (t : bmat).

Definition loc : Type := positive.

Record world : Type := World {
  heap : gmap loc obj;
  shown_btrifact_warning : bool;
  factor_kkt_eye : option (list (list (list bool)));
  stdout : list line
}.

(** The primitives of the tensor library.  [btrifact_pivot] is the call
    [x.btrifact(pivot=...)], which raises [TypeError] on a library that
    does not know the keyword; [btrifact_default] is [x.btrifact()].
    Both raise when a batch element cannot be factored.
    [btrisolve] and [btrisolve3] are [b.btrisolve(LU, pivots)] for a
    right-hand side of two and of three dimensions, [btriunpack] is
    [torch.btriunpack(LU, pivots)] and [btriunpack_pivots] the same with
    [unpack_data=False], of which only the permutation is used.
    [norm2] is [torch.norm(t, 2, 1)] on one row. *)
Record backend : Type := Backend {
  is_cuda : bool;
  btrifact_pivot : bool → bmat → result lu;
  btrifact_default : bmat → result lu;
  btrisolve : bvec → lu → bvec;
  btrisolve3 : bmat → lu → bmat;
  btriunpack : bmat → bpiv → bmat * bmat * bmat;
  btriunpack_pivots : bmat → bpiv → bmat;
  norm2 : vec → fval
}.

(** *** The monad of state and exceptions

    A raised exception keeps the state reached so far: what was written
    or printed before the raise stays written and printed. *)
Definition M (A : Type) : Type := world → result A * world.

Definition ret {A} (a : A) : M A := λ w, (Ok a, w).
Definition bind {A B} (m : M A) (f : A → M B) : M B := λ w,
  match m w with
  | (Ok a, w') => f a w'
  | (Raise e, w') => (Raise e, w')
  end.

Declare Scope M_scope.
Delimit Scope M_scope with M.
Bind Scope M_scope with M.
Notation "x ← y ; z" := (bind y (λ x, z))
  (at level 20, y at level 100, z at level 200, only parsing) : M_scope.
Notation "' x ← y ; z" := (bind y (λ x, z))
  (at level 20, x pattern, y at level 100, z at level 200, only parsing) : M_scope.
Notation "x ;; z" := (bind x (λ _, z))
  (at level 100, z at level 200, only parsing, right associativity) : M_scope.
Local Open Scope M_scope.

Definition raise {A} (e : exn) : M A := λ w, (Raise e, w).
Definition lift {A} (r : result A) : M A := λ w, (r, w).

(** [try: m except: handler] with a bare [except]. *)
Definition try_except {A} (m : M A) (handler : M A) : M A := λ w,
  match m w with
  | (Ok a, w') => (Ok a, w')
  | (Raise _, w') => handler w'
  end.

Definition print (l : line) : M unit := λ w,
  (Ok (), World (heap w) (shown_btrifact_warning w) (factor_kkt_eye w) (stdout w ++ [l])).

Definition get_shown : M bool := λ w, (Ok (shown_btrifact_warning w), w).
Definition set_shown (v : bool) : M unit := λ w,
  (Ok (), World (heap w) v (factor_kkt_eye w) (stdout w)).

Definition get_eye : M (option (list (list (list bool)))) := λ w, (Ok (factor_kkt_eye w), w).
Definition set_eye (e : list (list (list bool))) : M unit := λ w,
  (Ok (), World (heap w) (shown_btrifact_warning w) (Some e) (stdout w)).

Definition alloc (o : obj) : M loc := λ w,
  let l := fresh (dom (heap w)) in
  (Ok l, World (<[l := o]> (heap w)) (shown_btrifact_warning w) (factor_kkt_eye w) (stdout w)).

Definition read_lu (l : loc) : M lu := λ w,
  match heap w !! l with
  | Some (OLU f) => (Ok f, w)
  | _ => (Raise TypeError, w)
  end.

Definition read_tensor (l : loc) : M bmat := λ w,
  match heap w !! l with
  | Some (OTensor t) => (Ok t, w)
  | _ => (Raise TypeError, w)
  end.

(** In-place update of the factorization stored at [l]. *)
Definition update_lu (l : loc) (f : lu → lu) : M unit := λ w,
  match heap w !! l with
  | Some (OLU x) =>
      (Ok (), World (<[l := OLU (f x)]> (heap w)) (shown_btrifact_warning w)
                    (factor_kkt_eye w) (stdout w))
  | _ => (Raise TypeError, w)
  end.

(** Use of a value that may be [None] where a tensor is needed: [e] is
    the exception the interpreter raises on [None]. *)
Definition the {A} (e : exn) (o : option A) : M A :=
  match o with Some a => ret a | None => raise e end.

Definition BTRIFACT_WARNING : string :=
"----------
lcp warning: Pivoting will always happen and will significantly
slow down your code. Please use the master branch of PyTorch
to get a version that disables pivoting on the GPU.
----------
".

Definition INACC_ERR : string :=
"
--------
lcp warning: Returning an inaccurate and potentially incorrect solutino.

Some residual is large.
Your problem may be infeasible or difficult.

You can try using the CVXPY solver to see if your problem is feasible
and you can use the verbose option to check the convergence status of
our solver while increasing the number of iterations.

Advanced users:
You can also try to enable iterative refinement in the solver:
https://github.com/locuslab/lcp/issues/6
--------
".

Definition Q_NOT_PSD : string :=
"
lcp Error: Cannot perform LU factorization on Q.
Please make sure that your Q matrix is PSD and has
a non-zero diagonal.
".

Inductive KKTSolvers : Type :=
| LU_FULL
| SP_LU_FULL
| LU_PARTIAL
| IR_UNOPT
| SP_IR_UNOPT
| IR_INVERSE
| SP_IR_INVERSE.

#[global] Instance KKTSolvers_eq_dec : EqDecision KKTSolvers :=
  ltac:(solve_decision).

(** ** Sizes *)

Definition size2 {A} (t : list (list A)) : list nat :=
  [length t; length (hd [] t)].
Definition size3 {A} (t : list (list (list A))) : list nat :=
  [length t; length (hd [] t); length (hd [] (hd [] t))].

Definition rows_of (t : bmat) : nat := length (hd [] t).
Definition cols_of (t : bmat) : nat := length (hd [] (hd [] t)).

(** Modelled from the spec: [get_sizes] of [lcp_physics.lcp.util], which
    is not in the source tree.  Given [G] and [A] it returns
    [(nineq, nz, neq, nBatch)] and fails with a shape error if the two
    disagree on [nz] or on the batch size; an absent [A] or one without
    rows means [neq = 0]. *)
Definition get_sizes (G : bmat) (A : option bmat) : result (nat * nat * nat * nat) :=
  let nBatch := length G in
  let nineq := rows_of G in
  let nz := cols_of G in
  match A with
  | None => Ok (nineq, nz, 0%nat, nBatch)
  | Some a =>
      if decide (rows_of a = 0%nat) then Ok (nineq, nz, 0%nat, nBatch)
      else if decide (length a = nBatch ∧ cols_of a = nz)
           then Ok (nineq, nz, rows_of a, nBatch)
           else Raise ShapeError
  end.

(** ** The factorizations *)

(** Slice assignments on a batch of square matrices whose last [nineq]
    rows and columns form the lower-right block. *)
Definition on_last_n {A} (n : nat) (f : list A → list A) (l : list A) : list A :=
  but_last_n n l ++ f (last_n n l).

(** [S[:, -nineq:, :neq]] *)
Definition get_block21 (nineq neq : nat) (S : bmat) : bmat :=
  map (λ Sb, map (take neq) (last_n nineq Sb)) S.

(** [S[:, -nineq:, :neq] = V] *)
Definition set_block21 (nineq neq : nat) (S V : bmat) : bmat :=
  zip_with (λ Sb Vb,
    on_last_n nineq (λ rows, zip_with (λ row v, v ++ drop neq row) rows Vb) Sb) S V.

(** [S[:, -nineq:, -nineq:] = V] *)
Definition set_block22 (nineq : nat) (S V : bmat) : bmat :=
  zip_with (λ Sb Vb,
    on_last_n nineq (λ rows, zip_with (λ row v, but_last_n nineq row ++ v) rows Vb) Sb) S V.

(** [T[mask] += v] for the mask of the batched identity: the selected
    entries are the diagonal ones, in row-major order, and the entry
    [(b, i, i)] receives the entry [(b, i)] of [v]. *)
Definition masked_add (T : bmat) (mask : list (list (list bool))) (v : bvec) : bmat :=
  zip_with (λ Tm vb,
    zip_with (λ rm x,
      zip_with (λ t (m : bool), if m then fadd t x else t) rm.1 rm.2)
      (zip Tm.1 Tm.2) vb)
    (zip T mask) v.

(** [torch.eye(nineq).repeat(nBatch, 1, 1).byte()] *)
Definition batched_eye (nBatch nineq : nat) : list (list (list bool)) :=
  replicate nBatch
    (map (λ i, map (λ j, bool_decide (i = j)) (seq 0 nineq)) (seq 0 nineq)).

(** The solution of a strategy: [(dx, ds, dz, dy)]. *)
Definition dirs : Type := (bvec * bvec * bvec * option bvec)%type.

Section Solver.

Context (B : backend).

(** [btrifact_hack(x)], lines 15-28 *)
Definition btrifact_hack (x : bmat) : M lu :=
  match btrifact_pivot B (negb (is_cuda B)) x with
  | Raise TypeError =>
      shown ← get_shown;
      (if shown then ret ()
       else (print (PrintStr BTRIFACT_WARNING);; set_shown true));;
      lift (btrifact_default B x)
  | r => lift r
  end.

(** [pre_factor_kkt(Q, G, F, A)], lines 786-837.  The three cached
    objects are created in the heap and returned by reference. *)
Definition pre_factor_kkt (Q G : bmat) (F A : option bmat) : M (loc * loc * loc) :=
  '(nineq, nz, neq, nBatch) ← lift (get_sizes G A);
  Q_LU ← try_except (btrifact_hack Q) (raise (RuntimeError Q_NOT_PSD));
  f ← the TypeError F;
  let G_invQ_GT :=
    mmap2 fadd (bmm nineq G (btrisolve3 B (btranspose nz G) Q_LU)) f in
  let R := G_invQ_GT in
  let S_LU_pivots : bpiv :=
    replicate nBatch (map Z.of_nat (seq 1 (neq + nineq))) in
  '(S_LU_data, S_LU_pivots, R) ←
    (if decide (0 < neq)%nat then
       a ← the AttributeError A;
       let invQ_AT := btrisolve3 B (btranspose nz a) Q_LU in
       let A_invQ_AT := bmm neq a invQ_AT in
       let G_invQ_AT := bmm neq G invQ_AT in
       LU_A_invQ_AT ← btrifact_hack A_invQ_AT;
       let '(P_A_invQ_AT, L_A_invQ_AT, U_A_invQ_AT) :=
         btriunpack B LU_A_invQ_AT.1 LU_A_invQ_AT.2 in
       let S_LU_11 := LU_A_invQ_AT.1 in
       let U_A_invQ_AT_inv :=
         btrisolve3 B (bmm neq P_A_invQ_AT L_A_invQ_AT) LU_A_invQ_AT in
       let S_LU_21 := bmm neq G_invQ_AT U_A_invQ_AT_inv in
       let T := btrisolve3 B (btranspose neq G_invQ_AT) LU_A_invQ_AT in
       let S_LU_12 := bmm nineq U_A_invQ_AT T in
       let S_LU_22 := zeros3 nBatch nineq nineq in
       let S_LU_data := cat1 (cat2 S_LU_11 S_LU_12) (cat2 S_LU_21 S_LU_22) in
       let S_LU_pivots :=
         zip_with (λ old new, new ++ drop neq old) S_LU_pivots LU_A_invQ_AT.2 in
       let R := mmap2 fsub R (bmm nineq G_invQ_AT T) in
       ret (S_LU_data, S_LU_pivots, R)
     else
       ret (zeros3 nBatch nineq nineq, S_LU_pivots, R));
  lQ ← alloc (OLU Q_LU);
  lS ← alloc (OLU (S_LU_data, S_LU_pivots));
  lR ← alloc (OTensor R);
  ret (lQ, lS, lR).

(** [factor_kkt(S_LU, R, d)], lines 843-879.  The comparison of the
    size of the cached mask, of three dimensions, with the size of [d],
    of two, never succeeds, so the mask is rebuilt at every call. *)
Definition factor_kkt (S_LU R : loc) (d : bvec) : M unit :=
  let nBatch := length d in
  let nineq := length (hd [] d) in
  S ← read_lu S_LU;
  let neq := (length (hd [] S.2) - nineq)%nat in
  cached ← get_eye;
  mask ← match cached with
         | Some e =>
             if decide (size3 e ≠ size2 d)
             then (set_eye (batched_eye nBatch nineq);; ret (batched_eye nBatch nineq))
             else ret e
         | None => set_eye (batched_eye nBatch nineq);; ret (batched_eye nBatch nineq)
         end;
  r ← read_tensor R;
  let T := masked_add r mask (map (map (fdiv F1)) d) in
  T_LU ← btrifact_hack T;
  shown ← get_shown;
  (if shown || negb (is_cuda B) then
     let oldPivotsPacked :=
       map (λ row, map (λ k, k - Z.of_nat neq) (last_n nineq row)) S.2 in
     let oldPivots := btriunpack_pivots B T_LU.1 oldPivotsPacked in
     let newPivotsPacked := T_LU.2 in
     let newPivots := btriunpack_pivots B T_LU.1 newPivotsPacked in
     (if decide (0 < neq)%nat then
        update_lu S_LU (λ S,
          let S_LU_21 := get_block21 nineq neq S.1 in
          (set_block21 nineq neq S.1
             (bmm neq (btranspose nineq newPivots) (bmm neq oldPivots S_LU_21)),
           S.2))
      else ret ());;
     update_lu S_LU (λ S,
       (S.1, zip_with (λ row new,
                 but_last_n nineq row ++ map (λ k, k + Z.of_nat neq) new)
               S.2 newPivotsPacked))
   else ret ());;
  update_lu S_LU (λ S, (set_block22 nineq S.1 T_LU.1, S.2)).

(** [solve_kkt(Q_LU, d, G, A, S_LU, rx, rs, rz, ry)], lines 754-783 *)
Definition solve_kkt (Q_LU : loc) (d : bvec) (G : bmat) (A : option bmat)
    (S_LU : loc) (rx rs rz : bvec) (ry : option bvec) : M dirs :=
  '(nineq, nz, neq, nBatch) ← lift (get_sizes G A);
  qlu ← read_lu Q_LU;
  let invQ_rx := btrisolve B rx qlu in
  h ← (if decide (0 < neq)%nat then
         a ← the AttributeError A;
         ry ← the TypeError ry;
         ret (cat1 (bmap2 fsub (bvm neq invQ_rx (btranspose nz a)) ry)
                    (bmap2 fsub
                       (bmap2 fadd (bvm nineq invQ_rx (btranspose nz G))
                                   (bmap2 fdiv rs d))
                       rz))
       else
         ret (bmap2 fsub
                 (bmap2 fadd (bvm nineq invQ_rx (btranspose nz G))
                             (bmap2 fdiv rs d))
                 rz));
  slu ← read_lu S_LU;
  let w := bneg (btrisolve B h slu) in
  let g1 := bmap2 fsub (bneg rx) (bvm nz (cols_from neq w) G) in
  g1 ← (if decide (0 < neq)%nat then
          a ← the AttributeError A;
          ret (bmap2 fsub g1 (bvm nz (cols_to neq w) a))
        else ret g1);
  let g2 := bmap2 fsub (bneg rs) (cols_from neq w) in
  let dx := btrisolve B g1 qlu in
  let ds := bmap2 fdiv g2 d in
  let dz := cols_from neq w in
  let dy := if decide (0 < neq)%nat then Some (cols_to neq w) else None in
  ret (dx, ds, dz, dy).

End Solver.

(** ** The strategies that factor the full system *)

(** The slice [v[:, i:i + n]] of a two-dimensional tensor. *)
Definition cols_range {A} (i n : nat) (t : list (list A)) : list (list A) :=
  map (λ row, take n (drop i row)) t.

(** [unpack_kkt(v, nz, nineq, neq)], lines 352-361 *)
Definition unpack_kkt (v : bvec) (nz nineq neq : nat) : bvec * bvec * bvec * bvec :=
  let i := 0%nat in
  let x := cols_range i nz v in
  let i := (i + nz)%nat in
  let s := cols_range i nineq v in
  let i := (i + nineq)%nat in
  let z := cols_range i nineq v in
  let i := (i + nineq)%nat in
  let y := cols_range i neq v in
  (x, s, z, y).

(** [torch.eye(n)] *)
Definition eye (n : nat) : mat :=
  map (λ i, map (λ j, if bool_decide (i = j) then F1 else F0) (seq 0 n)) (seq 0 n).

(** [H[:, :nz, :nz] = V] *)
Definition set_block11 (nz : nat) (H V : bmat) : bmat :=
  zip_with (λ Hb Vb,
    zip_with (λ row v, v ++ drop nz row) (take nz Hb) Vb ++ drop nz Hb) H V.

(** Lines 683-685 (the same at lines 414-416 and 599-601):
    [H_ = torch.zeros(nBatch, nz + nineq, nz + nineq);
     H_[:, :nz, :nz] = Q_tilde; H_[:, -nineq:, -nineq:] = D_tilde]. *)
Definition kkt_H (nBatch nz nineq : nat) (Q_tilde D_tilde : bmat) : bmat :=
  let H_ := zeros3 nBatch (nz + nineq) (nz + nineq) in
  let H_ := set_block11 nz H_ Q_tilde in
  set_block22 nineq H_ D_tilde.

(** Lines 420-421 and 425-426 (the same at lines 75-76): the constraint
    block [[G, I], [A, 0]], or [[G, I]] without equality constraints. *)
Definition kkt_A (nBatch nineq neq : nat) (G : bmat) (A : option bmat) : M bmat :=
  if decide (0 < neq)%nat then
    a ← the TypeError A;
    ret (cat1 (cat2 G (replicate nBatch (eye nineq)))
              (cat2 a (zeros3 nBatch neq nineq)))
  else ret (cat2 G (replicate nBatch (eye nineq))).

(** [c * torch.eye(n).repeat(nBatch, 1, 1)] *)
Definition scaled_eye (c : fval) (nBatch n : nat) : bmat :=
  replicate nBatch (map (map (fmul c)) (eye n)).

(** [C[:, :n, :n] += V] and [C[:, :n, :n] -= V], for [f] the sum or the
    difference. *)
Definition update_block11 (f : fval → fval → fval) (n : nat) (C V : bmat) : bmat :=
  zip_with (λ Cb Vb,
    zip_with (λ row v, zip_with f (take n row) v ++ drop n row) (take n Cb) Vb
    ++ drop n Cb) C V.

(** [C[:, :n, :n]] *)
Definition get_block11 (n : nat) (C : bmat) : bmat :=
  map (λ Cb, map (take n) (take n Cb)) C.

(** [m.bmm(v.unsqueeze(2)).squeeze(2)]: the matrix [m] times the
    column vector [v], for every batch element. *)
Definition bmv (m : bmat) (v : bvec) : bvec :=
  zip_with (λ a u, map (λ row, dot row u) a) m v.

(** The regularization [1e-7] of lines 70 and 383. *)
Definition REG_EPS : fval := Fin (1 # 10000000).

(** [kkt_resid_reg(Q_tilde, D_tilde, G, A, F_tilde, eps, dx, ds, dz, dy,
    rx, rs, rz, ry)], lines 364-376 *)
Definition kkt_resid_reg (Q_tilde D_tilde G : bmat) (A : option bmat)
    (F_tilde : bmat) (eps : fval) (dx ds dz : bvec) (dy : option bvec)
    (rx rs rz : bvec) (ry : option bvec)
    : M (bvec * bvec * bvec * option bvec) :=
  let resx :=
    bmap2 fadd (bmap2 fadd (bmv Q_tilde dx) (bmv (btranspose (cols_of G) G) dz)) rx in
  resx ← match dy with
         | Some dy =>
             a ← the AttributeError A;
             ret (bmap2 fadd resx (bmv (btranspose (cols_of a) a) dy))
         | None => ret resx
         end;
  let ress := bmap2 fadd (bmap2 fadd (bmv D_tilde ds) dz) rs in
  let resz :=
    bmap2 fadd (bmap2 fadd (bmap2 fadd (bmv G dx) ds) (bmv F_tilde dz)) rz in
  resy ← match dy with
         | Some dy =>
             a ← the AttributeError A;
             ry ← the AttributeError ry;
             ret (Some (bmap2 fadd (bmap2 fsub (bmv a dx) (map (map (fmul eps)) dy)) ry))
         | None => ret None
         end;
  ret (resx, ress, resz, resy).

(** What stays of the set-up of lines 70-83 for the strategy [LU_FULL]:
    [Q_tilde], [A_], [C_tilde] and [ns]. *)
Definition lu_full_state : Type := (bmat * bmat * bmat * (nat * nat * nat * nat))%type.

(** Lines 70-83.  Without equality constraints the identity that is
    concatenated to [G] has a batch of one, and [torch.cat] refuses
    tensors that differ in another dimension than the one it joins: the
    run-time error it raises on a batch of another size is
    [ShapeError] here. *)
Definition lu_full_setup (Q G : bmat) (A F : option bmat) : M lu_full_state :=
  '(nineq, nz, neq, nBatch) ← lift (get_sizes G A);
  let reg_eps := REG_EPS in
  let Q_tilde := mmap2 fadd Q (scaled_eye reg_eps nBatch nz) in
  A_ ← (if decide (0 < neq)%nat then
          a ← the TypeError A;
          ret (cat1 (cat2 G (replicate nBatch (eye nineq)))
                    (cat2 a (zeros3 nBatch neq nineq)))
        else if decide (nBatch = 1%nat) then ret (cat2 G [eye nineq])
        else raise ShapeError);
  let C_tilde := scaled_eye reg_eps nBatch (neq + nineq) in
  let C_tilde := match F with
                 | Some f => update_block11 fadd nineq C_tilde f
                 | None => C_tilde
                 end in
  ret (Q_tilde, A_, C_tilde, (nineq, nz, neq, nBatch)).

Section FullSystem.

Context (B : backend).

(** [factor_solve_kkt(Q_tilde, D_tilde, A_, C_tilde, rx, rs, rz, ry, ns)],
    lines 680-710.  The products are taken for a constraint block [A_]
    of [nineq + neq] rows and [nz + nineq] columns; the [squeeze()] of
    line 702 is the [squeeze(1)] it amounts to on a row of more than
    one entry. *)
Definition factor_solve_kkt (Q_tilde D_tilde A_ C_tilde : bmat)
    (rx rs rz : bvec) (ry : option bvec) (ns : nat * nat * nat * nat) : M dirs :=
  let '(nineq, nz, neq, nBatch) := ns in
  let H_ := kkt_H nBatch nz nineq Q_tilde D_tilde in
  '(g_, h_) ← (if decide (0 < neq)%nat then
                 let g_ := cat1 rx rs in
                 ry ← the TypeError ry;
                 ret (g_, cat1 rz ry)
               else ret (cat1 rx rs, rz));
  H_LU ← btrifact_hack B H_;
  let invH_A_ := btrisolve3 B (btranspose (nz + nineq) A_) H_LU in
  let invH_g_ := btrisolve B g_ H_LU in
  let S_ := mmap2 fadd (bmm (nineq + neq) A_ invH_A_) C_tilde in
  S_LU ← btrifact_hack B S_;
  let t_ := bmap2 fsub (bvm (nineq + neq) invH_g_ (btranspose (nz + nineq) A_)) h_ in
  let w_ := bneg (btrisolve B t_ S_LU) in
  let t_ := bmap2 fsub (bneg g_) (bvm (nz + nineq) w_ A_) in
  let v_ := btrisolve B t_ H_LU in
  let dx := cols_to nz v_ in
  let ds := cols_from nz v_ in
  let dz := cols_to nineq w_ in
  let dy := if decide (0 < neq)%nat then Some (cols_from nineq w_) else None in
  ret (dx, ds, dz, dy).

(** [factor_solve_kkt_reg(Q_tilde, D, G, A, C_tilde, rx, rs, rz, ry, eps)],
    lines 411-453, with the same conventions. *)
Definition factor_solve_kkt_reg (Q_tilde D G : bmat) (A : option bmat)
    (C_tilde : bmat) (rx rs rz : bvec) (ry : option bvec) (eps : fval) : M dirs :=
  '(nineq, nz, neq, nBatch) ← lift (get_sizes G A);
  let H_ := kkt_H nBatch nz nineq Q_tilde D in
  A_ ← kkt_A nBatch nineq neq G A;
  '(g_, h_) ← (if decide (0 < neq)%nat then
                 let g_ := cat1 rx rs in
                 ry ← the TypeError ry;
                 ret (g_, cat1 rz ry)
               else ret (cat1 rx rs, rz));
  H_LU ← btrifact_hack B H_;
  let invH_A_ := btrisolve3 B (btranspose (nz + nineq) A_) H_LU in
  let invH_g_ := btrisolve B g_ H_LU in
  let S_ := bmm (nineq + neq) A_ invH_A_ in
  let S_ := mmap2 fsub S_ C_tilde in
  S_LU ← btrifact_hack B S_;
  let t_ := bmap2 fsub (bvm (nineq + neq) invH_g_ (btranspose (nz + nineq) A_)) h_ in
  let w_ := bneg (btrisolve B t_ S_LU) in
  let t_ := bmap2 fsub (bneg g_) (bvm (nz + nineq) w_ A_) in
  let v_ := btrisolve B t_ H_LU in
  let dx := cols_to nz v_ in
  let ds := cols_from nz v_ in
  let dz := cols_to nineq w_ in
  let dy := if decide (0 < neq)%nat then Some (cols_from nineq w_) else None in
  ret (dx, ds, dz, dy).

(** The direction of the strategy [LU_FULL] for the block [D] of the
    reweighting, lines 236-239 and 288-291; the first solve, lines 69,
    72 and 84-87, is the one for the identity. *)
Definition lu_full_direction (st : lu_full_state) (D : bmat)
    (rx rs rz : bvec) (ry : option bvec) : M dirs :=
  let '(Q_tilde, A_, C_tilde, ns) := st in
  let '(nineq, nz, neq, nBatch) := ns in
  let D_tilde := mmap2 fadd D (scaled_eye REG_EPS nBatch nineq) in
  factor_solve_kkt Q_tilde D_tilde A_ C_tilde rx rs rz ry ns.

Section Refinement.

Context (Q D G : bmat) (A : option bmat)
        (Q_tilde D_tilde C_tilde F_tilde : bmat) (eps : fval)
        (rx rs rz : bvec) (ry : option bvec).

(** The loop of lines 398-406 for the [niter] rounds that remain. *)
Fixpoint refinement_rounds (niter : nat) (sol : dirs)
    (res : bvec * bvec * bvec * option bvec) : M dirs :=
  match niter with
  | O => ret sol
  | S niter' =>
      let '(dx, ds, dz, dy) := sol in
      let '(resx, ress, resz, resy) := res in
      '(ddx, dds, ddz, ddy) ←
        factor_solve_kkt_reg Q_tilde D_tilde G A C_tilde
          (bneg resx) (bneg ress) (bneg resz) (option_map bneg resy) eps;
      let dx := bmap2 fadd dx ddx in
      let ds := bmap2 fadd ds dds in
      let dz := bmap2 fadd dz ddz in
      dy ← match dy with
           | Some v => dv ← the TypeError ddy; ret (Some (bmap2 fadd v dv))
           | None => ret None
           end;
      res ← kkt_resid_reg Q D G A F_tilde eps dx ds dz dy rx rs rz ry;
      refinement_rounds niter' (dx, ds, dz, dy) res
  end.

End Refinement.

(** [solve_kkt_ir(Q, D, G, A, F, rx, rs, rz, ry, niter)], lines 379-408 *)
Definition solve_kkt_ir (Q D G : bmat) (A F : option bmat)
    (rx rs rz : bvec) (ry : option bvec) (niter : nat) : M dirs :=
  '(nineq, nz, neq, nBatch) ← lift (get_sizes G A);
  let eps := REG_EPS in
  let Q_tilde := mmap2 fadd Q (scaled_eye eps nBatch nz) in
  let D_tilde := mmap2 fadd D (scaled_eye eps nBatch nineq) in
  let C_tilde := scaled_eye (fneg eps) nBatch (neq + nineq) in
  let C_tilde := match F with
                 | Some f => update_block11 fsub nineq C_tilde f
                 | None => C_tilde
                 end in
  let F_tilde := get_block11 nineq C_tilde in
  '(dx, ds, dz, dy) ←
    factor_solve_kkt_reg Q_tilde D_tilde G A C_tilde rx rs rz ry eps;
  res ← kkt_resid_reg Q D G A F_tilde eps dx ds dz dy rx rs rz ry;
  refinement_rounds Q D G A Q_tilde D_tilde C_tilde F_tilde eps rx rs rz ry
         niter (dx, ds, dz, dy) res.

End FullSystem.

(** ** The iteration controller *)

(** The primal-dual state [(x, s, z, y)]; [y] is [None] without
    equality constraints. *)
Record iterate : Type := Iterate {
  it_x : bvec;
  it_s : bvec;
  it_z : bvec;
  it_y : option bvec
}.

(** The dictionary [best] once its entries are set. *)
Record best_iterate : Type := Best {
  best_resids : vec;
  best_x : bvec;
  best_z : bvec;
  best_s : bvec;
  best_y : option bvec
}.

(** What [forward] returns: [best['x'], best['y'], best['z'], best['s']],
    each of which is [None] until the first iterate is recorded. *)
Definition answer : Type :=
  (option bvec * option bvec * option bvec * option bvec)%type.

Definition best_answer (best : option best_iterate) : answer :=
  match best with
  | None => (None, None, None, None)
  | Some r => (Some (best_x r), best_y r, Some (best_z r), Some (best_s r))
  end.

(** Lines 167-169 and 171-173 on the one row of a batch of one:
    [M = min(v, 1)[0].repeat(1, nineq); I = M <= 0; v[I] -= M[I] - 1].
    Every entry of [M] is the minimum of the row, so the mask selects
    the whole row or nothing. *)
Definition shift_row (row : vec) : vec :=
  let m := tmin row in
  if fle m F0 then map (λ x, fsub x (fsub m F1)) row else row.

(** The same lines on a tensor [v].  [torch.min(v, 1)[0]] has one
    dimension, so [M] and the mask [I] have the shape
    [(1, nBatch * nineq)]; a mask indexes a tensor of its own shape
    only, and [v[I]] raises [IndexError] unless [v] is one row of
    [nineq] entries. *)
Definition shift_positive (nineq : nat) (v : bvec) : result bvec :=
  match v with
  | [row] => if decide (length row = nineq) then Ok [shift_row row]
             else Raise IndexError
  | _ => Raise IndexError
  end.

(** Line 190 *)
Definition duality_measure (nineq : nat) (s z : bvec) : vec :=
  map (λ t, fabs (fdiv t (of_nat nineq))) (sum1 (bmap2 fmul s z)).

(** The residuals of lines 180-195 *)
Record residuals : Type := Residuals {
  r_x : bvec;
  r_s : bvec;
  r_z : bvec;
  r_y : option bvec;
  r_mu : vec;
  r_pri : vec;
  r_dual : vec;
  r_resids : vec
}.

(** Rows of [new] where the mask holds, rows of [old] elsewhere:
    [old[I] = new[I]] for a mask with one entry per batch element. *)
Definition select_rows {A} (I : list bool) (new old : list A) : list A :=
  zip_with (λ (i : bool) no, if i then no.1 else no.2) I (zip new old).

(** Lines 207-228: the best iterate and the stall counter. *)
Definition track_best (neq : nat) (resids : vec) (cur : iterate)
    (best : option best_iterate) (nNotImproved : nat) : M (best_iterate * nat) :=
  match best with
  | None =>
      ret (Best resids (it_x cur) (it_z cur) (it_s cur) (it_y cur), 0%nat)
  | Some bst =>
      let I := zip_with flt resids (best_resids bst) in
      let nNotImproved :=
        if decide (0 < count_occ bool_eq_dec I true)%nat then 0%nat
        else S nNotImproved in
      by' ← (if decide (0 < neq)%nat then
               b ← the TypeError (best_y bst);
               y ← the TypeError (it_y cur);
               ret (Some (select_rows I y b))
             else ret (best_y bst));
      ret (Best (select_rows I resids (best_resids bst))
                (select_rows I (it_x cur) (best_x bst))
                (select_rows I (it_z cur) (best_z bst))
                (select_rows I (it_s cur) (best_s bst))
                by',
           nNotImproved)
  end.

(** The condition of line 229 *)
Definition should_stop (nNotImproved : nat) (notImprovedLim : Z)
    (bst : best_iterate) (eps : fval) (mu : vec) : bool :=
  bool_decide (Z.of_nat nNotImproved = notImprovedLim)
  || flt (tmax (best_resids bst)) eps
  || fgt (tmin mu) (Fin (inject_Z (10 ^ 100))).

(** Lines 230-233 and 339-342: the warning and the return. *)
Definition warn_and_return (bst : best_iterate) (verbose : Z) : M answer :=
  (if fgt (tmax (best_resids bst)) F1 && bool_decide (0 ≤ verbose) then
     print (PrintStr INACC_ERR);;
     print (PrintVal (tmax (best_resids bst)))
   else ret ());;
  ret (best_answer (Some bst)).

(** Lines 271-285: the affine step length, the centering parameter and
    the right-hand side of the corrector. *)
Definition affine_alpha (nBatch : nat) (s z ds_aff dz_aff : bvec) : vec :=
  vmap2 tmin2 (vmap2 tmin2 (get_step z dz_aff) (get_step s ds_aff))
              (replicate nBatch F1).

Definition centering_sigma (nineq : nat) (alpha : vec) (s z ds_aff dz_aff : bvec) : vec :=
  let alpha_nineq := repeat_t nineq alpha in
  let t1 := bmap2 fadd s (bmap2 fmul alpha_nineq ds_aff) in
  let t2 := bmap2 fadd z (bmap2 fmul alpha_nineq dz_aff) in
  let t3 := sum1 (bmap2 fmul t1 t2) in
  let t4 := sum1 (bmap2 fmul s z) in
  map fcube (vmap2 fdiv t3 t4).

Definition corrector_rhs (nBatch nineq nz neq : nat) (mu sig : vec)
    (s ds_aff dz_aff : bvec) : bvec * bvec * bvec * option bvec :=
  let rx := zeros nBatch nz in
  let rs := bmap2 fdiv
              (bmap2 fadd (repeat_t nineq (vmap2 fmul (map fneg mu) sig))
                          (bmap2 fmul ds_aff dz_aff))
              s in
  let rz := zeros nBatch nineq in
  let ry := zeros nBatch neq in
  (rx, rs, rz, Some ry).

(** Lines 327-329 *)
Definition damped_alpha (nBatch : nat) (s z ds dz : bvec) : vec :=
  vmap2 tmin2
    (map (fmul (Fin (999 # 1000))) (vmap2 tmin2 (get_step z dz) (get_step s ds)))
    (replicate nBatch F1).

(** [v += alpha.repeat(n, 1).t() * dv] *)
Definition step_by (n : nat) (alpha : vec) (v dv : bvec) : bvec :=
  bmap2 fadd v (bmap2 fmul (repeat_t n alpha) dv).

Section Forward.

Context (B : backend).

(** The six strategies other than [LU_PARTIAL] (lines 364-751, with
    their set-up at lines 68-110, 120-163, 235-269 and 287-321) build
    the full system for the reweighting [d] and solve it.  They are
    represented by what they return for the problem, the tolerance, the
    reweighting and the right-hand side, or by the exception they
    raise; the first solve uses the identity reweighting. *)
Context (alt_kkt : KKTSolvers → bmat → bmat → option bmat → option bmat →
                   fval → bvec → bvec → bvec → bvec → option bvec → M dirs).

Section Run.

Context (Q : bmat) (p : bvec) (G : bmat) (h : bvec)
        (A : option bmat) (b : option bvec) (F : option bmat)
        (Q_LU S_LU R : loc)
        (eps : fval) (verbose notImprovedLim : Z) (solver : KKTSolvers)
        (nineq nz neq nBatch : nat).

(** The direction for the right-hand side [(rx, rs, rz, ry)] under the
    configured strategy, lines 235-269 and 287-321. *)
Definition direction (d rx rs rz : bvec) (ry : option bvec) : M dirs :=
  if decide (solver = LU_PARTIAL) then solve_kkt B Q_LU d G A S_LU rx rs rz ry
  else alt_kkt solver Q G A F eps d rx rs rz ry.

(** Lines 180-195 *)
Definition compute_residuals (cur : iterate) : M residuals :=
  let '(Iterate x s z y) := cur in
  yA ← (if decide (0 < neq)%nat then
          y ← the AttributeError y;
          a ← the AttributeError A;
          ret (bvm nz y a)
        else ret (zeros nBatch nz));
  let rx :=
    bmap2 fadd
      (bmap2 fadd (bmap2 fadd yA (bvm nz z G)) (bvm nz x (btranspose nz Q)))
      p in
  let rs := z in
  let rz := bmap2 fsub (bmap2 fadd (bvm nineq x (btranspose nz G)) s) h in
  let rz := match F with
            | Some f => bmap2 fsub rz (bvm nineq z (btranspose nineq f))
            | None => rz
            end in
  ry ← (if decide (0 < neq)%nat then
          a ← the AttributeError A;
          b ← the TypeError b;
          ret (Some (bmap2 fsub (bvm neq x (btranspose nz a)) b))
        else ret None);
  let mu := duality_measure nineq s z in
  let z_resid := map (norm2 B) rz in
  let y_resid := match ry with
                 | Some t => map (norm2 B) t
                 | None => replicate nBatch F0
                 end in
  let pri_resid := vmap2 fadd y_resid z_resid in
  let dual_resid := map (norm2 B) rx in
  let resids :=
    vmap2 fadd (vmap2 fadd pri_resid dual_resid) (map (fmul (of_nat nineq)) mu) in
  ret (Residuals rx rs rz ry mu pri_resid dual_resid resids).

(** Lines 271-337: from the affine direction to the next iterate. *)
Definition advance (cur : iterate) (d : bvec) (mu : vec) (aff : dirs) : M iterate :=
  let '(Iterate x s z y) := cur in
  let '(dx_aff, ds_aff, dz_aff, dy_aff) := aff in
  let alpha := affine_alpha nBatch s z ds_aff dz_aff in
  let sig := centering_sigma nineq alpha s z ds_aff dz_aff in
  let '(rx, rs, rz, ry) := corrector_rhs nBatch nineq nz neq mu sig s ds_aff dz_aff in
  '(dx_cor, ds_cor, dz_cor, dy_cor) ← direction d rx rs rz ry;
  let dx := bmap2 fadd dx_aff dx_cor in
  let ds := bmap2 fadd ds_aff ds_cor in
  let dz := bmap2 fadd dz_aff dz_cor in
  dy ← (if decide (0 < neq)%nat then
          a ← the TypeError dy_aff;
          c ← the TypeError dy_cor;
          ret (Some (bmap2 fadd a c))
        else ret None);
  let alpha := damped_alpha nBatch s z ds dz in
  y' ← (if decide (0 < neq)%nat then
          y ← the TypeError y;
          dy ← the TypeError dy;
          ret (Some (step_by neq alpha y dy))
        else ret None);
  ret (Iterate (step_by nz alpha x dx) (step_by nineq alpha s ds)
               (step_by nineq alpha z dz) y').

(** The loop of lines 178-337 for the [n] iterations that remain, the
    current one being number [i], followed by lines 339-342. *)
Fixpoint loop (n i : nat) (cur : iterate) (best : option best_iterate)
    (nNotImproved : nat) : M answer :=
  match n with
  | O =>
      bst ← the AttributeError best;
      warn_and_return bst verbose
  | S n' =>
      res ← compute_residuals cur;
      let d := bmap2 fdiv (it_z cur) (it_s cur) in
      factored ← (if decide (solver = LU_PARTIAL) then
                    try_except (factor_kkt B S_LU R d;; ret true) (ret false)
                  else ret true);
      if negb factored then ret (best_answer best)
      else
        (if decide (verbose = 1) then
           print (PrintIter i (tmean (r_pri res)) (tmean (r_dual res))
                              (tmean (r_mu res)))
         else ret ());;
        '(bst, nNotImproved) ← track_best neq (r_resids res) cur best nNotImproved;
        if should_stop nNotImproved notImprovedLim bst eps (r_mu res)
        then warn_and_return bst verbose
        else
          aff ← direction d (r_x res) (r_s res) (r_z res) (r_y res);
          next ← advance cur d (r_mu res) aff;
          loop n' (S i) next (Some bst) nNotImproved
  end.

(** Lines 68-165: the first iterate. *)
Definition initial_iterate : M iterate :=
  '(x, s, z, y) ←
    (if decide (solver = LU_PARTIAL) then
       let d := ones nBatch nineq in
       factor_kkt B S_LU R d;;
       mb ← (if decide (0 < neq)%nat then
               b ← the TypeError b; ret (Some (bneg b))
             else ret None);
       solve_kkt B Q_LU d G A S_LU p (zeros nBatch nineq) (bneg h) mb
     else
       alt_kkt solver Q G A F eps (ones nBatch nineq)
               p (zeros nBatch nineq) (bneg h) (option_map bneg b));
  ret (Iterate x s z y).

End Run.

(** [forward], lines 59-342 *)
Definition forward (Q : bmat) (p : bvec) (G : bmat) (h : bvec)
    (A : option bmat) (b : option bvec) (F : option bmat)
    (Q_LU S_LU R : loc)
    (eps : fval) (verbose notImprovedLim maxIter : Z) (solver : KKTSolvers)
    : M answer :=
  '(nineq, nz, neq, nBatch) ← lift (get_sizes G A);
  init ← initial_iterate Q p G h A b F Q_LU S_LU R eps solver nineq neq nBatch;
  s ← lift (shift_positive nineq (it_s init));
  z ← lift (shift_positive nineq (it_z init));
  loop Q p G h A b F Q_LU S_LU R eps verbose notImprovedLim solver
       nineq nz neq nBatch
       (Z.to_nat maxIter) 0 (Iterate (it_x init) s z (it_y init)) None 0.

End Forward.

(** ** The formulas of the specification

    Written from the words of the specification, one batch element and
    one component at a time, to be compared with what the code
    computes. *)
Module Spec.

(** "the mean over the [nineq] componentwise products [s_i * z_i]
    divided again by [nineq]" *)
Definition mu_claimed (nineq : nat) (s z : vec) : fval :=
  fdiv (tmean (vmap2 fmul s z)) (of_nat nineq).

(** The average complementarity product, in absolute value. *)
Definition mu_mean (s z : vec) : fval := fabs (tmean (vmap2 fmul s z)).

(** [alpha = min(get_step(z, dz_aff), get_step(s, ds_aff), 1)] *)
Definition alpha (step_z step_s : fval) : fval := tmin2 (tmin2 step_z step_s) F1.

(** The third power: of a rational its cube, of an infinity the
    infinity of its sign. *)
Definition cube (r : fval) : fval :=
  match r with
  | Fin q => Fin (Qred (q ^ 3))
  | PInf => PInf
  | NInf => NInf
  | NaN => NaN
  end.

(** [sigma = ((s + alpha ds_aff) . (z + alpha dz_aff) / (s . z))^3] *)
Definition sigma (alpha : fval) (s z ds_aff dz_aff : vec) : fval :=
  cube (fdiv (dot (vmap2 fadd s (fmul alpha <$> ds_aff))
                  (vmap2 fadd z (fmul alpha <$> dz_aff)))
             (dot s z)).

(** One entry of the slack row of the corrector's right-hand side:
    [(-mu sigma + ds_aff dz_aff) / s]. *)
Definition corrector_rs (mu sigma s ds_aff dz_aff : fval) : fval :=
  fdiv (fadd (fmul (fneg mu) sigma) (fmul ds_aff dz_aff)) s.

(** [R + diag(v)] for one matrix: the entry [(i, i)] receives the
    entry [i] of [v]. *)
Definition add_diag (Rm : mat) (v : vec) : mat :=
  imap (λ i row,
    imap (λ j x, if bool_decide (i = j) then fadd x (nth i v F0) else x) row) Rm.

(** The same three formulas for data that are rational numbers, in the
    arithmetic of the rationals. *)
Definition Qdot (u v : list Q) : Q := fold_right Qplus 0%Q (zip_with Qmult u v).

Definition alpha_Q (step_z step_s : Q) : Q := Qmin (Qmin step_z step_s) 1%Q.

Definition sigma_Q (alpha : Q) (s z ds_aff dz_aff : list Q) : Q :=
  ((Qdot (zip_with (λ x d, x + alpha * d) s ds_aff)
         (zip_with (λ x d, x + alpha * d) z dz_aff) / Qdot s z) ^ 3)%Q.

Definition corrector_rs_Q (mu sigma s ds_aff dz_aff : Q) : Q :=
  ((- mu * sigma + ds_aff * dz_aff) / s)%Q.

(** The ratio test: the least [-v_i / dv_i] over the components with
    [dv_i < 0], and at most 1. *)
Fixpoint ratios (v dv : vec) : list fval :=
  match v, dv with
  | x :: v, y :: dv =>
      if flt y F0 then fdiv (fneg x) y :: ratios v dv else ratios v dv
  | _, _ => []
  end.

End Spec.

(** ** A back end for problems in one variable

    With one variable, one inequality and no equality every matrix the
    solver factors is 1 x 1.  Factoring [[a]] gives [[a]] with the
    pivot 1 and fails exactly when [a] is zero, solving divides by
    [a], the permutation is [[1]] and the 2-norm of a vector of one
    entry is its absolute value. *)
Module OneByOne.

Definition entry (m : mat) : fval := nth 0 (nth 0 m []) NaN.

Definition singular (m : mat) : bool :=
  match entry m with Fin q => Qeq_bool q 0 | _ => false end.

Definition factor (x : bmat) : result lu :=
  if existsb singular x
  then Raise (RuntimeError "failed to factorize batch element")
  else Ok (x, map (λ _, [1]) x).

Definition solve (b : bvec) (f : lu) : bvec :=
  zip_with (λ row m, map (λ x, fdiv x (entry m)) row) b f.1.

Definition solve3 (b : bmat) (f : lu) : bmat :=
  zip_with (λ rows m, map (map (λ x, fdiv x (entry m))) rows) b f.1.

Definition unit_matrices (x : bmat) : bmat := map (λ _, [[F1]]) x.

Definition norm (v : vec) : fval :=
  match v with [x] => fabs x | _ => NaN end.

Definition B : backend :=
  Backend false (λ _, factor) factor solve solve3
    (λ x _, (unit_matrices x, unit_matrices x, x))
    (λ x _, unit_matrices x)
    norm.

(** No other strategy than [LU_PARTIAL] is configured in the examples. *)
Definition no_alt : KKTSolvers → bmat → bmat → option bmat → option bmat →
    fval → bvec → bvec → bvec → bvec → option bvec → M dirs :=
  λ _ _ _ _ _ _ _ _ _ _ _, raise AssertionError.

Definition empty_world : world := World ∅ false None [].

(** [Q_LU, S_LU, R = pre_factor_kkt(Q, G, F, A)] followed by
    [forward(Q, p, G, h, A, b, F, Q_LU, S_LU, R, ...)] with the partial
    factorization and without equality constraints. *)
Definition solve_qp (Q : bmat) (p : bvec) (G : bmat) (h : bvec) (F : bmat)
    (eps : fval) (verbose notImprovedLim maxIter : Z) : result answer * world :=
  (bind (pre_factor_kkt B Q G (Some F) None) (λ '(Q_LU, S_LU, R),
     forward B no_alt Q p G h None None (Some F) Q_LU S_LU R
             eps verbose notImprovedLim maxIter LU_PARTIAL)) empty_world.

(** The state after [pre_factor_kkt] for [Q = (1)], [G = (1)] and
    [F = (0)]: [Q_LU], [S_LU] and [R] are the objects 1, 2 and 3. *)
Definition cached : world :=
  (pre_factor_kkt B [[[F1]]] [[[F1]]] (Some [[[F0]]]) None empty_world).2.

(** The state after [pre_factor_kkt] for [Q = (1)], a constraint row
    [G = (0)] and the coupling [F = (f)]. *)
Definition zero_row (f : fval) : world :=
  (pre_factor_kkt B [[[F1]]] [[[F0]]] (Some [[[f]]]) None empty_world).2.

(** What a computation returned, or raised. *)
Definition value {A} (default : A) (r : result A * world) : A :=
  match r.1 with Ok a => a | Raise _ => default end.
Definition raised {A} (r : result A * world) : exn :=
  match r.1 with Raise e => e | Ok _ => AssertionError end.

(** The tensor a shift has given. *)
Definition shifted (r : result (list (list fval))) : list (list fval) :=
  match r with Ok v => v | Raise _ => [] end.

(** [eps = 1e-12], the default. *)
Definition eps_default : fval := Fin (1 # 1000000000000).

End OneByOne.

(** ** Predicates of the statements *)

(** Non-negative values: a rational that is not negative, or the
    positive infinity. *)
Definition fnonneg (a : fval) : Prop :=
  match a with Fin q => (0 <= q)%Q | PInf => True | _ => False end.

(** A rational greater than zero. *)
Definition finite_pos (a : fval) : Prop := ∃ q, a = Fin q ∧ (0 < q)%Q.

(** The hypothesis of the ratio test on one component: a positive
    rational and a direction that is a rational other than zero. *)
Definition ratio_ok (x y : fval) : Prop :=
  ∃ qx qy, x = Fin qx ∧ y = Fin qy ∧ (0 < qx)%Q ∧ ¬ (qy == 0)%Q.

(** A computation keeps a relation between the state it starts from and
    the state it ends in, whatever it returns or raises. *)
Definition keeps {A} (R : world → world → Prop) (m : M A) : Prop :=
  ∀ w r w', m w = (r, w') → R w w'.

(** A computation returns only values with a given property. *)
Definition returns_only {A} (P : A → Prop) (m : M A) : Prop :=
  ∀ w a w', m w = (Ok a, w') → P a.

(** Nothing is printed. *)
Definition same_output (w w' : world) : Prop := stdout w' = stdout w.

(** Every object of the heap but the one at [l] is what it was, and no
    object is created or removed. *)
Definition only_written (l : loc) (w w' : world) : Prop :=
  ∀ l', l' ≠ l → heap w' !! l' = heap w !! l'.

(** The entry [(j, i)] of a two-dimensional tensor. *)
Definition entry2 (t : bvec) (j i : nat) : option fval :=
  t !! j ≫= λ row, row !! i.

(** The state after factoring the matrices of a list one after the
    other, whether a factorization fails or not. *)
Definition factor_all (B : backend) (xs : list bmat) (w : world) : world :=
  foldl (λ w x, (btrifact_hack B x w).2) w xs.

(** What a strategy that factors from scratch may do to the state: the
    heap and the cached mask stay, and either nothing is printed and
    the flag of the warning stays, or the flag gets set and the warning
    about pivoting is printed, once. *)
Definition warns_at_most_once (w w' : world) : Prop :=
  heap w' = heap w
  ∧ factor_kkt_eye w' = factor_kkt_eye w
  ∧ ((stdout w' = stdout w
      ∧ shown_btrifact_warning w' = shown_btrifact_warning w)
     ∨ (shown_btrifact_warning w = false
        ∧ shown_btrifact_warning w' = true
        ∧ stdout w' = stdout w ++ [PrintStr BTRIFACT_WARNING])).

(** Evaluation of a closed computation. *)
Ltac run := vm_compute; reflexivity.

(** * Properties *)

(** ** Scalars *)

Lemma map_is_fmap {A B} (f : A → B) (l : list A) : map f l = f <$> l.
Proof. reflexivity. Qed.

Lemma sign_of_pos q : (0 < q)%Q → sign_of q = Some true.
Proof.
  intros H. unfold sign_of. destruct (Qcompare_spec q 0) as [E|E|E]; trivial; lra.
Qed.

Lemma sign_of_neg q : (q < 0)%Q → sign_of q = Some false.
Proof.
  intros H. unfold sign_of. destruct (Qcompare_spec q 0) as [E|E|E]; trivial; lra.
Qed.

Lemma sign_of_zero q : (q == 0)%Q → sign_of q = None.
Proof.
  intros H. unfold sign_of. destruct (Qcompare_spec q 0) as [E|E|E]; trivial; lra.
Qed.

Lemma sign_of_nonzero q : ¬ (q == 0)%Q → ∃ p, sign_of q = Some p.
Proof.
  intros H. unfold sign_of. destruct (Qcompare_spec q 0) as [E|E|E]; eauto.
  contradiction.
Qed.

Lemma flt_fin x y : flt (Fin x) (Fin y) = true ↔ (x < y)%Q.
Proof.
  simpl. destruct (Qcompare_spec x y) as [E|E|E]; split; intros; try discriminate;
    trivial; lra.
Qed.

Lemma flt_fin_false x y : flt (Fin x) (Fin y) = false ↔ (y <= x)%Q.
Proof.
  simpl. destruct (Qcompare_spec x y) as [E|E|E]; split; intros; try discriminate;
    trivial; lra.
Qed.

Lemma fle_fin x y : fle (Fin x) (Fin y) = true ↔ (x <= y)%Q.
Proof.
  simpl. destruct (Qcompare_spec x y) as [E|E|E]; split; intros; try discriminate;
    trivial; lra.
Qed.

Lemma Qabs_nonneg_eq q : (0 <= q)%Q → Qabs q = q.
Proof.
  destruct q as [n d]. unfold Qle, Qabs. simpl. intros H.
  f_equal. apply Z.abs_eq. lia.
Qed.

Lemma fpos_fnonneg a : fpos a = true → fnonneg a.
Proof.
  destruct a as [q| | |]; simpl; try discriminate; trivial.
  intros H. apply (flt_fin 0 q) in H. lra.
Qed.

Lemma fnonneg_fabs a : fnonneg a → fabs a = a.
Proof.
  destruct a as [q| | |]; simpl; try contradiction; trivial.
  intros H. f_equal. now apply Qabs_nonneg_eq.
Qed.

Lemma fnonneg_fadd a b : fnonneg a → fnonneg b → fnonneg (fadd a b).
Proof.
  destruct a as [x| | |], b as [y| | |]; simpl; try contradiction; trivial.
  intros. rewrite Qred_correct. lra.
Qed.

Lemma fpos_fmul a b : fpos a = true → fpos b = true → fpos (fmul a b) = true.
Proof.
  destruct a as [x| | |], b as [y| | |]; try discriminate; trivial.
  - intros Hx Hy. apply (flt_fin 0 x) in Hx. apply (flt_fin 0 y) in Hy.
    apply (flt_fin 0). rewrite Qred_correct. nra.
  - intros Hx _. apply (flt_fin 0 x) in Hx. simpl. now rewrite sign_of_pos.
  - intros _ Hy. apply (flt_fin 0 y) in Hy. simpl. now rewrite sign_of_pos.
Qed.

Lemma fnonneg_tsum_from acc l :
  fnonneg acc → Forall fnonneg l → fnonneg (foldl fadd acc l).
Proof.
  intros Ha Hl. revert acc Ha.
  induction Hl as [|x l Hx _ IH]; intros acc Ha; simpl; trivial.
  apply IH. now apply fnonneg_fadd.
Qed.

Lemma fnonneg_tsum l : Forall fnonneg l → fnonneg (tsum l).
Proof. apply fnonneg_tsum_from. simpl. lra. Qed.

Lemma fabs_mean_nonneg a n : fnonneg a → fabs (fdiv a (of_nat n)) = fdiv a (of_nat n).
Proof.
  intros Ha. unfold of_nat.
  assert (Hn : (0 <= inject_Z (Z.of_nat n))%Q).
  { change 0%Q with (inject_Z 0). rewrite <- Zle_Qle. lia. }
  set (m := inject_Z (Z.of_nat n)) in *. clearbody m.
  destruct a as [q| | |]; simpl in *; try contradiction.
  - destruct (sign_of m) as [p|] eqn:Hs.
    + simpl. f_equal. apply Qabs_nonneg_eq. rewrite Qred_correct.
      assert (Hm : (0 < m)%Q).
      { unfold sign_of in Hs. destruct (Qcompare_spec m 0); try discriminate; lra. }
      apply Qle_shift_div_l; lra.
    + destruct (sign_of q) as [[|]|] eqn:Hq; trivial.
      unfold sign_of in Hq. destruct (Qcompare_spec q 0); try discriminate; lra.
  - destruct (sign_of m) as [[|]|] eqn:Hs; trivial.
    unfold sign_of in Hs. destruct (Qcompare_spec m 0); try discriminate; lra.
Qed.

(** ** The duality measure *)

Lemma duality_measure_rows nineq s z :
  duality_measure nineq s z
  = zip_with (λ sb zb, fabs (fdiv (tsum (vmap2 fmul sb zb)) (of_nat nineq))) s z.
Proof.
  unfold duality_measure, sum1, bmap2. revert z.
  induction s as [|sb s IH]; intros [|zb z]; simpl; trivial.
  f_equal. apply IH.
Qed.

(** C6, as stated, fails: for [s = z = (1, 1)] the code gives the
    duality measure [1], the mean of the two products, and not that
    mean divided again by [nineq = 2]. *)
Lemma duality_measure_not_divided_twice :
  duality_measure 2 [[F1; F1]] [[F1; F1]] = [F1]
  ∧ Spec.mu_claimed 2 [F1; F1] [F1; F1] = Fin (1 # 2)
  ∧ duality_measure 2 [[F1; F1]] [[F1; F1]]
    ≠ [Spec.mu_claimed 2 [F1; F1] [F1; F1]].
Proof. repeat split; try reflexivity. discriminate. Qed.

(** C6, amended: for iterates with [nineq] components per batch element
    the duality measure of line 190 is, per batch element, the absolute
    value of the mean of the [nineq] products [s_i * z_i], divided by
    [nineq] once; and for strictly positive [s] and [z] it is that mean
    itself. *)
Theorem duality_measure_is_mean nineq (s z : bvec) :
  Forall (λ r, length r = nineq) s →
  Forall (λ r, length r = nineq) z →
  duality_measure nineq s z = zip_with Spec.mu_mean s z
  ∧ (all_pos s → all_pos z →
     duality_measure nineq s z = zip_with (λ sb zb, tmean (vmap2 fmul sb zb)) s z).
Proof.
  intros Hs Hz. rewrite duality_measure_rows.
  assert (Hrow : ∀ sb zb, length sb = nineq → length zb = nineq →
            fabs (fdiv (tsum (vmap2 fmul sb zb)) (of_nat nineq)) = Spec.mu_mean sb zb).
  { intros sb zb H1 H2. unfold Spec.mu_mean, tmean, vmap2.
    rewrite length_zip_with, H1, H2, Nat.min_id. reflexivity. }
  split.
  - revert z Hz. induction Hs as [|sb s H1 _ IH]; intros z Hz; [reflexivity|].
    destruct Hz as [|zb z H2 Hz]; [reflexivity|]. simpl.
    f_equal; [now apply Hrow | now apply IH].
  - intros Ps Pz. revert z Hz Pz.
    induction Hs as [|sb s H1 _ IH]; intros z Hz Pz; [reflexivity|].
    destruct Hz as [|zb z H2 Hz]; [reflexivity|]. simpl.
    unfold all_pos in *.
    inversion_clear Ps as [|? ? Psb Ps']. inversion_clear Pz as [|? ? Pzb Pz'].
    f_equal; [|now apply IH].
    unfold tmean, vmap2. rewrite length_zip_with, H1, H2, Nat.min_id.
    apply fabs_mean_nonneg, fnonneg_tsum.
    clear -Psb Pzb. revert zb Pzb.
    induction Psb as [|x sb Hx _ IH]; intros zb Pzb; [constructor|].
    destruct Pzb as [|y zb Hy Pzb]; [constructor|]. simpl.
    constructor; [|now apply IH]. now apply fpos_fnonneg, fpos_fmul.
Qed.

Lemma duality_measure_is_mean_witness :
  let s := [[Fin 3; F1]] in
  let z := [[F1; Fin 5]] in
  Forall (λ r, length r = 2%nat) s
  ∧ Forall (λ r, length r = 2%nat) z
  ∧ duality_measure 2 s z = zip_with Spec.mu_mean s z
  ∧ (all_pos s → all_pos z →
     duality_measure 2 s z = zip_with (λ sb zb, tmean (vmap2 fmul sb zb)) s z).
Proof.
  assert (H1 : Forall (λ r : vec, length r = 2%nat) [[Fin 3; F1]])
    by (repeat constructor).
  assert (H2 : Forall (λ r : vec, length r = 2%nat) [[F1; Fin 5]])
    by (repeat constructor).
  split; [exact H1|]. split; [exact H2|].
  exact (duality_measure_is_mean 2 _ _ H1 H2).
Defined.

(** ** The ratio test *)

Lemma finite_pos_fpos a : finite_pos a → fpos a = true.
Proof. intros (q & -> & H). now apply (flt_fin 0 q). Qed.

Lemma tmin2_fin x y :
  tmin2 (Fin x) (Fin y) = if flt (Fin y) (Fin x) then Fin y else Fin x.
Proof. reflexivity. Qed.

Lemma tmax2_fin x y :
  tmax2 (Fin x) (Fin y) = if flt (Fin x) (Fin y) then Fin y else Fin x.
Proof. reflexivity. Qed.

Lemma foldl_tmin2_fin a l :
  Forall finite_pos l →
  ∃ q, foldl tmin2 (Fin a) l = Fin q
       ∧ (q <= a)%Q
       ∧ (Fin q = Fin a ∨ Fin q ∈ l)
       ∧ ∀ e, e ∈ l → fle (Fin q) e = true.
Proof.
  intros Hl. revert a. induction Hl as [|x l (qx & -> & Hx) _ IH]; intros a.
  - exists a. split; [reflexivity|]. split; [lra|]. split; [now left|].
    intros e He. inversion He.
  - cbn [foldl]. rewrite tmin2_fin. destruct (flt (Fin qx) (Fin a)) eqn:Hc.
    + apply flt_fin in Hc. destruct (IH qx) as (q & Hq & Hle & Hin & Hall).
      exists q. split; [exact Hq|]. split; [lra|]. split.
      * right. destruct Hin as [E|Hin]; [rewrite E; left | now right].
      * intros e He. apply elem_of_cons in He as [->|He]; [|now apply Hall].
        now apply fle_fin.
    + apply flt_fin_false in Hc. destruct (IH a) as (q & Hq & Hle & Hin & Hall).
      exists q. split; [exact Hq|]. split; [exact Hle|]. split.
      * destruct Hin as [Hin|Hin]; [now left | right; now right].
      * intros e He. apply elem_of_cons in He as [->|He]; [|now apply Hall].
        apply fle_fin. lra.
Qed.

(** The minimum of a row of finite positive entries: it is positive,
    below every entry, and one of the entries unless the row is empty. *)
Lemma tmin_finite_pos l :
  Forall finite_pos l →
  fpos (tmin l) = true
  ∧ (∀ e, e ∈ l → fle (tmin l) e = true)
  ∧ (l = [] ∨ tmin l ∈ l).
Proof.
  intros Hl. destruct Hl as [|x l (qx & -> & Hx) Hl]; cbn [tmin].
  - split; [reflexivity|]. split; [intros e He; inversion He | now left].
  - destruct (foldl_tmin2_fin qx l Hl) as (q & Hq & Hle & Hin & Hall).
    rewrite Hq. split; [|split].
    + apply (flt_fin 0 q). destruct Hin as [E|Hin].
      * injection E as ->. exact Hx.
      * rewrite Forall_forall in Hl. destruct (Hl _ Hin) as (q' & E & Hq').
        injection E as ->. exact Hq'.
    + intros e He. apply elem_of_cons in He as [->|He]; [|now apply Hall].
      now apply fle_fin.
    + right. destruct Hin as [E|Hin]; [rewrite E; left | now right].
Qed.

Lemma foldl_tmax2_fin a l :
  Forall (λ e, is_fin e = true) l → ∃ q, foldl tmax2 (Fin a) l = Fin q.
Proof.
  intros Hl. revert a. induction Hl as [|x l Hx _ IH]; intros a; cbn [foldl]; eauto.
  destruct x as [qx| | |]; try discriminate.
  rewrite tmax2_fin. destruct (flt (Fin a) (Fin qx)); apply IH.
Qed.

(** The value written over the entries with a positive direction is a
    rational that is at least 1. *)
Lemma py_max_one_fin l :
  Forall (λ e, is_fin e = true) l →
  ∃ qm, py_max F1 (tmax l) = Fin qm ∧ (qm = 1%Q ∨ (1 < qm)%Q).
Proof.
  intros Hl. destruct Hl as [|x l Hx Hl]; cbn [tmax].
  - exists 1%Q. split; [reflexivity | now left].
  - destruct x as [qx| | |]; try discriminate.
    destruct (foldl_tmax2_fin qx l Hl) as (q & ->).
    unfold py_max, fgt. destruct (flt F1 (Fin q)) eqn:Hc.
    + apply flt_fin in Hc. exists q. split; [reflexivity | now right].
    + exists 1%Q. split; [reflexivity | now left].
Qed.

Lemma zip_with_twice {A B C} (f : A → B → C) (g : C → B → C) (l : list A) (k : list B) :
  zip_with g (zip_with f l k) k = zip_with (λ x y, g (f x y) y) l k.
Proof.
  revert k. induction l as [|x l IH]; intros [|y k]; simpl; trivial.
  f_equal. apply IH.
Qed.

Lemma ratio_quotient_fin qx qy :
  ¬ (qy == 0)%Q → fdiv (fneg (Fin qx)) (Fin qy) = Fin (Qred (Qred (- qx) / qy)).
Proof.
  intros H. simpl. destruct (sign_of_nonzero qy H) as [p ->]. reflexivity.
Qed.

Lemma ratios_fin_all (v dv : bvec) :
  Forall2 (Forall2 ratio_ok) v dv →
  Forall (λ e, is_fin e = true) (concat (bmap2 (λ x y, fdiv (fneg x) y) v dv)).
Proof.
  intros H. unfold bmap2, vmap2.
  induction H as [|r dr v dv Hr _ IH]; cbn [zip_with concat]; [constructor|].
  apply Forall_app. split; [|exact IH]. clear IH.
  induction Hr as [|x y r dr (qx & qy & -> & -> & Hx & Hy) _ IH]; cbn [zip_with];
    [constructor|].
  constructor; [|exact IH]. now rewrite ratio_quotient_fin.
Qed.

(** One row after the masked assignment of line 347. *)
Lemma step_row m r dr :
  finite_pos m → Forall2 ratio_ok r dr →
  let row := zip_with (λ x y, if fgt y F0 then m else fdiv (fneg x) y) r dr in
  Forall finite_pos row
  ∧ (∀ a, a ∈ Spec.ratios r dr → a ∈ row)
  ∧ (∀ e, e ∈ row → e = m ∨ e ∈ Spec.ratios r dr).
Proof.
  intros Hm Hr. cbv zeta. unfold fgt, F0.
  induction Hr as [|x y r dr (qx & qy & -> & -> & Hx & Hy) _ (IH1 & IH2 & IH3)].
  - split; [constructor|]. split; [intros a Ha; inversion Ha | intros e He; inversion He].
  - cbn [zip_with Spec.ratios]. unfold F0.
    destruct (flt (Fin 0) (Fin qy)) eqn:Hpos.
    + apply flt_fin in Hpos.
      assert (Hneg : flt (Fin qy) (Fin 0) = false) by (apply flt_fin_false; lra).
      rewrite Hneg. split; [|split].
      * now constructor.
      * intros a Ha. right. now apply IH2.
      * intros e He. apply elem_of_cons in He as [->|He]; [now left | now apply IH3].
    + apply flt_fin_false in Hpos.
      assert (Hneg : flt (Fin qy) (Fin 0) = true) by (apply flt_fin; lra).
      rewrite Hneg. apply flt_fin in Hneg. split; [|split].
      * constructor; [|exact IH1]. rewrite ratio_quotient_fin by exact Hy.
        eexists. split; [reflexivity|].
        assert (E : (Qred (- qx) / qy == qx / - qy)%Q)
          by (rewrite Qred_correct; field; lra).
        rewrite Qred_correct, E. apply Qlt_shift_div_l; lra.
      * intros a Ha. apply elem_of_cons in Ha as [->|Ha]; [left | right; now apply IH2].
      * intros e He. apply elem_of_cons in He as [->|He].
        -- right. left.
        -- destruct (IH3 _ He) as [->|Hin]; [now left | right; now right].
Qed.

Lemma lookup_map_zip_with {A B C D} (f : C → D) (g : A → B → C)
    (l : list A) (k : list B) i x y :
  l !! i = Some x → k !! i = Some y →
  map f (zip_with g l k) !! i = Some (f (g x y)).
Proof.
  revert k i. induction l as [|a l IH]; intros [|c k] [|i]; simpl;
    try discriminate.
  - intros [= ->] [= ->]. reflexivity.
  - apply IH.
Qed.

Lemma get_step_lookup v dv b r dr :
  v !! b = Some r → dv !! b = Some dr →
  get_step v dv !! b
  = Some (tmin (zip_with (λ x y,
            if fgt y F0
            then py_max F1 (tmax (concat (bmap2 (λ x y, fdiv (fneg x) y) v dv)))
            else fdiv (fneg x) y) r dr)).
Proof.
  intros Hr Hdr. unfold get_step. cbv zeta.
  set (m := py_max F1 _). unfold min1.
  unfold bmap2 at 1. unfold bmap2 at 1. rewrite zip_with_twice.
  erewrite lookup_map_zip_with; [|exact Hr|exact Hdr].
  unfold vmap2. now rewrite zip_with_twice.
Qed.

(** C2, as stated, fails: [get_step] does not clamp.  For [v = (2)] and
    [dv = (-1)] it returns the ratio [2], which is not in [[0, 1]]; and
    in a batch of two, the first element, whose direction has no
    negative component, gets the step [5] of the second and not [1]. *)
Lemma get_step_not_clamped :
  get_step [[Fin 2]] [[Fin (-1)]] = [Fin 2]
  ∧ fle (Fin 2) F1 = false
  ∧ get_step [[F1]; [Fin 5]] [[F1]; [Fin (-1)]] = [Fin 5; Fin 5]
  ∧ Spec.ratios [F1] [F1] = [].
Proof. repeat split; reflexivity. Qed.

(** C2, amended: for a strictly positive [v] and a direction [dv]
    without zero component, [get_step] returns for every batch element
    a strictly positive step that is below every ratio [-v_i / dv_i]
    with [dv_i < 0] and is one of these ratios unless it is at least 1;
    it is not clamped, the caller takes the minimum with 1, and that
    minimum lies in (0, 1] and is 1 when no component of the direction
    is negative. *)
Theorem get_step_ratio_test (v dv : bvec) (b : nat) (r dr : vec) :
  Forall2 (Forall2 ratio_ok) v dv →
  v !! b = Some r → dv !! b = Some dr →
  ∃ step, get_step v dv !! b = Some step
    ∧ fpos step = true
    ∧ (∀ a, a ∈ Spec.ratios r dr → fle step a = true)
    ∧ (fle F1 step = true ∨ step ∈ Spec.ratios r dr)
    ∧ fpos (tmin2 step F1) = true
    ∧ fle (tmin2 step F1) F1 = true
    ∧ (Spec.ratios r dr = [] → tmin2 step F1 = F1).
Proof.
  intros Hall Hr Hdr.
  rewrite (get_step_lookup _ _ _ _ _ Hr Hdr).
  destruct (py_max_one_fin _ (ratios_fin_all _ _ Hall)) as (qm & Hm & Hqm).
  rewrite Hm. clear Hm.
  assert (Hqm1 : (1 <= qm)%Q) by (destruct Hqm as [->|H]; lra).
  assert (Hrow : Forall2 ratio_ok r dr)
    by (exact (Forall2_lookup_lr _ _ _ _ _ _ Hall Hr Hdr)).
  assert (Hpm : finite_pos (Fin qm)) by (exists qm; split; [reflexivity | lra]).
  destruct (step_row (Fin qm) r dr Hpm Hrow) as (Hfin & Hsub & Hsup).
  destruct (tmin_finite_pos _ Hfin) as (Hpos & Hle & Hin).
  set (row := zip_with _ r dr) in *.
  assert (Hone : fle F1 (tmin row) = true ∨ tmin row ∈ Spec.ratios r dr).
  { destruct Hin as [E|Hin]; [rewrite E; now left|].
    destruct (Hsup _ Hin) as [E|Hr']; [|now right].
    left. rewrite E. now apply fle_fin. }
  exists (tmin row). split; [reflexivity|]. split; [exact Hpos|].
  split; [intros a Ha; apply Hle, Hsub, Ha|]. split; [exact Hone|].
  destruct (tmin row) as [q| | |] eqn:E; try discriminate Hpos.
  - unfold F1 in *. rewrite tmin2_fin.
    destruct (flt (Fin 1) (Fin q)) eqn:Hc.
    + split; [reflexivity|]. split; [reflexivity|]. reflexivity.
    + apply flt_fin_false in Hc. split; [exact Hpos|]. split; [now apply fle_fin|].
      intros Hnil. rewrite Hnil in *.
      destruct Hin as [Hnil'|Hin]; [rewrite Hnil' in E; discriminate|].
      destruct (Hsup _ Hin) as [E1|E1]; [|inversion E1].
      injection E1 as ->. destruct Hqm as [->|Hgt]; [reflexivity | lra].
  - split; [reflexivity|]. split; [reflexivity|]. reflexivity.
Qed.

Lemma get_step_ratio_test_witness :
  let v := [[F1; Fin 3]] in
  let dv := [[Fin (-2); Fin 4]] in
  Forall2 (Forall2 ratio_ok) v dv
  ∧ ∃ step, get_step v dv !! 0%nat = Some step
    ∧ fpos step = true
    ∧ (∀ a, a ∈ Spec.ratios [F1; Fin 3] [Fin (-2); Fin 4] → fle step a = true)
    ∧ (fle F1 step = true ∨ step ∈ Spec.ratios [F1; Fin 3] [Fin (-2); Fin 4])
    ∧ fpos (tmin2 step F1) = true
    ∧ fle (tmin2 step F1) F1 = true
    ∧ (Spec.ratios [F1; Fin 3] [Fin (-2); Fin 4] = [] → tmin2 step F1 = F1).
Proof.
  assert (H : Forall2 (Forall2 ratio_ok) [[F1; Fin 3]] [[Fin (-2); Fin 4]]).
  { repeat constructor.
    - exists 1%Q, (-2)%Q. repeat split; lra.
    - exists 3%Q, 4%Q. repeat split; lra. }
  split; [exact H|].
  exact (get_step_ratio_test _ _ 0 _ _ H eq_refl eq_refl).
Defined.

(** ** The pre-factorization *)

Lemma alloc_spec o w :
  ∃ l, alloc o w = (Ok l, World (<[l := o]> (heap w)) (shown_btrifact_warning w)
                              (factor_kkt_eye w) (stdout w))
       ∧ heap w !! l = None.
Proof.
  exists (fresh (dom (heap w))). split; [reflexivity|].
  apply not_elem_of_dom, is_fresh.
Qed.

(** C7, as stated, fails in its second half: with an equality block
    [A = (0)] the factorization of [Q = (1)] succeeds, and
    [pre_factor_kkt] still raises, from the factorization of
    [A Q^-1 A^T = (0)]. *)
Lemma pre_factor_kkt_raises_after_Q :
  ∃ qlu w1, btrifact_hack OneByOne.B [[[F1]]] OneByOne.empty_world = (Ok qlu, w1)
  ∧ ∃ msg w', pre_factor_kkt OneByOne.B [[[F1]]] [[[F1]]] (Some [[[F0]]])
                (Some [[[F0]]]) OneByOne.empty_world
              = (Raise (RuntimeError msg), w')
    ∧ msg ≠ Q_NOT_PSD.
Proof.
  eexists _, _. split; [reflexivity|].
  eexists _, _. split; [reflexivity|]. discriminate.
Qed.

(** C7, amended: when the factorization of [Q] fails, [pre_factor_kkt]
    raises the run-time error whose message names [Q] as not PSD, and
    returns nothing; when it succeeds, [F] is given and, for a problem
    with equality constraints, the factorization of [A Q^-1 A^T]
    succeeds as well, [pre_factor_kkt] returns references to [Q_LU],
    [S_LU] and [R], the first of which holds the factorization of [Q]. *)
Theorem pre_factor_kkt_outcome (B : backend) (Q G : bmat) (F A : option bmat)
    (nineq nz neq nBatch : nat) (w : world) :
  get_sizes G A = Ok (nineq, nz, neq, nBatch) →
  (∀ e w1, btrifact_hack B Q w = (Raise e, w1) →
     pre_factor_kkt B Q G F A w = (Raise (RuntimeError Q_NOT_PSD), w1))
  ∧ (∀ qlu w1 f,
       btrifact_hack B Q w = (Ok qlu, w1) →
       F = Some f →
       neq = 0%nat
       ∨ (∃ a lua w2, A = Some a
          ∧ btrifact_hack B (bmm neq a (btrisolve3 B (btranspose nz a) qlu)) w1
            = (Ok lua, w2)) →
       ∃ Q_LU S_LU R w',
         pre_factor_kkt B Q G F A w = (Ok (Q_LU, S_LU, R), w')
         ∧ heap w' !! Q_LU = Some (OLU qlu)
         ∧ (∃ s, heap w' !! S_LU = Some (OLU s))
         ∧ (∃ r, heap w' !! R = Some (OTensor r))).
Proof.
  intros Hsz. split.
  - intros e w1 Hq. unfold pre_factor_kkt, bind, lift, try_except.
    rewrite Hsz. cbv beta iota. rewrite Hq. reflexivity.
  - intros qlu w1 f Hq -> Hneq.
    assert (Halloc : ∀ sd sp r w2,
      ∃ Q_LU S_LU R w',
        bind (alloc (OLU qlu)) (λ lQ,
          bind (alloc (OLU (sd, sp))) (λ lS,
            bind (alloc (OTensor r)) (λ lR, ret (lQ, lS, lR)))) w2
        = (Ok (Q_LU, S_LU, R), w')
        ∧ heap w' !! Q_LU = Some (OLU qlu)
        ∧ (∃ s, heap w' !! S_LU = Some (OLU s))
        ∧ (∃ r, heap w' !! R = Some (OTensor r))).
    { intros sd sp r w2. unfold bind.
      destruct (alloc_spec (OLU qlu) w2) as (lQ & -> & HQ).
      match goal with |- context [alloc (OLU (sd, sp)) ?w] =>
        destruct (alloc_spec (OLU (sd, sp)) w) as (lS & -> & HS) end.
      match goal with |- context [alloc (OTensor r) ?w] =>
        destruct (alloc_spec (OTensor r) w) as (lR & -> & HR) end.
      cbn [heap] in *. eexists _, _, _, _. split; [reflexivity|]. cbn [heap].
      assert (lS ≠ lQ) by (intros ->; rewrite lookup_insert_eq in HS; discriminate).
      assert (lR ≠ lS) by (intros ->; rewrite lookup_insert_eq in HR; discriminate).
      assert (lR ≠ lQ).
      { intros ->. rewrite lookup_insert_ne, lookup_insert_eq in HR by done.
        discriminate. }
      split; [|split].
      - rewrite !lookup_insert_ne by done. apply lookup_insert_eq.
      - eexists. rewrite lookup_insert_ne by done. apply lookup_insert_eq.
      - eexists. apply lookup_insert_eq. }
    unfold pre_factor_kkt.
    unfold bind at 1. unfold lift at 1. rewrite Hsz. cbv beta iota.
    unfold bind at 1. unfold try_except. rewrite Hq.
    unfold bind at 1. cbn [the ret].
    destruct (decide (0 < neq)%nat) as [Hpos|Hzero].
    + destruct Hneq as [->|(a & lua & w2 & -> & Hlu)]; [lia|].
      unfold bind at 1. unfold bind at 1. cbn [the ret].
      unfold bind at 1. rewrite Hlu.
      destruct (btriunpack B lua.1 lua.2) as [[P L] U].
      unfold ret at 1. apply Halloc.
    + unfold bind at 1. unfold ret at 1. apply Halloc.
Qed.

Lemma pre_factor_kkt_outcome_witness :
  get_sizes [[[F1]]] None = Ok (1, 1, 0, 1)%nat
  ∧ pre_factor_kkt OneByOne.B [[[F0]]] [[[F1]]] (Some [[[F0]]]) None
      OneByOne.empty_world
    = (Raise (RuntimeError Q_NOT_PSD), OneByOne.empty_world)
  ∧ ∃ Q_LU S_LU R w',
      pre_factor_kkt OneByOne.B [[[F1]]] [[[F1]]] (Some [[[F0]]]) None
        OneByOne.empty_world
      = (Ok (Q_LU, S_LU, R), w')
      ∧ heap w' !! Q_LU = Some (OLU ([[[F1]]], [[1]]))
      ∧ (∃ s, heap w' !! S_LU = Some (OLU s))
      ∧ (∃ r, heap w' !! R = Some (OTensor r)).
Proof.
  split; [reflexivity|]. split.
  - exact (proj1 (pre_factor_kkt_outcome OneByOne.B [[[F0]]] [[[F1]]]
                    (Some [[[F0]]]) None 1 1 0 1 OneByOne.empty_world eq_refl)
             _ _ eq_refl).
  - exact (proj2 (pre_factor_kkt_outcome OneByOne.B [[[F1]]] [[[F1]]]
                    (Some [[[F0]]]) None 1 1 0 1 OneByOne.empty_world eq_refl)
             _ _ _ eq_refl eq_refl (or_introl eq_refl)).
Defined.

(** ** The completion of the factorization *)

Lemma btrifact_hack_heap B x w r w' :
  btrifact_hack B x w = (r, w') → heap w' = heap w.
Proof.
  unfold btrifact_hack.
  destruct (btrifact_pivot B (negb (is_cuda B)) x) as [f|[]]; unfold lift;
    try (intros [= <- <-]; reflexivity).
  unfold bind, get_shown. destruct (shown_btrifact_warning w); cbn.
  - intros [= <- <-]. reflexivity.
  - intros [= <- <-]. reflexivity.
Qed.

Lemma update_lu_spec l f x w :
  heap w !! l = Some (OLU x) →
  update_lu l f w
  = (Ok (), World (<[l := OLU (f x)]> (heap w)) (shown_btrifact_warning w)
                  (factor_kkt_eye w) (stdout w)).
Proof. intros H. unfold update_lu. now rewrite H. Qed.

Lemma size3_ne_size2 {A B} (e : list (list (list A))) (d : list (list B)) :
  size3 e ≠ size2 d.
Proof. discriminate. Qed.

Lemma length_last_n {A} n (l : list A) :
  (0 < n)%nat → length (last_n n l) = (n `min` length l)%nat.
Proof.
  intros H. unfold last_n. destruct (decide (n = 0%nat)); [lia|].
  rewrite length_drop. lia.
Qed.

Lemma but_last_n_app_last_n {A} n (l : list A) :
  (0 < n)%nat → but_last_n n l ++ last_n n l = l.
Proof.
  intros H. unfold but_last_n, last_n. destruct (decide (n = 0%nat)); [lia|].
  apply take_drop.
Qed.

(** Writing the last [n] rows of a matrix keeps the rows above them,
    also when a second such assignment follows. *)
Lemma on_last_n_prefix {A} n (f : list A → list A) (l : list A) :
  but_last_n n l `prefix_of` on_last_n n f l.
Proof. unfold on_last_n. now eexists. Qed.

Lemma but_last_n_on_last_n {A} n (f : list A → list A) (l : list A) :
  length (f (last_n n l)) = length (last_n n l) →
  but_last_n n (on_last_n n f l) = but_last_n n l.
Proof.
  intros Hf. destruct (decide (n = 0%nat)) as [->|Hn]; [reflexivity|].
  assert (Hlen : length (on_last_n n f l) = length l).
  { unfold on_last_n. rewrite length_app, Hf, <- length_app.
    rewrite but_last_n_app_last_n by lia. reflexivity. }
  unfold but_last_n at 1. destruct (decide (n = 0%nat)); [lia|].
  rewrite Hlen. unfold on_last_n, but_last_n.
  destruct (decide (n = 0%nat)); [lia|].
  rewrite take_app_le by (rewrite length_take; lia).
  rewrite take_take. f_equal. lia.
Qed.

Lemma on_last_n_twice_prefix {A} n (f g : list A → list A) (l : list A) :
  length (f (last_n n l)) = length (last_n n l) →
  but_last_n n l `prefix_of` on_last_n n g (on_last_n n f l).
Proof.
  intros Hf. rewrite <- (but_last_n_on_last_n n f l Hf).
  apply on_last_n_prefix.
Qed.

Lemma set_block22_lookup n (S V : bmat) b Sb' :
  set_block22 n S V !! b = Some Sb' →
  ∃ Sb Vb, S !! b = Some Sb ∧ V !! b = Some Vb
    ∧ Sb' = on_last_n n (λ rows, zip_with (λ row v, but_last_n n row ++ v) rows Vb) Sb.
Proof.
  unfold set_block22. intros H. apply lookup_zip_with_Some in H.
  destruct H as (Sb & Vb & -> & H1 & H2). eauto.
Qed.

Lemma set_block21_lookup n k (S V : bmat) b Sb' :
  set_block21 n k S V !! b = Some Sb' →
  ∃ Sb Vb, S !! b = Some Sb ∧ V !! b = Some Vb
    ∧ Sb' = on_last_n n (λ rows, zip_with (λ row v, v ++ drop k row) rows Vb) Sb.
Proof.
  unfold set_block21. intros H. apply lookup_zip_with_Some in H.
  destruct H as (Sb & Vb & -> & H1 & H2). eauto.
Qed.

Lemma bmm_transpose_rows c n (P X : bmat) b Vb :
  bmm c (btranspose n P) X !! b = Some Vb → length Vb = n.
Proof.
  unfold bmm, btranspose. intros H. apply lookup_zip_with_Some in H.
  destruct H as (Pb & Xb & -> & H1 & H2).
  rewrite map_is_fmap, list_lookup_fmap in H1.
  destruct (P !! b) as [Pb'|]; [|discriminate]. injection H1 as <-.
  unfold matmul, transpose. now rewrite !length_map, length_seq.
Qed.

(** What [factor_kkt] writes to the heap: only [S_LU], nothing when it
    raises, and of [S_LU] neither the rows above the last [nineq] nor
    the pivots before the last [nineq]. *)
Lemma factor_kkt_heap_rows (B : backend) (S_LU R : loc) (d : bvec)
    (w w' : world) (r : result ()) :
  factor_kkt B S_LU R d w = (r, w') →
  let nineq := length (hd [] d) in
  (∀ l, l ≠ S_LU → heap w' !! l = heap w !! l)
  ∧ match r with
    | Raise _ => heap w' = heap w
    | Ok _ =>
        ∃ S S' rt T_LU wa wb,
          heap w !! S_LU = Some (OLU S)
          ∧ heap w' !! S_LU = Some (OLU S')
          ∧ heap w !! R = Some (OTensor rt)
          ∧ heap w' !! R = Some (OTensor rt)
          ∧ btrifact_hack B
              (masked_add rt (batched_eye (length d) nineq) (map (map (fdiv F1)) d))
              wa
            = (Ok T_LU, wb)
          ∧ (∃ S1, S'.1 = set_block22 nineq S1 T_LU.1)
          ∧ (∀ b Sb Sb', S.1 !! b = Some Sb → S'.1 !! b = Some Sb' →
               but_last_n nineq Sb `prefix_of` Sb')
          ∧ (∀ b p p', S.2 !! b = Some p → S'.2 !! b = Some p' →
               but_last_n nineq p `prefix_of` p')
    end.
Proof.
  intros H nineq. unfold factor_kkt in H. fold nineq in H.
  unfold bind at 1 in H. unfold read_lu at 1 in H.
  pose proof (eq_refl (heap w !! S_LU)) as HS.
  set (o := heap w !! S_LU) in H, HS at 2. clearbody o.
  destruct o as [[S|t]|];
    try (injection H as <- <-; split; [reflexivity | reflexivity]).
  unfold bind at 1 in H. unfold get_eye at 1 in H.
  set (w1 := World (heap w) (shown_btrifact_warning w)
                   (Some (batched_eye (length d) nineq)) (stdout w)).
  assert (Hmask : ∀ (k : list (list (list bool)) → M ()),
    bind match factor_kkt_eye w with
         | Some e =>
             if decide (size3 e ≠ size2 d)
             then bind (set_eye (batched_eye (length d) nineq))
                       (λ _, ret (batched_eye (length d) nineq))
             else ret e
         | None => bind (set_eye (batched_eye (length d) nineq))
                        (λ _, ret (batched_eye (length d) nineq))
         end k w = k (batched_eye (length d) nineq) w1).
  { intros k. destruct (factor_kkt_eye w) as [e|]; [|reflexivity].
    destruct (decide (size3 e ≠ size2 d)) as [_|E]; [reflexivity|].
    exfalso. apply E. discriminate. }
  rewrite Hmask in H. clear Hmask.
  unfold bind at 1 in H. unfold read_tensor at 1 in H.
  change (heap w1) with (heap w) in H.
  pose proof (eq_refl (heap w !! R)) as HR.
  set (o := heap w !! R) in H, HR at 2. clearbody o.
  destruct o as [[f|rt]|];
    try (injection H as <- <-; split; [reflexivity | reflexivity]).
  unfold bind at 1 in H.
  destruct (btrifact_hack B _ w1) as [[T_LU|e] w2] eqn:HT.
  2:{ injection H as <- <-. apply btrifact_hack_heap in HT.
      split; [intros; now rewrite HT | exact HT]. }
  assert (Hw2 : heap w2 = heap w) by (apply btrifact_hack_heap in HT; exact HT).
  assert (HRS : R ≠ S_LU) by (intros ->; rewrite HS in HR; discriminate).
  unfold bind at 1 in H. unfold get_shown at 1 in H.
  set (neq := (length (hd [] S.2) - nineq)%nat) in *.
  assert (Hfinal : ∀ wx S1,
    heap wx = <[S_LU := OLU S1]> (heap w) →
    (∀ b Sb S1b, S.1 !! b = Some Sb → S1.1 !! b = Some S1b →
       S1b = Sb ∨ ∃ Vb, length Vb = nineq
         ∧ S1b = on_last_n nineq
                   (λ rows, zip_with (λ row v, v ++ drop neq row) rows Vb) Sb) →
    (∀ b p p', S.2 !! b = Some p → S1.2 !! b = Some p' →
       but_last_n nineq p `prefix_of` p') →
    update_lu S_LU (λ S, (set_block22 nineq S.1 T_LU.1, S.2)) wx = (r, w') →
    (∀ l : loc, l ≠ S_LU → heap w' !! l = heap w !! l)
    ∧ match r with
      | Ok _ =>
          ∃ S S' rt T_LU wa wb,
            heap w !! S_LU = Some (OLU S)
            ∧ heap w' !! S_LU = Some (OLU S')
            ∧ heap w !! R = Some (OTensor rt)
            ∧ heap w' !! R = Some (OTensor rt)
            ∧ btrifact_hack B
                (masked_add rt (batched_eye (length d) nineq)
                   (map (map (fdiv F1)) d)) wa = (Ok T_LU, wb)
            ∧ (∃ S1, S'.1 = set_block22 nineq S1 T_LU.1)
            ∧ (∀ b Sb Sb', S.1 !! b = Some Sb → S'.1 !! b = Some Sb' →
                 but_last_n nineq Sb `prefix_of` Sb')
            ∧ (∀ b p p', S.2 !! b = Some p → S'.2 !! b = Some p' →
                 but_last_n nineq p `prefix_of` p')
      | Raise _ => heap w' = heap w
      end).
  { intros wx S1 Hwx Hrows Hpiv Hup.
    rewrite (update_lu_spec _ _ S1) in Hup
      by (rewrite Hwx; apply lookup_insert_eq).
    injection Hup as <- <-. cbn [heap]. rewrite Hwx. split.
    - intros l Hl. now rewrite !lookup_insert_ne by done.
    - exists S, (set_block22 nineq S1.1 T_LU.1, S1.2), rt, T_LU, w1, w2.
      split; [exact HS|]. split; [apply lookup_insert_eq|].
      split; [exact HR|].
      split; [rewrite !lookup_insert_ne by done; exact HR|].
      split; [exact HT|]. split; [now eexists|]. split; [|exact Hpiv].
      cbn [fst]. intros b Sb Sb' HSb HSb'.
      apply set_block22_lookup in HSb'.
      destruct HSb' as (S1b & Vb & H1 & H2 & ->).
      destruct (Hrows _ _ _ HSb H1) as [->|(Wb & HW & ->)];
        [apply on_last_n_prefix|].
      destruct (decide (nineq = 0%nat)) as [E|E].
      + rewrite E. unfold but_last_n at 1. cbn. apply prefix_nil.
      + apply on_last_n_twice_prefix.
        rewrite length_zip_with, HW, length_last_n by lia. lia. }
  destruct (shown_btrifact_warning w2 || negb (is_cuda B)).
  - unfold bind at 1 in H. unfold bind at 1 in H.
    destruct (decide (0 < neq)%nat) as [Hneq|Hneq].
    + rewrite (update_lu_spec _ _ S) in H by (rewrite Hw2; exact HS).
      rewrite (update_lu_spec _ _ _) in H by (cbn [heap]; apply lookup_insert_eq).
      eapply Hfinal; [| | |exact H].
      * cbn [heap]. rewrite Hw2. now rewrite !insert_insert_eq.
      * cbn [fst]. intros b Sb S1b HSb HS1b. right.
        apply set_block21_lookup in HS1b.
        destruct HS1b as (Sb0 & Vb & H1 & H2 & ->).
        rewrite HSb in H1. injection H1 as <-.
        exists Vb. split; [|reflexivity].
        eapply bmm_transpose_rows. exact H2.
      * cbn [snd]. intros b p p' Hp Hp'.
        apply lookup_zip_with_Some in Hp'.
        destruct Hp' as (p0 & nw & -> & H1 & H2).
        rewrite Hp in H1. injection H1 as <-. now eexists.
    + unfold ret at 1 in H.
      rewrite (update_lu_spec _ _ S) in H by (rewrite Hw2; exact HS).
      eapply Hfinal; [| | |exact H].
      * cbn [heap]. now rewrite Hw2.
      * cbn [fst]. intros b Sb S1b HSb HS1b. left. congruence.
      * cbn [snd]. intros b p p' Hp Hp'.
        apply lookup_zip_with_Some in Hp'.
        destruct Hp' as (p0 & nw & -> & H1 & H2).
        rewrite Hp in H1. injection H1 as <-. now eexists.
  - unfold bind at 1 in H. unfold ret at 1 in H.
    eapply (Hfinal w2 S); [| | |exact H].
    + rewrite Hw2. symmetry. now apply insert_id.
    + intros b Sb S1b HSb HS1b. left. congruence.
    + intros b p p' Hp Hp'. replace p' with p by congruence.
      destruct (decide (nineq = 0%nat)) as [E|E].
      * rewrite E. apply prefix_nil.
      * rewrite <- (but_last_n_app_last_n nineq p) at 2 by lia. now eexists.
Qed.

(** The object [factor_kkt] leaves at [S_LU] when it returns. *)
Lemma factor_kkt_outcome (B : backend) (S_LU R : loc) (d : bvec) (w w' : world) :
  factor_kkt B S_LU R d w = (Ok (), w') →
  let nineq := length (hd [] d) in
  let w1 := World (heap w) (shown_btrifact_warning w)
                  (Some (batched_eye (length d) nineq)) (stdout w) in
  ∃ S rt T_LU w2,
    heap w !! S_LU = Some (OLU S)
    ∧ heap w !! R = Some (OTensor rt)
    ∧ btrifact_hack B
        (masked_add rt (batched_eye (length d) nineq) (map (map (fdiv F1)) d)) w1
      = (Ok T_LU, w2)
    ∧ let neq := (length (hd [] S.2) - nineq)%nat in
      let repivot := shown_btrifact_warning w2 || negb (is_cuda B) in
      heap w' !! S_LU
      = Some (OLU
          (set_block22 nineq
             (if repivot && bool_decide (0 < neq)%nat
              then set_block21 nineq neq S.1
                     (bmm neq
                        (btranspose nineq (btriunpack_pivots B T_LU.1 T_LU.2))
                        (bmm neq
                           (btriunpack_pivots B T_LU.1
                              (map (λ row, map (λ k, k - Z.of_nat neq)
                                               (last_n nineq row)) S.2))
                           (get_block21 nineq neq S.1)))
              else S.1)
             T_LU.1,
           if repivot
           then zip_with (λ row new,
                   but_last_n nineq row ++ map (λ k, k + Z.of_nat neq) new)
                  S.2 T_LU.2
           else S.2)).
Proof.
  intros H nineq w1. unfold factor_kkt in H. fold nineq in H.
  unfold bind at 1 in H. unfold read_lu at 1 in H.
  pose proof (eq_refl (heap w !! S_LU)) as HS.
  set (o := heap w !! S_LU) in H, HS at 2. clearbody o.
  destruct o as [[S|t]|]; try discriminate H.
  unfold bind at 1 in H. unfold get_eye at 1 in H.
  assert (Hmask : ∀ (k : list (list (list bool)) → M ()),
    bind match factor_kkt_eye w with
         | Some e =>
             if decide (size3 e ≠ size2 d)
             then bind (set_eye (batched_eye (length d) nineq))
                       (λ _, ret (batched_eye (length d) nineq))
             else ret e
         | None => bind (set_eye (batched_eye (length d) nineq))
                        (λ _, ret (batched_eye (length d) nineq))
         end k w = k (batched_eye (length d) nineq) w1).
  { intros k. destruct (factor_kkt_eye w) as [e|]; [|reflexivity].
    destruct (decide (size3 e ≠ size2 d)) as [_|E]; [reflexivity|].
    exfalso. apply E. discriminate. }
  rewrite Hmask in H. clear Hmask.
  unfold bind at 1 in H. unfold read_tensor at 1 in H.
  change (heap w1) with (heap w) in H.
  pose proof (eq_refl (heap w !! R)) as HR.
  set (o := heap w !! R) in H, HR at 2. clearbody o.
  destruct o as [[f|rt]|]; try discriminate H.
  unfold bind at 1 in H.
  destruct (btrifact_hack B _ w1) as [[T_LU|e] w2] eqn:HT; [|discriminate H].
  assert (Hw2 : heap w2 = heap w) by (apply btrifact_hack_heap in HT; exact HT).
  unfold bind at 1 in H. unfold get_shown at 1 in H.
  exists S, rt, T_LU, w2. split; [exact HS|]. split; [exact HR|].
  split; [exact HT|]. cbv zeta.
  set (neq := (length (hd [] S.2) - nineq)%nat) in *.
  destruct (shown_btrifact_warning w2 || negb (is_cuda B)).
  - unfold bind at 1 in H. unfold bind at 1 in H.
    destruct (decide (0 < neq)%nat) as [Hneq|Hneq].
    + rewrite (bool_decide_eq_true_2 _ Hneq). cbn [andb].
      rewrite (update_lu_spec _ _ S) in H by (rewrite Hw2; exact HS).
      rewrite (update_lu_spec _ _ _) in H by (cbn [heap]; apply lookup_insert_eq).
      rewrite (update_lu_spec _ _ _) in H by (cbn [heap]; apply lookup_insert_eq).
      injection H as <-. cbn [heap]. now rewrite lookup_insert_eq.
    + rewrite (bool_decide_eq_false_2 _ Hneq). cbn [andb].
      unfold ret at 1 in H.
      rewrite (update_lu_spec _ _ S) in H by (rewrite Hw2; exact HS).
      rewrite (update_lu_spec _ _ _) in H by (cbn [heap]; apply lookup_insert_eq).
      injection H as <-. cbn [heap]. now rewrite lookup_insert_eq.
  - unfold bind at 1 in H. unfold ret at 1 in H. cbn [andb].
    rewrite (update_lu_spec _ _ S) in H by (rewrite Hw2; exact HS).
    injection H as <-. cbn [heap]. now rewrite lookup_insert_eq.
Qed.

(** The slice assignments on one matrix of [neq + nineq] rows and
    columns, with the blocks written out. *)
Lemma zip_with_Forall_ext {X Y W} (f g : X → Y → W) (P : X → Prop) l k :
  Forall P l → (∀ x y, P x → f x y = g x y) → zip_with f l k = zip_with g l k.
Proof.
  intros Hl Hfg. revert k.
  induction Hl as [|x l Hx Hl IH]; intros [|y k]; cbn [zip_with];
    try reflexivity.
  now rewrite (Hfg x y Hx), IH.
Qed.

Lemma Forall_zip_with_rows {X Y W} (f : X → Y → W) (P : X → Prop)
    (P2 : Y → Prop) (P3 : W → Prop) l k :
  Forall P l → Forall P2 k → (∀ x y, P x → P2 y → P3 (f x y)) →
  Forall P3 (zip_with f l k).
Proof.
  intros Hl. revert k.
  induction Hl as [|x l Hx Hl IH]; intros k Hk Hf; [constructor|].
  destruct Hk as [|y k Hy Hk]; cbn [zip_with]; constructor; auto.
Qed.

Lemma set_block22_one n k (X Tm : mat) :
  (0 < n)%nat → length X = (k + n)%nat →
  Forall (λ row, length row = (k + n)%nat) X →
  set_block22 n [X] [Tm]
  = [take k X ++ zip_with app (map (take k) (drop k X)) Tm].
Proof.
  intros Hn HX Hrows. unfold set_block22, on_last_n, but_last_n, last_n.
  cbn [zip_with]. destruct (decide (n = 0%nat)); [lia|].
  replace (length X - n)%nat with k by lia. f_equal. f_equal.
  rewrite map_is_fmap, zip_with_fmap_l.
  apply (zip_with_Forall_ext _ _ (λ row, length row = (k + n)%nat)).
  - now apply Forall_drop.
  - intros row v Hr. rewrite Hr.
    now replace (k + n - n)%nat with k by lia.
Qed.

Lemma set_block21_one n k (X V : mat) :
  (0 < n)%nat → length X = (k + n)%nat →
  set_block21 n k [X] [V]
  = [take k X ++ zip_with (λ row v, v ++ drop k row) (drop k X) V].
Proof.
  intros Hn HX. unfold set_block21, on_last_n, but_last_n, last_n.
  cbn [zip_with]. destruct (decide (n = 0%nat)); [lia|].
  now replace (length X - n)%nat with k by lia.
Qed.

Lemma map_take_zip_with k (l V : mat) :
  length l = length V → Forall (λ v, length v = k) V →
  map (take k) (zip_with (λ row v, v ++ drop k row) l V) = V.
Proof.
  intros Hlen HV. revert l Hlen.
  induction HV as [|v V Hv HV IH]; intros [|row l] Hlen; try discriminate;
    [reflexivity|].
  cbn [zip_with map]. rewrite take_app_length' by now symmetry.
  f_equal. apply IH. now injection Hlen.
Qed.

Lemma repivoted_block n k (Sm V Tm : mat) :
  (0 < n)%nat → length Sm = (k + n)%nat →
  Forall (λ row, length row = (k + n)%nat) Sm →
  length V = n → Forall (λ v, length v = k) V →
  set_block22 n (set_block21 n k [Sm] [V]) [Tm]
  = [take k Sm ++ zip_with app V Tm].
Proof.
  intros Hn HSm Hrows HV HVrows.
  rewrite set_block21_one by assumption.
  assert (Htake : length (take k Sm) = k) by (rewrite length_take; lia).
  assert (Hdrop : length (drop k Sm) = n) by (rewrite length_drop; lia).
  rewrite (set_block22_one n k).
  - rewrite take_app_length', drop_app_length' by now symmetry.
    rewrite map_take_zip_with; [reflexivity | lia | exact HVrows].
  - exact Hn.
  - rewrite length_app, length_zip_with, Htake, Hdrop, HV. lia.
  - apply Forall_app. split; [now apply Forall_take|].
    apply (Forall_zip_with_rows _ (λ row, length row = (k + n)%nat)
             (λ v, length v = k)).
    + now apply Forall_drop.
    + exact HVrows.
    + intros row v Hr Hv. rewrite length_app, length_drop, Hr, Hv. lia.
Qed.

Lemma matmul_shape c (a b0 : mat) :
  length (matmul c a b0) = length a
  ∧ Forall (λ v, length v = c) (matmul c a b0).
Proof.
  unfold matmul. split; [apply length_map|].
  apply Forall_forall. intros v Hv. apply list_elem_of_In, in_map_iff in Hv.
  destruct Hv as (row & <- & _). now rewrite length_map, length_seq.
Qed.

(** The assignment [T[mask] += v] under the mask of the identity adds
    [v] to the diagonal. *)
Lemma masked_add_one n (Rm : mat) (v : vec) :
  length Rm = n → Forall (λ row, length row = n) Rm → length v = n →
  masked_add [Rm] (batched_eye 1 n) [v] = [Spec.add_diag Rm v].
Proof.
  intros HRm Hrows Hv.
  change (masked_add [Rm] (batched_eye 1 n) [v])
    with [zip_with (λ (rm : vec * list bool) x,
                      zip_with (λ t (m : bool), if m then fadd t x else t)
                               rm.1 rm.2)
                   (zip Rm (map (λ i, map (λ j, bool_decide (i = j)) (seq 0 n))
                                (seq 0 n))) v].
  unfold Spec.add_diag. f_equal.
  apply list_eq. intros i.
  rewrite lookup_zip_with, list_lookup_imap.
  destruct (Rm !! i) as [row|] eqn:Hrow.
  - assert (Hi : (i < n)%nat) by (rewrite <- HRm; eapply lookup_lt_Some; eauto).
    assert (Hlen : length row = n).
    { eapply Forall_forall in Hrows; [exact Hrows|].
      eapply list_elem_of_lookup_2. exact Hrow. }
    destruct (lookup_lt_is_Some_2 v i) as [x Hx]; [lia|].
    rewrite (nth_lookup_Some _ _ F0 _ Hx).
    assert (Hz : zip Rm (map (λ i0, map (λ j, bool_decide (i0 = j)) (seq 0 n))
                             (seq 0 n)) !! i
                 = Some (row, map (λ j, bool_decide (i = j)) (seq 0 n))).
    { apply lookup_zip_Some. split; [exact Hrow|].
      rewrite map_is_fmap, list_lookup_fmap, lookup_seq_lt by exact Hi.
      reflexivity. }
    rewrite Hz, Hx. cbn [mbind option_bind fmap option_fmap option_map fst snd].
    f_equal. apply list_eq. intros j.
    rewrite lookup_zip_with, list_lookup_imap.
    destruct (row !! j) as [t|] eqn:Ht; [|reflexivity].
    assert (Hj : (j < n)%nat) by (rewrite <- Hlen; eapply lookup_lt_Some; eauto).
    rewrite map_is_fmap, list_lookup_fmap, lookup_seq_lt by exact Hj.
    reflexivity.
  - destruct (zip Rm _ !! i) as [[a m]|] eqn:E; [|reflexivity].
    apply lookup_zip_Some in E. destruct E as [E _]. congruence.
Qed.

(** C9: [factor_kkt] writes to the heap only at [S_LU]; every other
    object, the block [R] and the factorization [Q_LU] among them, is as
    before, and nothing at all is written when the call raises.  When it
    returns, the matrix [T] it has factored is the block [R] with [1/d]
    added where the mask of the identity, rebuilt at the call, selects;
    of every matrix of [S_LU] the rows above the last [nineq], which
    hold the factored equality block, and of every pivot row the entries
    before the last [nineq], are kept.  For a batch of one element, on
    which the right-hand side [(1. / d).squeeze()] has the shape of the
    selected entries, with [S_LU] of [neq + nineq] rows and columns and
    [R] of [nineq], the new object is given in full: [T] is
    [R + diag(1/d)]; the rows above the last [nineq] are the old ones;
    each of the last [nineq] rows is the row of the block to the left
    followed by the row of the packed factors of [T]; the block to the
    left is the old one, or, when pivots are in use and there are
    equality constraints, the old one permuted by the old and then by
    the transposed new permutation of the lower-right block; the pivots
    are the old ones, or, when pivots are in use, the first [neq] old
    ones followed by the new ones of [T] raised by [neq]. *)
Theorem factor_kkt_frame (B : backend) (S_LU R : loc) (d : bvec)
    (w w' : world) (r : result ()) :
  factor_kkt B S_LU R d w = (r, w') →
  let nineq := length (hd [] d) in
  (∀ l, l ≠ S_LU → heap w' !! l = heap w !! l)
  ∧ match r with
    | Raise _ => heap w' = heap w
    | Ok _ =>
        ∃ S S' rt T_LU wa wb,
          heap w !! S_LU = Some (OLU S)
          ∧ heap w' !! S_LU = Some (OLU S')
          ∧ heap w !! R = Some (OTensor rt)
          ∧ heap w' !! R = Some (OTensor rt)
          ∧ wa = World (heap w) (shown_btrifact_warning w)
                       (Some (batched_eye (length d) nineq)) (stdout w)
          ∧ btrifact_hack B
              (masked_add rt (batched_eye (length d) nineq) (map (map (fdiv F1)) d))
              wa
            = (Ok T_LU, wb)
          ∧ (∀ b Sb Sb', S.1 !! b = Some Sb → S'.1 !! b = Some Sb' →
               but_last_n nineq Sb `prefix_of` Sb')
          ∧ (∀ b p p', S.2 !! b = Some p → S'.2 !! b = Some p' →
               but_last_n nineq p `prefix_of` p')
          ∧ ∀ drow Sm piv Rm Tm tp,
              d = [drow] → S = ([Sm], [piv]) → rt = [Rm] →
              T_LU = ([Tm], [tp]) →
              (0 < nineq)%nat →
              let neq := (length piv - nineq)%nat in
              length Sm = (neq + nineq)%nat →
              Forall (λ row, length row = (neq + nineq)%nat) Sm →
              length Rm = nineq → Forall (λ row, length row = nineq) Rm →
              let repivot := shown_btrifact_warning wb || negb (is_cuda B) in
              let S21 := map (take neq) (drop neq Sm) in
              masked_add rt (batched_eye (length d) nineq) (map (map (fdiv F1)) d)
              = [Spec.add_diag Rm (map (fdiv F1) drow)]
              ∧ (repivot && bool_decide (0 < neq)%nat = false →
                   S'.1 = [take neq Sm ++ zip_with app S21 Tm])
              ∧ (repivot = true → (0 < neq)%nat →
                   ∀ Pn Po,
                     btriunpack_pivots B [Tm] [tp] = [Pn] →
                     btriunpack_pivots B [Tm]
                       [map (λ k, k - Z.of_nat neq) (drop neq piv)] = [Po] →
                     S'.1 = [take neq Sm
                             ++ zip_with app
                                  (matmul neq (transpose nineq Pn)
                                          (matmul neq Po S21))
                                  Tm])
              ∧ S'.2 = [if repivot
                        then take neq piv ++ map (λ k, k + Z.of_nat neq) tp
                        else piv]
    end.
Proof.
  intros H nineq.
  destruct (factor_kkt_heap_rows B S_LU R d w w' r H) as [Hframe Hr].
  split; [exact Hframe|].
  destruct r as [[]|e]; [|exact Hr].
  destruct Hr as (S0 & S0' & rt0 & T0 & wa0 & wb0 & HS0 & HS0' & HR0 & HR0'
                  & _ & _ & Hrows & Hpiv).
  destruct (factor_kkt_outcome B S_LU R d w w' H)
    as (S & rt & T_LU & w2 & HS & HR & HT & HS').
  cbv zeta in HS'. fold nineq in HT, HS'.
  rewrite HS in HS0. injection HS0 as <-.
  rewrite HR in HR0. injection HR0 as <-.
  rewrite HS' in HS0'. injection HS0' as <-.
  eexists S, _, rt, T_LU, _, w2.
  split; [exact HS|]. split; [exact HS'|]. split; [exact HR|].
  split; [exact HR0'|]. split; [reflexivity|]. split; [exact HT|].
  split; [exact Hrows|]. split; [exact Hpiv|].
  clear Hrows Hpiv Hframe HS' HT HS HR HR0' H.
  intros drow Sm piv Rm Tm tp -> -> -> -> Hn neq HSm Hrows HRm HRrows
         repivot S21.
  cbn [fst snd hd length] in *. fold neq. fold repivot.
  split.
  { cbn [map]. apply masked_add_one; [exact HRm | exact HRrows|].
    apply length_map. }
  split.
  { intros ->. now apply set_block22_one. }
  split.
  { intros -> Hneq Pn Po HPn HPo.
    rewrite (bool_decide_eq_true_2 _ Hneq). cbn [andb map].
    assert (Hlast : last_n nineq piv = drop neq piv).
    { unfold last_n. destruct (decide (nineq = 0%nat)); [lia|reflexivity]. }
    rewrite Hlast, HPn, HPo.
    assert (HS21 : get_block21 nineq neq [Sm] = [S21]).
    { unfold get_block21, last_n. cbn [map].
      destruct (decide (nineq = 0%nat)); [lia|].
      now replace (length Sm - nineq)%nat with neq by lia. }
    rewrite HS21. unfold bmm, btranspose. cbn [map zip_with].
    apply repivoted_block; try assumption.
    - rewrite (proj1 (matmul_shape _ _ _)). unfold transpose.
      now rewrite length_map, length_seq.
    - apply matmul_shape. }
  destruct repivot; [|reflexivity].
  cbn [zip_with]. unfold but_last_n.
  destruct (decide (nineq = 0%nat)); [lia|reflexivity].
Qed.

Lemma factor_kkt_frame_witness :
  let w := World (<[2%positive := OLU ([[[Fin 2; Fin 3]; [Fin 5; F0]]], [[1; 2]])]>
                   (<[3%positive := OTensor [[[F1]]]]> ∅)) false None [] in
  let out := factor_kkt OneByOne.B 2%positive 3%positive [[Fin 2]] w in
  out.1 = Ok ()
  ∧ heap out.2 !! 3%positive = heap w !! 3%positive
  ∧ heap out.2 !! 2%positive
    = Some (OLU ([[[Fin 2; Fin 3]; [Fin 5; Fin (3 # 2)]]], [[1; 2]])).
Proof.
  intros w out.
  assert (Hout : out = (Ok (), out.2)) by run.
  destruct (factor_kkt_frame OneByOne.B 2%positive 3%positive [[Fin 2]]
              w out.2 (Ok ()) Hout)
    as [Hframe (S & S' & rt & T_LU & wa & wb & HS & HS' & HR & _ & -> & HT
                & _ & _ & Hexact)].
  split; [reflexivity|].
  split; [apply Hframe; discriminate|].
  assert (ES : S = ([[[Fin 2; Fin 3]; [Fin 5; F0]]], [[1; 2]])).
  { vm_compute in HS. now injection HS. }
  assert (ER : rt = [[[F1]]]).
  { vm_compute in HR. now injection HR. }
  subst S rt.
  assert (ET : T_LU = ([[[Fin (3 # 2)]]], [[1]]) ∧ wb.(shown_btrifact_warning) = false).
  { vm_compute in HT. injection HT as <- <-. now split. }
  destruct ET as [-> Hshown].
  destruct (Hexact [Fin 2] [[Fin 2; Fin 3]; [Fin 5; F0]] [1; 2] [[F1]]
              [[Fin (3 # 2)]] [1] eq_refl eq_refl eq_refl eq_refl)
    as (_ & _ & Hrep & Hpivots);
    [cbn; lia | reflexivity | repeat constructor | reflexivity
     | repeat constructor |].
  refine (eq_trans HS' _). f_equal. f_equal.
  rewrite (surjective_pairing S'). f_equal.
  - rewrite (Hrep (orb_true_r _) ltac:(cbn; lia) [[F1]] [[F1]] eq_refl eq_refl).
    run.
  - rewrite Hpivots, Hshown. reflexivity.
Defined.

Lemma last_n_app {A} n (l k : list A) :
  (0 < n)%nat → length k = n → last_n n (l ++ k) = k.
Proof.
  intros Hn Hk. unfold last_n. destruct (decide (n = 0%nat)); [lia|].
  rewrite length_app, Hk.
  replace (length l + n - n)%nat with (length l) by lia.
  apply drop_app_length.
Qed.

(** The reading of the assignment [S[:, -n:, -n:] = V]: afterwards the
    last [n] columns of the last [n] rows are the rows of [V]. *)
Lemma set_block22_lower_right n (S V : bmat) b Sb Vb :
  (0 < n)%nat →
  S !! b = Some Sb → V !! b = Some Vb →
  (n ≤ length Sb)%nat → length Vb = n → Forall (λ v, length v = n) Vb →
  ∃ Sb', set_block22 n S V !! b = Some Sb'
    ∧ map (last_n n) (last_n n Sb') = Vb.
Proof.
  intros Hn HS HV Hrows Hlen Hcols.
  eexists. split.
  { unfold set_block22. rewrite lookup_zip_with, HS, HV. reflexivity. }
  unfold on_last_n. rewrite last_n_app; [| exact Hn |].
  - assert (Hl : length (last_n n Sb) = length Vb)
      by (rewrite length_last_n by lia; lia).
    revert Hl Hcols. generalize (last_n n Sb). clear -Hn.
    induction Vb as [|v Vb IH]; intros [|row rows] Hl Hcols; try discriminate;
      [reflexivity|].
    inversion_clear Hcols as [|? ? Hv Hrest]. cbn [zip_with map]. f_equal.
    + now apply last_n_app.
    + apply IH; [now injection Hl | exact Hrest].
  - rewrite length_zip_with, length_last_n by lia. lia.
Qed.

(** ** The iteration controller *)

(** The cube of the source, [x ** 3], is the third power. *)
Lemma fcube_cube (r : fval) : fcube r = Spec.cube r.
Proof.
  destruct r as [q| | |]; try reflexivity.
  unfold fcube. cbn [fmul Spec.cube]. f_equal. apply Qred_complete.
  rewrite Qred_correct. unfold Qpower, Qpower_positive, pow_pos.
  cbn [Pos.iter_op]. ring.
Qed.

(** On rational data the three formulas are those of the rationals. *)
Lemma tmin2_Qmin (x y : Q) :
  ∃ q, tmin2 (Fin x) (Fin y) = Fin q ∧ (q == Qmin x y)%Q.
Proof.
  unfold tmin2, flt. destruct (y ?= x)%Q eqn:E.
  - exists x. split; [reflexivity|]. symmetry. apply Q.min_l.
    apply Qeq_alt in E. rewrite E. apply Qle_refl.
  - exists y. split; [reflexivity|]. symmetry. apply Q.min_r.
    apply Qlt_alt in E. now apply Qlt_le_weak.
  - exists x. split; [reflexivity|]. symmetry. apply Q.min_l.
    apply Qgt_alt in E. now apply Qlt_le_weak.
Qed.

Lemma alpha_numeric (gz gs : Q) :
  ∃ q, Spec.alpha (Fin gz) (Fin gs) = Fin q ∧ (q == Spec.alpha_Q gz gs)%Q.
Proof.
  unfold Spec.alpha, Spec.alpha_Q, F1.
  destruct (tmin2_Qmin gz gs) as (q1 & -> & H1).
  destruct (tmin2_Qmin q1 1) as (q2 & -> & H2).
  exists q2. split; [reflexivity|]. now rewrite H2, H1.
Qed.

Lemma scaled_sum_fin (qa : Q) (u d : list Q) :
  vmap2 fadd (Fin <$> u) (fmul (Fin qa) <$> (Fin <$> d))
  = Fin <$> zip_with (λ x y, Qred (x + Qred (qa * y))) u d.
Proof.
  unfold vmap2. revert d.
  induction u as [|x u IH]; intros [|y d]; cbn [fmap list_fmap zip_with];
    try reflexivity.
  cbn [fmul fadd]. f_equal. apply IH.
Qed.

Lemma scaled_sum_Qeq (qa : Q) (u d : list Q) :
  Forall2 Qeq (zip_with (λ x y, Qred (x + Qred (qa * y))) u d)
              (zip_with (λ x y, x + qa * y)%Q u d).
Proof.
  revert d. induction u as [|x u IH]; intros [|y d]; cbn [zip_with];
    try constructor; [|apply IH].
  now rewrite !Qred_correct.
Qed.

Lemma Qdot_Qeq (u u' v v' : list Q) :
  Forall2 Qeq u u' → Forall2 Qeq v v' → (Spec.Qdot u v == Spec.Qdot u' v')%Q.
Proof.
  intros Hu. revert v v'.
  induction Hu as [|x x' u u' Hx Hu IH]; intros v v' Hv; [reflexivity|].
  destruct Hv as [|y y' v v' Hy Hv]; [reflexivity|].
  unfold Spec.Qdot in *. cbn [zip_with fold_right].
  now rewrite Hx, Hy, (IH v v' Hv).
Qed.

Lemma foldl_products_fin (a : Q) (u v : list Q) :
  ∃ q, foldl fadd (Fin a) (zip_with fmul (Fin <$> u) (Fin <$> v)) = Fin q
    ∧ (q == a + Spec.Qdot u v)%Q.
Proof.
  revert a v.
  induction u as [|x u IH]; intros a [|y v];
    cbn [fmap list_fmap zip_with foldl];
    try (exists a; split; [reflexivity|unfold Spec.Qdot; cbn; ring]).
  cbn [fmul fadd].
  destruct (IH (Qred (a + Qred (x * y))) v) as (q & -> & Hq).
  exists q. split; [reflexivity|]. rewrite Hq, !Qred_correct.
  unfold Spec.Qdot. cbn [zip_with fold_right]. ring.
Qed.

Lemma dot_fin (u v : list Q) :
  ∃ q, dot (Fin <$> u) (Fin <$> v) = Fin q ∧ (q == Spec.Qdot u v)%Q.
Proof.
  destruct (foldl_products_fin 0 u v) as (q & Hq & Hv).
  exists q. split; [exact Hq|]. rewrite Hv. ring.
Qed.

Lemma sigma_numeric (qa : Q) (qs qz qds qdz : list Q) :
  ¬ (Spec.Qdot qs qz == 0)%Q →
  Spec.sigma (Fin qa) (Fin <$> qs) (Fin <$> qz) (Fin <$> qds) (Fin <$> qdz)
  = Fin (Qred (Spec.sigma_Q qa qs qz qds qdz)).
Proof.
  intros Hnz. unfold Spec.sigma. rewrite !scaled_sum_fin.
  destruct (dot_fin (zip_with (λ x y, Qred (x + Qred (qa * y))) qs qds)
                    (zip_with (λ x y, Qred (x + Qred (qa * y))) qz qdz))
    as (n & -> & Hn).
  destruct (dot_fin qs qz) as (dn & -> & Hd).
  cbn [fdiv]. destruct (sign_of_nonzero dn) as [sg ->];
    [now rewrite Hd|].
  cbn [Spec.cube]. f_equal. apply Qred_complete.
  rewrite !Qred_correct. unfold Spec.sigma_Q. rewrite Hn, Hd.
  now rewrite (Qdot_Qeq _ _ _ _ (scaled_sum_Qeq qa qs qds)
                 (scaled_sum_Qeq qa qz qdz)).
Qed.

Lemma corrector_rs_numeric (m sg x y v : Q) :
  ¬ (x == 0)%Q →
  Spec.corrector_rs (Fin m) (Fin sg) (Fin x) (Fin y) (Fin v)
  = Fin (Qred (Spec.corrector_rs_Q m sg x y v)).
Proof.
  intros Hx. unfold Spec.corrector_rs. cbn [fneg fmul fadd fdiv].
  destruct (sign_of_nonzero x Hx) as [p ->].
  f_equal. apply Qred_complete.
  unfold Spec.corrector_rs_Q. now rewrite !Qred_correct.
Qed.

Section ForwardProperties.

Context (B : backend).
Context (alt_kkt : KKTSolvers → bmat → bmat → option bmat → option bmat →
                   fval → bvec → bvec → bvec → bvec → option bvec → M dirs).
Context (Q : bmat) (p : bvec) (G : bmat) (h : bvec)
        (A : option bmat) (b : option bvec) (F : option bmat)
        (Q_LU S_LU R : loc)
        (eps : fval) (verbose notImprovedLim : Z) (solver : KKTSolvers)
        (nineq nz neq nBatch : nat).

Local Abbreviation run_loop :=
  (loop B alt_kkt Q p G h A b F Q_LU S_LU R eps verbose notImprovedLim solver
        nineq nz neq nBatch).
Local Abbreviation run_residuals := (compute_residuals B Q p G h A b F nineq nz neq nBatch).
Local Abbreviation run_direction := (direction B alt_kkt Q G A F Q_LU S_LU eps solver).
Local Abbreviation run_advance :=
  (advance B alt_kkt Q G A F Q_LU S_LU eps solver nineq nz neq nBatch).

(** The reweighting of line 197 *)
Local Abbreviation reweighting cur := (bmap2 fdiv (it_z cur) (it_s cur)).

(** One iteration of the loop, as the source orders it. *)
Lemma loop_unfold n i cur best k :
  run_loop (S n) i cur best k
  = bind (run_residuals cur) (λ res,
      bind (if decide (solver = LU_PARTIAL) then
              try_except (bind (factor_kkt B S_LU R (reweighting cur)) (λ _, ret true))
                         (ret false)
            else ret true) (λ factored,
        if negb factored then ret (best_answer best)
        else
          bind (if decide (verbose = 1) then
                  print (PrintIter i (tmean (r_pri res)) (tmean (r_dual res))
                                     (tmean (r_mu res)))
                else ret ()) (λ _,
            bind (track_best neq (r_resids res) cur best k) (λ '(bst, k'),
              if should_stop k' notImprovedLim bst eps (r_mu res)
              then warn_and_return bst verbose
              else
                bind (run_direction (reweighting cur) (r_x res) (r_s res)
                                    (r_z res) (r_y res)) (λ aff,
                  bind (run_advance cur (reweighting cur) (r_mu res) aff) (λ next,
                    run_loop n (S i) next (Some bst) k')))))).
Proof. reflexivity. Qed.

(** In-loop failure of the factorization under the partial strategy. *)
Lemma loop_factorization_fails n i cur best k w res w1 e w2 :
  solver = LU_PARTIAL →
  run_residuals cur w = (Ok res, w1) →
  factor_kkt B S_LU R (reweighting cur) w1 = (Raise e, w2) →
  run_loop (S n) i cur best k w = (Ok (best_answer best), w2).
Proof.
  intros Hs Hres Hf. rewrite loop_unfold. unfold bind at 1. rewrite Hres.
  unfold bind at 1. destruct (decide (solver = LU_PARTIAL)); [|contradiction].
  unfold try_except, bind at 1. rewrite Hf. reflexivity.
Qed.

(** What [forward] does once the first solve has returned and the two
    shifts of lines 167-173 have been done: the loop. *)
Lemma forward_reaches_loop (maxIter : Z) (w w1 : world) (init : iterate)
    (s z : bvec) :
  get_sizes G A = Ok (nineq, nz, neq, nBatch) →
  initial_iterate B alt_kkt Q p G h A b F Q_LU S_LU R eps solver nineq neq nBatch w
  = (Ok init, w1) →
  shift_positive nineq (it_s init) = Ok s →
  shift_positive nineq (it_z init) = Ok z →
  forward B alt_kkt Q p G h A b F Q_LU S_LU R eps verbose notImprovedLim
          maxIter solver w
  = run_loop (Z.to_nat maxIter) 0 (Iterate (it_x init) s z (it_y init)) None 0 w1.
Proof.
  intros Hsz Hinit Hss Hsh.
  unfold forward. unfold bind at 1. unfold lift at 1. rewrite Hsz. cbv beta iota.
  unfold bind at 1. rewrite Hinit.
  unfold bind at 1. unfold lift at 1. rewrite Hss.
  unfold bind at 1. unfold lift at 1. rewrite Hsh. reflexivity.
Qed.

(** When a shift fails, which it does on every batch of more than one
    element, [forward] raises [IndexError] and no iteration is run. *)
Lemma forward_shift_fails (maxIter : Z) (w w1 : world) (init : iterate) :
  get_sizes G A = Ok (nineq, nz, neq, nBatch) →
  initial_iterate B alt_kkt Q p G h A b F Q_LU S_LU R eps solver nineq neq nBatch w
  = (Ok init, w1) →
  shift_positive nineq (it_s init) = Raise IndexError
  ∨ shift_positive nineq (it_z init) = Raise IndexError →
  forward B alt_kkt Q p G h A b F Q_LU S_LU R eps verbose notImprovedLim
          maxIter solver w
  = (Raise IndexError, w1).
Proof.
  intros Hsz Hinit Hfail.
  unfold forward. unfold bind at 1. unfold lift at 1. rewrite Hsz. cbv beta iota.
  unfold bind at 1. rewrite Hinit.
  unfold bind at 1. unfold lift at 1.
  destruct (shift_positive nineq (it_s init)) as [s|e] eqn:Hss.
  - destruct Hfail as [Hfail|Hfail]; [discriminate Hfail|].
    unfold bind at 1. unfold lift at 1. rewrite Hfail. reflexivity.
  - destruct Hfail as [Hfail|Hfail]; [now injection Hfail as -> |].
    f_equal. f_equal.
    revert Hss. unfold shift_positive.
    destruct (it_s init) as [|row [|row' rest]]; try (now intros [= <-]).
    destruct (decide (length row = nineq)); [discriminate | now intros [= <-]].
Qed.

(** C10: under the partial strategy, once the first solve and the two
    shifts of lines 167-173 have succeeded, which the shifts do on a
    batch of one element only, a failure of the factorization of the
    very first iteration finds no best iterate recorded, and [forward]
    returns [(None, None, None, None)]. *)
Theorem forward_returns_none (maxIter : Z) (w w1 w2 w3 : world)
    (init : iterate) (s z : bvec) (res : residuals) (e : exn) :
  solver = LU_PARTIAL →
  (0 < maxIter)%Z →
  get_sizes G A = Ok (nineq, nz, neq, nBatch) →
  initial_iterate B alt_kkt Q p G h A b F Q_LU S_LU R eps solver nineq neq nBatch w
  = (Ok init, w1) →
  shift_positive nineq (it_s init) = Ok s →
  shift_positive nineq (it_z init) = Ok z →
  let first := Iterate (it_x init) s z (it_y init) in
  run_residuals first w1 = (Ok res, w2) →
  factor_kkt B S_LU R (reweighting first) w2 = (Raise e, w3) →
  forward B alt_kkt Q p G h A b F Q_LU S_LU R eps verbose notImprovedLim
          maxIter solver w
  = (Ok (None, None, None, None), w3).
Proof.
  intros Hs Hmax Hsz Hinit Hss Hsh first Hres Hf.
  rewrite (forward_reaches_loop maxIter w w1 init s z Hsz Hinit Hss Hsh).
  destruct (Z.to_nat maxIter) as [|n] eqn:Hn; [lia|].
  fold first. exact (loop_factorization_fails n 0 first None 0 _ _ _ _ _ Hs Hres Hf).
Qed.

(** C4, amended.  Under the partial strategy a failure of [factor_kkt]
    inside the loop makes [forward] return the best iterate tracked so
    far; a failure of the factorization before the first iteration is
    propagated to the caller, and so is, under any other strategy, an
    exception raised by the direction solve inside the loop. *)
Theorem factorization_failure_policy :
  (∀ n i cur best k w res w1 e w2,
     solver = LU_PARTIAL →
     run_residuals cur w = (Ok res, w1) →
     factor_kkt B S_LU R (reweighting cur) w1 = (Raise e, w2) →
     run_loop (S n) i cur best k w = (Ok (best_answer best), w2))
  ∧ (∀ maxIter w e w1,
       solver = LU_PARTIAL →
       get_sizes G A = Ok (nineq, nz, neq, nBatch) →
       factor_kkt B S_LU R (ones nBatch nineq) w = (Raise e, w1) →
       forward B alt_kkt Q p G h A b F Q_LU S_LU R eps verbose notImprovedLim
               maxIter solver w
       = (Raise e, w1))
  ∧ (∀ n i cur best k w res w1 w2 bst k' e w3,
       solver ≠ LU_PARTIAL →
       run_residuals cur w = (Ok res, w1) →
       (if decide (verbose = 1) then
          print (PrintIter i (tmean (r_pri res)) (tmean (r_dual res))
                             (tmean (r_mu res)))
        else ret ()) w1 = (Ok (), w2) →
       track_best neq (r_resids res) cur best k w2 = (Ok (bst, k'), w2) →
       should_stop k' notImprovedLim bst eps (r_mu res) = false →
       alt_kkt solver Q G A F eps (reweighting cur) (r_x res) (r_s res)
               (r_z res) (r_y res) w2 = (Raise e, w3) →
       run_loop (S n) i cur best k w = (Raise e, w3)).
Proof.
  split; [|split].
  - intros. eapply loop_factorization_fails; eassumption.
  - intros maxIter w e w1 Hs Hsz Hf.
    unfold forward. unfold bind at 1. unfold lift. rewrite Hsz. cbv beta iota.
    unfold bind at 1. unfold initial_iterate. unfold bind at 1.
    destruct (decide (solver = LU_PARTIAL)); [|contradiction].
    unfold bind at 1. rewrite Hf. reflexivity.
  - intros n i cur best k w res w1 w2 bst k' e w3 Hs Hres Hpr Htr Hstop Halt.
    rewrite loop_unfold. unfold bind at 1. rewrite Hres.
    unfold bind at 1. destruct (decide (solver = LU_PARTIAL)); [contradiction|].
    unfold ret at 1. cbn [negb]. unfold bind at 1. rewrite Hpr.
    unfold bind at 1. rewrite Htr. rewrite Hstop.
    unfold bind at 1. unfold direction.
    destruct (decide (solver = LU_PARTIAL)); [contradiction|].
    rewrite Halt. reflexivity.
Qed.

Lemma should_stop_spec k bst mu :
  should_stop k notImprovedLim bst eps mu = true
  ↔ Z.of_nat k = notImprovedLim
    ∨ flt (tmax (best_resids bst)) eps = true
    ∨ fgt (tmin mu) (Fin (inject_Z (10 ^ 100))) = true.
Proof.
  unfold should_stop. rewrite !orb_true_iff, bool_decide_eq_true. tauto.
Qed.

Lemma warn_and_return_spec bst w :
  ∃ w', warn_and_return bst verbose w = (Ok (best_answer (Some bst)), w')
    ∧ heap w' = heap w
    ∧ stdout w'
      = stdout w
        ++ (if fgt (tmax (best_resids bst)) F1 && bool_decide (0 ≤ verbose)
            then [PrintStr INACC_ERR; PrintVal (tmax (best_resids bst))]
            else []).
Proof.
  unfold warn_and_return, bind.
  destruct (fgt (tmax (best_resids bst)) F1 && bool_decide (0 ≤ verbose)).
  - eexists. split; [reflexivity|]. split; [reflexivity|].
    cbn [stdout]. now rewrite <- app_assoc.
  - eexists. split; [reflexivity|]. split; [reflexivity|].
    cbn [stdout]. now rewrite app_nil_r.
Qed.

(** An iteration whose factorization succeeded, from the termination
    check on. *)
Lemma loop_after_tracking n i cur best k w res w1 w2 w3 bst k' :
  run_residuals cur w = (Ok res, w1) →
  (if decide (solver = LU_PARTIAL)
   then factor_kkt B S_LU R (reweighting cur) w1 = (Ok (), w2)
   else w2 = w1) →
  (if decide (verbose = 1) then
     print (PrintIter i (tmean (r_pri res)) (tmean (r_dual res)) (tmean (r_mu res)))
   else ret ()) w2 = (Ok (), w3) →
  track_best neq (r_resids res) cur best k w3 = (Ok (bst, k'), w3) →
  run_loop (S n) i cur best k w
  = (if should_stop k' notImprovedLim bst eps (r_mu res)
     then warn_and_return bst verbose
     else bind (run_direction (reweighting cur) (r_x res) (r_s res) (r_z res)
                              (r_y res)) (λ aff,
            bind (run_advance cur (reweighting cur) (r_mu res) aff) (λ next,
              run_loop n (S i) next (Some bst) k'))) w3.
Proof.
  intros Hres Hf Hpr Htr.
  rewrite loop_unfold. unfold bind at 1. rewrite Hres. unfold bind at 1.
  destruct (decide (solver = LU_PARTIAL)).
  - unfold try_except, bind at 1. rewrite Hf. unfold ret at 1. cbn [negb].
    unfold bind at 1. rewrite Hpr. unfold bind at 1. rewrite Htr. reflexivity.
  - subst w2. unfold ret at 1. cbn [negb].
    unfold bind at 1. rewrite Hpr. unfold bind at 1. rewrite Htr. reflexivity.
Qed.

(** C3, amended.  In an iteration in which the factorization did not
    fail, once the best iterate is tracked and before any direction is
    computed, the loop returns the best iterate exactly when the stall
    counter equals [notImprovedLim], or the largest best residual is
    below [eps], or the smallest duality measure of the batch exceeds
    [1e100]; the warning is printed exactly when the largest best
    residual exceeds 1 and [verbose] is not negative.  Otherwise the
    iteration goes on with the affine direction. *)
Theorem termination_check n i cur best k w res w1 w2 w3 bst k' :
  run_residuals cur w = (Ok res, w1) →
  (if decide (solver = LU_PARTIAL)
   then factor_kkt B S_LU R (reweighting cur) w1 = (Ok (), w2)
   else w2 = w1) →
  (if decide (verbose = 1) then
     print (PrintIter i (tmean (r_pri res)) (tmean (r_dual res)) (tmean (r_mu res)))
   else ret ()) w2 = (Ok (), w3) →
  track_best neq (r_resids res) cur best k w3 = (Ok (bst, k'), w3) →
  let stop :=
    Z.of_nat k' = notImprovedLim
    ∨ flt (tmax (best_resids bst)) eps = true
    ∨ fgt (tmin (r_mu res)) (Fin (inject_Z (10 ^ 100))) = true in
  let warn := fgt (tmax (best_resids bst)) F1 = true ∧ (0 ≤ verbose)%Z in
  (stop →
     ∃ w4, run_loop (S n) i cur best k w = (Ok (best_answer (Some bst)), w4)
       ∧ heap w4 = heap w3
       ∧ (warn → stdout w4
                 = stdout w3 ++ [PrintStr INACC_ERR;
                                 PrintVal (tmax (best_resids bst))])
       ∧ (¬ warn → stdout w4 = stdout w3))
  ∧ (¬ stop →
       run_loop (S n) i cur best k w
       = bind (run_direction (reweighting cur) (r_x res) (r_s res) (r_z res)
                             (r_y res)) (λ aff,
           bind (run_advance cur (reweighting cur) (r_mu res) aff) (λ next,
             run_loop n (S i) next (Some bst) k')) w3).
Proof.
  intros Hres Hf Hpr Htr stop warn.
  pose proof (loop_after_tracking n i cur best k w res w1 w2 w3 bst k'
                Hres Hf Hpr Htr) as Hloop.
  split.
  - intros Hstop. apply should_stop_spec in Hstop. rewrite Hloop, Hstop.
    destruct (warn_and_return_spec bst w3) as (w4 & Hw & Hh & Hout).
    exists w4. split; [exact Hw|]. split; [exact Hh|]. rewrite Hout. split.
    + intros [H1 H2]. rewrite H1. rewrite bool_decide_eq_true_2 by exact H2.
      reflexivity.
    + intros Hn. destruct (fgt (tmax (best_resids bst)) F1) eqn:H1;
        [|now rewrite app_nil_r].
      rewrite bool_decide_eq_false_2; [now rewrite app_nil_r|].
      intros H2. apply Hn. now split.
  - intros Hstop. rewrite Hloop.
    destruct (should_stop k' notImprovedLim bst eps (r_mu res)) eqn:E;
      [|reflexivity].
    exfalso. apply Hstop. now apply should_stop_spec.
Qed.

Lemma lookup_map {X Y} (f : X → Y) (l : list X) i :
  map f l !! i = f <$> l !! i.
Proof. exact (list_lookup_fmap f l i). Qed.

Lemma affine_alpha_lookup (s z ds_aff dz_aff : bvec) j gz gs :
  (j < nBatch)%nat →
  get_step z dz_aff !! j = Some gz →
  get_step s ds_aff !! j = Some gs →
  affine_alpha nBatch s z ds_aff dz_aff !! j = Some (Spec.alpha gz gs).
Proof.
  intros Hj Hz Hs. unfold affine_alpha, vmap2.
  rewrite !lookup_zip_with, Hz, Hs. cbn [mbind option_bind].
  rewrite lookup_replicate_2 by exact Hj. reflexivity.
Qed.

Lemma scaled_row_lookup (alpha : vec) (v dv : bvec) (f : fval → fval → fval)
    j a vb dvb :
  alpha !! j = Some a → v !! j = Some vb → dv !! j = Some dvb →
  (length dvb ≤ nineq)%nat →
  bmap2 f v (bmap2 fmul (repeat_t nineq alpha) dv) !! j
  = Some (vmap2 f vb (fmul a <$> dvb)).
Proof.
  intros Ha Hv Hdv Hlen. unfold bmap2, repeat_t.
  rewrite !lookup_zip_with, lookup_map, Ha, Hv, Hdv. cbn [mbind option_bind fmap option_fmap option_map].
  unfold vmap2 at 2. now rewrite zip_with_replicate_l.
Qed.

Lemma sum1_products_lookup (t1 t2 : bvec) j u v :
  t1 !! j = Some u → t2 !! j = Some v →
  sum1 (bmap2 fmul t1 t2) !! j = Some (dot u v).
Proof.
  intros H1 H2. unfold sum1, bmap2. rewrite lookup_map, lookup_zip_with, H1, H2.
  reflexivity.
Qed.

Lemma centering_sigma_lookup (alpha : vec) (s z ds_aff dz_aff : bvec)
    j a sb zb dsb dzb :
  alpha !! j = Some a →
  s !! j = Some sb → z !! j = Some zb →
  ds_aff !! j = Some dsb → dz_aff !! j = Some dzb →
  (length dsb ≤ nineq)%nat → (length dzb ≤ nineq)%nat →
  centering_sigma nineq alpha s z ds_aff dz_aff !! j
  = Some (Spec.sigma a sb zb dsb dzb).
Proof.
  intros Ha Hs Hz Hds Hdz Hl1 Hl2. unfold centering_sigma. cbv zeta.
  rewrite lookup_map. unfold vmap2 at 1. rewrite lookup_zip_with.
  rewrite (sum1_products_lookup _ _ j _ _
             (scaled_row_lookup alpha s ds_aff fadd j a sb dsb Ha Hs Hds Hl1)
             (scaled_row_lookup alpha z dz_aff fadd j a zb dzb Ha Hz Hdz Hl2)).
  rewrite (sum1_products_lookup _ _ j _ _ Hs Hz).
  cbn [mbind option_bind fmap option_fmap option_map].
  unfold Spec.sigma. now rewrite fcube_cube.
Qed.

Lemma corrector_rs_lookup (mu sig : vec) (s ds_aff dz_aff : bvec)
    j i m sg sb dsb dzb x y v :
  mu !! j = Some m → sig !! j = Some sg →
  s !! j = Some sb → ds_aff !! j = Some dsb → dz_aff !! j = Some dzb →
  sb !! i = Some x → dsb !! i = Some y → dzb !! i = Some v →
  (i < nineq)%nat →
  ∃ row, (corrector_rhs nBatch nineq nz neq mu sig s ds_aff dz_aff).1.1.2 !! j
         = Some row
    ∧ row !! i = Some (Spec.corrector_rs m sg x y v).
Proof.
  intros Hm Hsg Hs Hds Hdz Hx Hy Hv Hi.
  unfold corrector_rhs. cbv zeta. cbn [fst snd].
  unfold bmap2, repeat_t, vmap2.
  rewrite !lookup_zip_with, !lookup_map, !lookup_zip_with, !lookup_map.
  rewrite Hm, Hsg, Hs, Hds, Hdz.
  cbn [mbind option_bind fmap option_fmap option_map].
  eexists. split; [reflexivity|].
  rewrite !lookup_zip_with, Hx, Hy, Hv.
  rewrite lookup_replicate_2 by exact Hi. reflexivity.
Qed.

(** C5: in an iteration that reaches the update, the affine step length
    is, for every batch element, the minimum of the two ratio tests and
    1, the centering parameter is the cube of the ratio of the predicted
    to the current complementarity, and the corrector direction is the
    solution of the configured strategy for a right-hand side that is
    zero in the rows [rx], [rz] and [ry] and whose row [rs] has the
    entries [(-mu sigma + ds_aff dz_aff) / s].  Each formula is given
    twice: on the entries of the tensors, whatever they hold, and, where
    the entries are rational numbers and the divisor is not zero, as the
    number the rational formula gives: [min (min step_z step_s) 1],
    [((s + alpha ds_aff) . (z + alpha dz_aff) / (s . z)) ^ 3] and
    [(- mu sigma + ds_aff dz_aff) / s]. *)
Theorem mehrotra_corrector (cur : iterate) (d : bvec) (mu : vec)
    (dx_aff ds_aff dz_aff : bvec) (dy_aff : option bvec)
    (w w' : world) (next : iterate) :
  run_advance cur d mu (dx_aff, ds_aff, dz_aff, dy_aff) w = (Ok next, w') →
  let s := it_s cur in
  let z := it_z cur in
  let alpha := affine_alpha nBatch s z ds_aff dz_aff in
  let sig := centering_sigma nineq alpha s z ds_aff dz_aff in
  (∀ j gz gs, (j < nBatch)%nat →
     get_step z dz_aff !! j = Some gz → get_step s ds_aff !! j = Some gs →
     alpha !! j = Some (Spec.alpha gz gs))
  ∧ (∀ j qz qs, (j < nBatch)%nat →
       get_step z dz_aff !! j = Some (Fin qz) →
       get_step s ds_aff !! j = Some (Fin qs) →
       ∃ q, alpha !! j = Some (Fin q) ∧ (q == Spec.alpha_Q qz qs)%Q)
  ∧ (∀ j a sb zb dsb dzb,
       alpha !! j = Some a → s !! j = Some sb → z !! j = Some zb →
       ds_aff !! j = Some dsb → dz_aff !! j = Some dzb →
       (length dsb ≤ nineq)%nat → (length dzb ≤ nineq)%nat →
       sig !! j = Some (Spec.sigma a sb zb dsb dzb))
  ∧ (∀ j qa qs qz qds qdz,
       alpha !! j = Some (Fin qa) →
       s !! j = Some (Fin <$> qs) → z !! j = Some (Fin <$> qz) →
       ds_aff !! j = Some (Fin <$> qds) → dz_aff !! j = Some (Fin <$> qdz) →
       (length qds ≤ nineq)%nat → (length qdz ≤ nineq)%nat →
       ¬ (Spec.Qdot qs qz == 0)%Q →
       sig !! j = Some (Fin (Qred (Spec.sigma_Q qa qs qz qds qdz))))
  ∧ ∃ rs cor w1,
      run_direction d (zeros nBatch nz) rs (zeros nBatch nineq)
                    (Some (zeros nBatch neq)) w = (Ok cor, w1)
      ∧ (∀ j i m sg sb dsb dzb x y v,
           mu !! j = Some m → sig !! j = Some sg →
           s !! j = Some sb → ds_aff !! j = Some dsb → dz_aff !! j = Some dzb →
           sb !! i = Some x → dsb !! i = Some y → dzb !! i = Some v →
           (i < nineq)%nat →
           ∃ row, rs !! j = Some row
             ∧ row !! i = Some (Spec.corrector_rs m sg x y v))
      ∧ (∀ j i qm qsg sb dsb dzb qx qy qv,
           mu !! j = Some (Fin qm) → sig !! j = Some (Fin qsg) →
           s !! j = Some sb → ds_aff !! j = Some dsb → dz_aff !! j = Some dzb →
           sb !! i = Some (Fin qx) → dsb !! i = Some (Fin qy) →
           dzb !! i = Some (Fin qv) →
           (i < nineq)%nat → ¬ (qx == 0)%Q →
           ∃ row, rs !! j = Some row
             ∧ row !! i
               = Some (Fin (Qred (Spec.corrector_rs_Q qm qsg qx qy qv)))).
Proof.
  intros Hadv s z alpha sig.
  split; [intros; now apply affine_alpha_lookup|].
  split.
  { intros j qz qs Hj Hz Hs. unfold alpha.
    rewrite (affine_alpha_lookup s z ds_aff dz_aff j _ _ Hj Hz Hs).
    destruct (alpha_numeric qz qs) as (q & -> & Hq). now exists q. }
  split; [intros; now apply centering_sigma_lookup|].
  split.
  { intros j qa qs qz qds qdz Ha Hs Hz Hds Hdz Hl1 Hl2 Hnz.
    unfold sig.
    rewrite (centering_sigma_lookup alpha s z ds_aff dz_aff j _ _ _ _ _
               Ha Hs Hz Hds Hdz) by now rewrite length_fmap.
    now rewrite sigma_numeric. }
  unfold advance in Hadv. destruct cur as [x0 s0 z0 y0].
  cbn [it_s it_z] in *. fold s z alpha sig in Hadv.
  set (rhs := corrector_rhs nBatch nineq nz neq mu sig s ds_aff dz_aff) in *.
  assert (Hrhs : rhs = (zeros nBatch nz, rhs.1.1.2, zeros nBatch nineq,
                        Some (zeros nBatch neq))) by reflexivity.
  rewrite Hrhs in Hadv. unfold bind at 1 in Hadv.
  destruct (run_direction d (zeros nBatch nz) rhs.1.1.2 (zeros nBatch nineq)
              (Some (zeros nBatch neq)) w) as [[cor|e] w1] eqn:Hdir;
    [|discriminate Hadv].
  exists rhs.1.1.2, cor, w1. split; [exact Hdir|]. split.
  - intros. eapply corrector_rs_lookup; eassumption.
  - intros j i qm qsg sb dsb dzb qx qy qv Hm Hsg Hs Hds Hdz Hx Hy Hv Hi Hnz.
    destruct (corrector_rs_lookup mu sig s ds_aff dz_aff j i _ _ _ _ _ _ _ _
                Hm Hsg Hs Hds Hdz Hx Hy Hv Hi) as (row & Hrow & Hval).
    exists row. split; [exact Hrow|].
    now rewrite Hval, corrector_rs_numeric.
Qed.

(** The first iteration of [forward] when it reaches the update. *)
Lemma forward_first_iteration (n : nat) (w w1 w2 w3 w4 w5 w6 : world)
    (init : iterate) (s z : bvec) (res : residuals) (bst : best_iterate)
    (k' : nat) (aff : dirs) (next : iterate) :
  get_sizes G A = Ok (nineq, nz, neq, nBatch) →
  initial_iterate B alt_kkt Q p G h A b F Q_LU S_LU R eps solver nineq neq nBatch w
  = (Ok init, w1) →
  shift_positive nineq (it_s init) = Ok s →
  shift_positive nineq (it_z init) = Ok z →
  let first := Iterate (it_x init) s z (it_y init) in
  run_residuals first w1 = (Ok res, w2) →
  (if decide (solver = LU_PARTIAL)
   then factor_kkt B S_LU R (reweighting first) w2 = (Ok (), w3)
   else w3 = w2) →
  (if decide (verbose = 1) then
     print (PrintIter 0 (tmean (r_pri res)) (tmean (r_dual res)) (tmean (r_mu res)))
   else ret ()) w3 = (Ok (), w4) →
  track_best neq (r_resids res) first None 0 w4 = (Ok (bst, k'), w4) →
  should_stop k' notImprovedLim bst eps (r_mu res) = false →
  run_direction (reweighting first) (r_x res) (r_s res) (r_z res) (r_y res) w4
  = (Ok aff, w5) →
  run_advance first (reweighting first) (r_mu res) aff w5 = (Ok next, w6) →
  forward B alt_kkt Q p G h A b F Q_LU S_LU R eps verbose notImprovedLim
          (Z.of_nat (S n)) solver w
  = run_loop n 1 next (Some bst) k' w6.
Proof.
  intros Hsz Hinit Hss Hsh first Hres Hf Hpr Htr Hstop Hdir Hadv.
  rewrite (forward_reaches_loop _ w w1 init s z Hsz Hinit Hss Hsh).
  rewrite Nat2Z.id. fold first.
  rewrite (loop_after_tracking n 0 first None 0 w1 res w2 w3 w4 bst k'
             Hres Hf Hpr Htr).
  rewrite Hstop. unfold bind at 1. rewrite Hdir.
  unfold bind at 1. rewrite Hadv. reflexivity.
Qed.

End ForwardProperties.

(** ** The controller on problems in one variable *)

Lemma forward_returns_none_witness :
  (forward OneByOne.B OneByOne.no_alt [[[F1]]] [[F0]] [[[F0]]] [[Fin (-2)]]
           None None (Some [[[Fin (-2)]]]) 1%positive 2%positive 3%positive
           OneByOne.eps_default 0 3 20 LU_PARTIAL
           (OneByOne.zero_row (Fin (-2)))).1
  = Ok (None, None, None, None).
Proof.
  set (w := OneByOne.zero_row (Fin (-2))).
  pose (r1 := initial_iterate OneByOne.B OneByOne.no_alt [[[F1]]] [[F0]]
                 [[[F0]]] [[Fin (-2)]] None None (Some [[[Fin (-2)]]])
                 1%positive 2%positive 3%positive OneByOne.eps_default
                 LU_PARTIAL 1 0 1 w).
  pose (init := OneByOne.value (Iterate [] [] [] None) r1).
  pose (s := OneByOne.shifted (shift_positive 1 (it_s init))).
  pose (z := OneByOne.shifted (shift_positive 1 (it_z init))).
  pose (first := Iterate (it_x init) s z (it_y init)).
  pose (r2 := compute_residuals OneByOne.B [[[F1]]] [[F0]] [[[F0]]] [[Fin (-2)]]
                None None (Some [[[Fin (-2)]]]) 1 1 0 1 first r1.2).
  pose (res := OneByOne.value (Residuals [] [] [] None [] [] [] []) r2).
  pose (r3 := factor_kkt OneByOne.B 2%positive 3%positive
                 (bmap2 fdiv (it_z first) (it_s first)) r2.2).
  rewrite (forward_returns_none OneByOne.B OneByOne.no_alt [[[F1]]] [[F0]]
             [[[F0]]] [[Fin (-2)]] None None (Some [[[Fin (-2)]]])
             1%positive 2%positive 3%positive OneByOne.eps_default 0 3
             LU_PARTIAL 1 1 0 1 20 w r1.2 r2.2 r3.2 init s z res
             (OneByOne.raised r3)).
  - reflexivity.
  - reflexivity.
  - reflexivity.
  - reflexivity.
  - run.
  - run.
  - run.
  - run.
  - run.
Defined.

(** C4, as stated, fails: with [Q = (1)], [G = (0)] and the coupling
    [F = (-1)] the pre-factorization succeeds, the completed block
    [R + diag(1/d) = (0)] of the factorization performed before the first
    iteration cannot be factored, and [forward] raises. *)
Lemma forward_raises_before_first_iteration :
  (pre_factor_kkt OneByOne.B [[[F1]]] [[[F0]]] (Some [[[Fin (-1)]]]) None
     OneByOne.empty_world).1
  = Ok (1%positive, 2%positive, 3%positive)
  ∧ (forward OneByOne.B OneByOne.no_alt [[[F1]]] [[F0]] [[[F0]]] [[F1]]
             None None (Some [[[Fin (-1)]]]) 1%positive 2%positive 3%positive
             OneByOne.eps_default 0 3 20 LU_PARTIAL
             (OneByOne.zero_row (Fin (-1)))).1
    = Raise (RuntimeError "failed to factorize batch element").
Proof. split; run. Qed.

Lemma factorization_failure_policy_witness :
  (forward OneByOne.B OneByOne.no_alt [[[F1]]] [[F0]] [[[F0]]] [[F1]]
           None None (Some [[[Fin (-1)]]]) 1%positive 2%positive 3%positive
           OneByOne.eps_default 0 3 20 LU_PARTIAL
           (OneByOne.zero_row (Fin (-1)))).1
  = Raise (RuntimeError "failed to factorize batch element")
  ∧ (loop OneByOne.B OneByOne.no_alt [[[F1]]] [[F0]] [[[F0]]] [[Fin (-2)]]
          None None (Some [[[Fin (-2)]]]) 1%positive 2%positive 3%positive
          OneByOne.eps_default 0 3 LU_PARTIAL 1 1 0 1
          5 0 (Iterate [[F0]] [[Fin 2]] [[F1]] None) None 0
          (OneByOne.zero_row (Fin (-2)))).1
    = Ok (None, None, None, None)
  ∧ (loop OneByOne.B OneByOne.no_alt [[[F1]]] [[F0]] [[[F0]]] [[F1]]
          None None (Some [[[F0]]]) 1%positive 2%positive 3%positive
          OneByOne.eps_default 0 3 LU_FULL 1 1 0 1
          5 0 (Iterate [[F0]] [[F1]] [[F1]] None) None 0
          (OneByOne.zero_row F0)).1
    = Raise AssertionError.
Proof.
  split; [|split].
  - pose (r := factor_kkt OneByOne.B 2%positive 3%positive (ones 1 1)
                 (OneByOne.zero_row (Fin (-1)))).
    rewrite (proj1 (proj2 (factorization_failure_policy OneByOne.B
               OneByOne.no_alt [[[F1]]] [[F0]] [[[F0]]] [[F1]] None None
               (Some [[[Fin (-1)]]]) 1%positive 2%positive 3%positive
               OneByOne.eps_default 0 3 LU_PARTIAL 1 1 0 1))
               20 _ (OneByOne.raised r) r.2); run.
  - set (cur := Iterate [[F0]] [[Fin 2]] [[F1]] None).
    pose (r1 := compute_residuals OneByOne.B [[[F1]]] [[F0]] [[[F0]]]
                  [[Fin (-2)]] None None (Some [[[Fin (-2)]]]) 1 1 0 1 cur
                  (OneByOne.zero_row (Fin (-2)))).
    pose (r2 := factor_kkt OneByOne.B 2%positive 3%positive
                  (bmap2 fdiv (it_z cur) (it_s cur)) r1.2).
    rewrite (proj1 (factorization_failure_policy OneByOne.B
               OneByOne.no_alt [[[F1]]] [[F0]] [[[F0]]] [[Fin (-2)]] None None
               (Some [[[Fin (-2)]]]) 1%positive 2%positive 3%positive
               OneByOne.eps_default 0 3 LU_PARTIAL 1 1 0 1)
               4%nat 0%nat cur None 0%nat _
               (OneByOne.value (Residuals [] [] [] None [] [] [] []) r1)
               r1.2 (OneByOne.raised r2) r2.2); run.
  - set (cur := Iterate [[F0]] [[F1]] [[F1]] None).
    pose (r1 := compute_residuals OneByOne.B [[[F1]]] [[F0]] [[[F0]]]
                  [[F1]] None None (Some [[[F0]]]) 1 1 0 1 cur
                  (OneByOne.zero_row F0)).
    pose (res := OneByOne.value (Residuals [] [] [] None [] [] [] []) r1).
    pose (r2 := track_best 0 (r_resids res) cur None 0 r1.2).
    rewrite (proj2 (proj2 (factorization_failure_policy OneByOne.B
               OneByOne.no_alt [[[F1]]] [[F0]] [[[F0]]] [[F1]] None None
               (Some [[[F0]]]) 1%positive 2%positive 3%positive
               OneByOne.eps_default 0 3 LU_FULL 1 1 0 1))
               4%nat 0%nat cur None 0%nat _ res r1.2 r1.2
               (OneByOne.value (Best [] [] [] [] None, 0%nat) r2).1
               (OneByOne.value (Best [] [] [] [] None, 0%nat) r2).2
               AssertionError r1.2);
      [reflexivity | discriminate | run | run | run | run | run].
Defined.

(** C3, as stated, fails: for [Q = (1)], [G = (0)], [h = (3)] and a
    stall limit of 0 the first termination check returns the best
    iterate, whose residual is 3; with [verbose = 0] the warning and
    that residual are printed, with [verbose = -1] nothing is. *)
Lemma forward_quiet_without_warning :
  (forward OneByOne.B OneByOne.no_alt [[[F1]]] [[F0]] [[[F0]]] [[Fin 3]]
           None None (Some [[[F0]]]) 1%positive 2%positive 3%positive
           OneByOne.eps_default (-1) 0 20 LU_PARTIAL (OneByOne.zero_row F0)).1
  = Ok (Some [[F0]], None, Some [[F1]], Some [[Fin 3]])
  ∧ stdout
      (forward OneByOne.B OneByOne.no_alt [[[F1]]] [[F0]] [[[F0]]] [[Fin 3]]
               None None (Some [[[F0]]]) 1%positive 2%positive 3%positive
               OneByOne.eps_default (-1) 0 20 LU_PARTIAL (OneByOne.zero_row F0)).2
    = []
  ∧ stdout
      (forward OneByOne.B OneByOne.no_alt [[[F1]]] [[F0]] [[[F0]]] [[Fin 3]]
               None None (Some [[[F0]]]) 1%positive 2%positive 3%positive
               OneByOne.eps_default 0 0 20 LU_PARTIAL (OneByOne.zero_row F0)).2
    = [PrintStr INACC_ERR; PrintVal (Fin 3)].
Proof. split; [|split]; run. Qed.

Lemma termination_check_witness :
  ∃ bst w4,
    loop OneByOne.B OneByOne.no_alt [[[F1]]] [[F0]] [[[F0]]] [[Fin 3]]
         None None (Some [[[F0]]]) 1%positive 2%positive 3%positive
         OneByOne.eps_default 0 0 LU_PARTIAL 1 1 0 1
         20 0 (Iterate [[F0]] [[Fin 3]] [[F1]] None) None 0
         (OneByOne.zero_row F0)
    = (Ok (best_answer (Some bst)), w4)
    ∧ best_resids bst = [Fin 3]
    ∧ stdout w4 = [PrintStr INACC_ERR; PrintVal (Fin 3)].
Proof.
  set (cur := Iterate [[F0]] [[Fin 3]] [[F1]] None).
  pose (r1 := compute_residuals OneByOne.B [[[F1]]] [[F0]] [[[F0]]]
                [[Fin 3]] None None (Some [[[F0]]]) 1 1 0 1 cur
                (OneByOne.zero_row F0)).
  pose (res := OneByOne.value (Residuals [] [] [] None [] [] [] []) r1).
  pose (r2 := factor_kkt OneByOne.B 2%positive 3%positive
                (bmap2 fdiv (it_z cur) (it_s cur)) r1.2).
  pose (r3 := track_best 0 (r_resids res) cur None 0 r2.2).
  pose (bk := OneByOne.value (Best [] [] [] [] None, 0%nat) r3).
  destruct (termination_check OneByOne.B OneByOne.no_alt [[[F1]]] [[F0]]
              [[[F0]]] [[Fin 3]] None None (Some [[[F0]]])
              1%positive 2%positive 3%positive OneByOne.eps_default 0 0
              LU_PARTIAL 1 1 0 1 19 0 cur None 0 (OneByOne.zero_row F0)
              res r1.2 r2.2 r2.2 bk.1 bk.2)
    as [Hstop _]; [run | run | run | run |].
  destruct Hstop as (w4 & Hrun & _ & Hwarn & _); [left; reflexivity|].
  exists bk.1, w4. split; [exact Hrun|]. split; [reflexivity|].
  rewrite Hwarn; [reflexivity|]. split; [reflexivity | discriminate].
Defined.

Lemma mehrotra_corrector_witness :
  let w := (factor_kkt OneByOne.B 2%positive 3%positive [[Fin (1 # 2)]]
              OneByOne.cached).2 in
  let cur := Iterate [[Fin (-1 # 2)]] [[F1]] [[Fin (1 # 2)]] None in
  let aff : dirs := ([[Fin (1 # 6)]], [[Fin (-1 # 2)]], [[Fin (-1 # 8)]], None) in
  ∃ next w',
    advance OneByOne.B OneByOne.no_alt [[[F1]]] [[[Fin (-1)]]] None
            (Some [[[F0]]]) 1%positive 2%positive OneByOne.eps_default
            LU_PARTIAL 1 1 0 1 cur [[Fin (1 # 2)]] [Fin (1 # 2)] aff w
    = (Ok next, w')
    ∧ affine_alpha 1 [[F1]] [[Fin (1 # 2)]] [[Fin (-1 # 2)]] [[Fin (-1 # 8)]]
        !! 0%nat
      = Some (Spec.alpha (Fin 4) (Fin 2))
    ∧ (∃ q, affine_alpha 1 [[F1]] [[Fin (1 # 2)]] [[Fin (-1 # 2)]]
                         [[Fin (-1 # 8)]] !! 0%nat = Some (Fin q)
         ∧ (q == 1)%Q)
    ∧ centering_sigma 1 [F1] [[F1]] [[Fin (1 # 2)]]
                      [[Fin (-1 # 2)]] [[Fin (-1 # 8)]] !! 0%nat
      = Some (Fin (27 # 512)).
Proof.
  intros w cur aff.
  pose (r := advance OneByOne.B OneByOne.no_alt [[[F1]]] [[[Fin (-1)]]] None
               (Some [[[F0]]]) 1%positive 2%positive OneByOne.eps_default
               LU_PARTIAL 1 1 0 1 cur [[Fin (1 # 2)]] [Fin (1 # 2)] aff w).
  assert (Hr : r = (Ok (OneByOne.value cur r), r.2)) by run.
  destruct (mehrotra_corrector OneByOne.B OneByOne.no_alt [[[F1]]]
              [[[Fin (-1)]]] None (Some [[[F0]]]) 1%positive 2%positive
              OneByOne.eps_default LU_PARTIAL 1 1 0 1 cur [[Fin (1 # 2)]]
              [Fin (1 # 2)] [[Fin (1 # 6)]] [[Fin (-1 # 2)]] [[Fin (-1 # 8)]]
              None w r.2 (OneByOne.value cur r) Hr)
    as (Halpha & HalphaQ & _ & HsigmaQ & _).
  exists (OneByOne.value cur r), r.2. split; [exact Hr|]. split.
  { apply Halpha; [constructor | run | run]. }
  split.
  { destruct (HalphaQ 0%nat 4%Q 2%Q) as (q & Hq & Hv); [constructor | run | run |].
    exists q. split; [exact Hq|]. rewrite Hv. reflexivity. }
  exact (HsigmaQ 0%nat 1%Q [1%Q] [1 # 2] [-1 # 2] [-1 # 8]
           ltac:(run) eq_refl eq_refl eq_refl eq_refl
           ltac:(constructor) ltac:(constructor) ltac:(discriminate)).
Defined.

(** ** The update and positivity

    Where no component of the combined direction is zero the damped step
    keeps the slack and the dual strictly positive. *)

Lemma ratios_lookup (r dr : list fval) i x y :
  r !! i = Some (Fin x) → dr !! i = Some (Fin y) → (y < 0)%Q →
  fdiv (fneg (Fin x)) (Fin y) ∈ Spec.ratios r dr.
Proof.
  revert dr i. induction r as [|a r IH]; intros [|c dr] [|i]; cbn [Spec.ratios];
    try discriminate.
  - intros [= ->] [= ->] Hy.
    replace (flt (Fin y) F0) with true by (symmetry; now apply (flt_fin y 0)).
    left.
  - intros Hx Hy Hneg. destruct (flt c F0); [right|]; now apply (IH dr i).
Qed.

(** What the ratio test gives for one batch element. *)
Lemma get_step_bounds (v dv : list (list fval)) j r dr :
  Forall2 (Forall2 ratio_ok) v dv →
  v !! j = Some r → dv !! j = Some dr →
  ∃ step, get_step v dv !! j = Some step
    ∧ fpos step = true
    ∧ ∀ a, a ∈ Spec.ratios r dr → fle step a = true.
Proof.
  intros Hall Hr Hdr. rewrite (get_step_lookup _ _ _ _ _ Hr Hdr).
  destruct (py_max_one_fin _ (ratios_fin_all _ _ Hall)) as (qm & -> & Hqm).
  assert (Hpm : finite_pos (Fin qm))
    by (exists qm; split; [reflexivity | destruct Hqm as [->|H]; lra]).
  destruct (step_row (Fin qm) r dr Hpm
              (Forall2_lookup_lr _ _ _ _ _ _ Hall Hr Hdr)) as (Hfin & Hsub & _).
  destruct (tmin_finite_pos _ Hfin) as (Hpos & Hle & _).
  eexists. split; [reflexivity|]. split; [exact Hpos|].
  intros a Ha. apply Hle, Hsub, Ha.
Qed.

(** The damped step of one batch element, from the two ratio tests. *)
Lemma damped_step_bounds gz gs :
  fpos gz = true → fpos gs = true →
  ∃ qa, tmin2 (fmul (Fin (999 # 1000)) (tmin2 gz gs)) F1 = Fin qa
    ∧ (0 < qa)%Q ∧ (qa <= 1)%Q
    ∧ (∀ q, fle gz (Fin q) = true → (qa <= (999 # 1000) * q)%Q)
    ∧ (∀ q, fle gs (Fin q) = true → (qa <= (999 # 1000) * q)%Q).
Proof.
  intros Hz Hs.
  destruct gz as [z| | |], gs as [s| | |]; try discriminate.
  - apply (flt_fin 0 z) in Hz. apply (flt_fin 0 s) in Hs.
    rewrite tmin2_fin. destruct (flt (Fin s) (Fin z)) eqn:Hc.
    + apply flt_fin in Hc. cbn [fmul]. unfold F1. rewrite tmin2_fin.
      destruct (flt (Fin 1) (Fin _)) eqn:H1.
      * apply flt_fin in H1. rewrite Qred_correct in H1.
        exists 1%Q. split; [reflexivity|]. split; [lra|]. split; [lra|].
        split; intros q Hq; apply fle_fin in Hq; rewrite ?Qred_correct; lra.
      * apply flt_fin_false in H1. rewrite Qred_correct in H1.
        eexists. split; [reflexivity|]. rewrite Qred_correct.
        split; [lra|]. split; [lra|].
        split; intros q Hq; apply fle_fin in Hq; rewrite ?Qred_correct; lra.
    + apply flt_fin_false in Hc. cbn [fmul]. unfold F1. rewrite tmin2_fin.
      destruct (flt (Fin 1) (Fin _)) eqn:H1.
      * apply flt_fin in H1. rewrite Qred_correct in H1.
        exists 1%Q. split; [reflexivity|]. split; [lra|]. split; [lra|].
        split; intros q Hq; apply fle_fin in Hq; rewrite ?Qred_correct; lra.
      * apply flt_fin_false in H1. rewrite Qred_correct in H1.
        eexists. split; [reflexivity|]. rewrite Qred_correct.
        split; [lra|]. split; [lra|].
        split; intros q Hq; apply fle_fin in Hq; rewrite ?Qred_correct; lra.
  - apply (flt_fin 0 z) in Hz.
    change (tmin2 (Fin z) PInf) with (Fin z). cbn [fmul]. unfold F1.
    rewrite tmin2_fin. destruct (flt (Fin 1) (Fin _)) eqn:H1.
    + apply flt_fin in H1. rewrite Qred_correct in H1.
      exists 1%Q. split; [reflexivity|]. split; [lra|]. split; [lra|].
      split; intros q Hq; [apply fle_fin in Hq; rewrite ?Qred_correct; lra | discriminate Hq].
    + apply flt_fin_false in H1. rewrite Qred_correct in H1.
      eexists. split; [reflexivity|]. rewrite Qred_correct.
      split; [lra|]. split; [lra|].
      split; intros q Hq; [apply fle_fin in Hq; rewrite ?Qred_correct; lra | discriminate Hq].
  - apply (flt_fin 0 s) in Hs.
    change (tmin2 PInf (Fin s)) with (Fin s). cbn [fmul]. unfold F1.
    rewrite tmin2_fin. destruct (flt (Fin 1) (Fin _)) eqn:H1.
    + apply flt_fin in H1. rewrite Qred_correct in H1.
      exists 1%Q. split; [reflexivity|]. split; [lra|]. split; [lra|].
      split; intros q Hq; [discriminate Hq | apply fle_fin in Hq; rewrite ?Qred_correct; lra].
    + apply flt_fin_false in H1. rewrite Qred_correct in H1.
      eexists. split; [reflexivity|]. rewrite Qred_correct.
      split; [lra|]. split; [lra|].
      split; intros q Hq; [discriminate Hq | apply fle_fin in Hq; rewrite ?Qred_correct; lra].
  - exists 1%Q. split; [reflexivity|]. split; [lra|]. split; [lra|].
    split; intros q Hq; discriminate Hq.
Qed.

Lemma ratios_cons_subset x y (r dr : list fval) a :
  a ∈ Spec.ratios r dr → a ∈ Spec.ratios (x :: r) (y :: dr).
Proof.
  intros Ha. cbn [Spec.ratios]. destruct (flt y F0); [now right | exact Ha].
Qed.

(** One row of [v + alpha * dv] for a step that is positive and at most
    0.999 times every ratio of the row. *)
Lemma step_row_positive (qa : Q) (g : fval) (r dr : list fval) :
  Forall2 ratio_ok r dr →
  (0 < qa)%Q →
  (∀ a, a ∈ Spec.ratios r dr → fle g a = true) →
  (∀ q, fle g (Fin q) = true → (qa <= (999 # 1000) * q)%Q) →
  Forall finite_pos (vmap2 fadd r (fmul (Fin qa) <$> dr)).
Proof.
  intros Hr Hqa Hle Hg. unfold vmap2.
  induction Hr as [|x y r dr (qx & qy & -> & -> & Hx & Hy) _ IH];
    [constructor|].
  cbn [fmap list_fmap zip_with]. constructor.
  - cbn [fmul fadd]. eexists. split; [reflexivity|]. rewrite !Qred_correct.
    destruct (Qlt_le_dec qy 0) as [Hneg|Hpos]; [|nra].
    assert (Hin : fdiv (fneg (Fin qx)) (Fin qy)
                  ∈ Spec.ratios (Fin qx :: r) (Fin qy :: dr))
      by (apply (ratios_lookup _ _ 0 qx qy); [reflexivity | reflexivity | exact Hneg]).
    apply Hle in Hin. rewrite ratio_quotient_fin in Hin by exact Hy.
    apply Hg in Hin. rewrite !Qred_correct in Hin.
    assert (E : ((- qx / qy) * - qy == qx)%Q) by (field; lra).
    set (t := (- qx / qy)%Q) in *. nra.
  - apply IH. intros a Ha. apply Hle. now apply ratios_cons_subset.
Qed.

Lemma damped_alpha_lookup nBatch (s z ds dz : list (list fval)) j gz gs :
  (j < nBatch)%nat →
  get_step z dz !! j = Some gz →
  get_step s ds !! j = Some gs →
  damped_alpha nBatch s z ds dz !! j
  = Some (tmin2 (fmul (Fin (999 # 1000)) (tmin2 gz gs)) F1).
Proof.
  intros Hj Hz Hs. unfold damped_alpha, vmap2.
  rewrite lookup_zip_with, map_is_fmap, list_lookup_fmap, lookup_zip_with, Hz, Hs.
  cbn [mbind option_bind fmap option_fmap option_map].
  rewrite lookup_replicate_2 by exact Hj. reflexivity.
Qed.

(** X10: the update of lines 327-336 keeps the slack and the dual strictly
    positive when they are, and no component of the direction is zero. *)
Lemma update_keeps_positive (nBatch nineq : nat) (s z ds dz : list (list fval)) :
  Forall2 (Forall2 ratio_ok) s ds →
  Forall2 (Forall2 ratio_ok) z dz →
  length z = length s → (length s ≤ nBatch)%nat →
  Forall (λ r, length r ≤ nineq)%nat ds →
  Forall (λ r, length r ≤ nineq)%nat dz →
  let alpha := damped_alpha nBatch s z ds dz in
  Forall (Forall finite_pos) (step_by nineq alpha s ds)
  ∧ Forall (Forall finite_pos) (step_by nineq alpha z dz).
Proof.
  intros Hs Hz Hlen HnB Hds Hdz alpha.
  assert (Hrow : ∀ j, (j < length s)%nat →
    ∃ r dr zr dzr qa gs gz,
      s !! j = Some r ∧ ds !! j = Some dr ∧ z !! j = Some zr ∧ dz !! j = Some dzr
      ∧ alpha !! j = Some (Fin qa) ∧ (0 < qa)%Q
      ∧ (∀ a, a ∈ Spec.ratios r dr → fle gs a = true)
      ∧ (∀ q, fle gs (Fin q) = true → (qa <= (999 # 1000) * q)%Q)
      ∧ (∀ a, a ∈ Spec.ratios zr dzr → fle gz a = true)
      ∧ (∀ q, fle gz (Fin q) = true → (qa <= (999 # 1000) * q)%Q)).
  { intros j Hj.
    destruct (lookup_lt_is_Some_2 s j Hj) as [r Hr].
    destruct (lookup_lt_is_Some_2 ds j) as [dr Hdr];
      [rewrite <- (Forall2_length _ _ _ Hs); exact Hj|].
    destruct (lookup_lt_is_Some_2 z j) as [zr Hzr]; [lia|].
    destruct (lookup_lt_is_Some_2 dz j) as [dzr Hdzr];
      [rewrite <- (Forall2_length _ _ _ Hz); lia|].
    destruct (get_step_bounds s ds j r dr Hs Hr Hdr) as (gs & Hgs & Pgs & Lgs).
    destruct (get_step_bounds z dz j zr dzr Hz Hzr Hdzr) as (gz & Hgz & Pgz & Lgz).
    destruct (damped_step_bounds gz gs Pgz Pgs) as (qa & Hqa & H0 & _ & Bz & Bs).
    exists r, dr, zr, dzr, qa, gs, gz.
    repeat (split; [eassumption|]).
    split.
    { unfold alpha. rewrite (damped_alpha_lookup nBatch s z ds dz j gz gs)
        by (try lia; assumption). now rewrite Hqa. }
    split; [exact H0|]. split; [exact Lgs|]. split; [exact Bs|].
    split; [exact Lgz | exact Bz]. }
  assert (Hlen_s : ∀ dv, (length (step_by nineq alpha s dv) ≤ length s)%nat).
  { intros dv. unfold step_by, bmap2. rewrite length_zip_with. lia. }
  assert (Hlen_z : ∀ dv, (length (step_by nineq alpha z dv) ≤ length s)%nat).
  { intros dv. unfold step_by, bmap2. rewrite length_zip_with. lia. }
  split; apply Forall_lookup; intros j row Hj.
  - destruct (Hrow j) as (r & dr & zr & dzr & qa & gs & gz & Hr & Hdr & Hzr
                          & Hdzr & Ha & H0 & Lgs & Bs & Lgz & Bz).
    { apply lookup_lt_Some in Hj. specialize (Hlen_s ds). lia. }
    unfold step_by in Hj.
    rewrite (scaled_row_lookup nineq alpha s ds fadd j (Fin qa) r dr Ha Hr Hdr)
      in Hj by (exact (proj1 (Forall_lookup _ _) Hds j dr Hdr)).
    injection Hj as <-.
    exact (step_row_positive qa gs r dr
             (Forall2_lookup_lr _ _ _ _ _ _ Hs Hr Hdr) H0 Lgs Bs).
  - destruct (Hrow j) as (r & dr & zr & dzr & qa & gs & gz & Hr & Hdr & Hzr
                          & Hdzr & Ha & H0 & Lgs & Bs & Lgz & Bz).
    { apply lookup_lt_Some in Hj. specialize (Hlen_z dz). lia. }
    unfold step_by in Hj.
    rewrite (scaled_row_lookup nineq alpha z dz fadd j (Fin qa) zr dzr Ha Hzr Hdzr)
      in Hj by (exact (proj1 (Forall_lookup _ _) Hdz j dzr Hdzr)).
    injection Hj as <-.
    exact (step_row_positive qa gz zr dzr
             (Forall2_lookup_lr _ _ _ _ _ _ Hz Hzr Hdzr) H0 Lgz Bz).
Qed.




(** C1 fails on the code.  For [Q = (1)], [p = (0)], the constraint row
    [G = (0)] with [h = (1)] and no coupling, the slack and the dual are
    both [(1)] after the initial shift; the affine direction of the first
    iteration has the slack component [0], for which [get_step] returns
    minus infinity, the entry [-1/0] not being overwritten by the
    assignment on [dv > 0]; the first update then leaves the slack and
    the dual not a number, and [forward] goes on from that iterate.  The
    iterate it returns is the one recorded before the update.  Without a
    zero component the invariant holds, see [shift_positive_pos] and
    [update_keeps_positive]. *)
Theorem positivity_lost_on_zero_direction :
  let w0 := OneByOne.zero_row F0 in
  let first := Iterate [[F0]] [[F1]] [[F1]] None in
  let lost := Iterate [[NaN]] [[NaN]] [[NaN]] None in
  (∃ init w1,
     initial_iterate OneByOne.B OneByOne.no_alt [[[F1]]] [[F0]] [[[F0]]] [[F1]]
       None None (Some [[[F0]]]) 1%positive 2%positive 3%positive
       OneByOne.eps_default LU_PARTIAL 1 0 1 w0
     = (Ok init, w1)
     ∧ it_x init = it_x first
     ∧ shift_positive 1 (it_s init) = Ok (it_s first)
     ∧ shift_positive 1 (it_z init) = Ok (it_z first)
     ∧ it_y init = it_y first)
  ∧ all_pos (it_s first) ∧ all_pos (it_z first)
  ∧ get_step (it_s first) [[F0]] = [NInf]
  ∧ (∀ n : nat, ∃ bst w',
       forward OneByOne.B OneByOne.no_alt [[[F1]]] [[F0]] [[[F0]]] [[F1]]
               None None (Some [[[F0]]]) 1%positive 2%positive 3%positive
               OneByOne.eps_default 0 3 (Z.of_nat (S n)) LU_PARTIAL w0
       = loop OneByOne.B OneByOne.no_alt [[[F1]]] [[F0]] [[[F0]]] [[F1]]
              None None (Some [[[F0]]]) 1%positive 2%positive 3%positive
              OneByOne.eps_default 0 3 LU_PARTIAL 1 1 0 1
              n 1 lost (Some bst) 0 w'
       ∧ best_s bst = [[F1]] ∧ best_z bst = [[F1]])
  ∧ ¬ all_pos (it_s lost) ∧ ¬ all_pos (it_z lost)
  ∧ (forward OneByOne.B OneByOne.no_alt [[[F1]]] [[F0]] [[[F0]]] [[F1]]
             None None (Some [[[F0]]]) 1%positive 2%positive 3%positive
             OneByOne.eps_default 0 3 20 LU_PARTIAL w0).1
    = Ok (Some [[F0]], None, Some [[F1]], Some [[F1]]).
Proof.
  intros w0 first lost.
  pose (r1 := initial_iterate OneByOne.B OneByOne.no_alt [[[F1]]] [[F0]]
                [[[F0]]] [[F1]] None None (Some [[[F0]]])
                1%positive 2%positive 3%positive OneByOne.eps_default
                LU_PARTIAL 1 0 1 w0).
  pose (init := Iterate [[F0]] [[F1]] [[Fin (-1)]] None).
  assert (H1 : r1 = (Ok init, r1.2)) by run.
  split; [exists init, r1.2; split; [exact H1 | repeat split]|].
  split; [repeat constructor|]. split; [repeat constructor|].
  split; [reflexivity|].
  split; [|split; [|split]].
  - intros n.
    pose (r2 := compute_residuals OneByOne.B [[[F1]]] [[F0]] [[[F0]]] [[F1]]
                  None None (Some [[[F0]]]) 1 1 0 1 first r1.2).
    pose (res := Residuals [[F0]] [[F1]] [[F0]] None [F1] [F0] [F0] [F1]).
    pose (r3 := factor_kkt OneByOne.B 2%positive 3%positive [[F1]] r2.2).
    pose (bst := Best [F1] [[F0]] [[F1]] [[F1]] None).
    pose (aff := ([[F0]], [[F0]], [[Fin (-1)]], None) : dirs).
    pose (r4 := direction OneByOne.B OneByOne.no_alt [[[F1]]] [[[F0]]] None
                  (Some [[[F0]]]) 1%positive 2%positive OneByOne.eps_default
                  LU_PARTIAL [[F1]] [[F0]] [[F1]] [[F0]] None r3.2).
    pose (r5 := advance OneByOne.B OneByOne.no_alt [[[F1]]] [[[F0]]] None
                  (Some [[[F0]]]) 1%positive 2%positive OneByOne.eps_default
                  LU_PARTIAL 1 1 0 1 first [[F1]] [F1] aff r4.2).
    exists bst, r5.2. split; [|split; reflexivity].
    apply (forward_first_iteration OneByOne.B OneByOne.no_alt [[[F1]]] [[F0]]
             [[[F0]]] [[F1]] None None (Some [[[F0]]])
             1%positive 2%positive 3%positive OneByOne.eps_default 0 3
             LU_PARTIAL 1 1 0 1 n w0 r1.2 r2.2 r3.2 r3.2 r4.2 r5.2
             init [[F1]] [[F1]] res bst 0 aff lost); run.
  - intros H. inversion_clear H as [|? ? Hrow _].
    inversion_clear Hrow as [|? ? Hx _]. discriminate Hx.
  - intros H. inversion_clear H as [|? ? Hrow _].
    inversion_clear Hrow as [|? ? Hx _]. discriminate Hx.
  - run.
Qed.

(** ** What a computation leaves of the state *)

Section Keeps.

Context (Rel : world → world → Prop).
Hypothesis Rel_refl : ∀ w, Rel w w.
Hypothesis Rel_trans : ∀ w1 w2 w3, Rel w1 w2 → Rel w2 w3 → Rel w1 w3.

Lemma keeps_ret {A} (a : A) : keeps Rel (ret a).
Proof. intros w r w' [= <- <-]. apply Rel_refl. Qed.

Lemma keeps_raise {A} (e : exn) : keeps Rel (@raise A e).
Proof. intros w r w' [= <- <-]. apply Rel_refl. Qed.

Lemma keeps_lift {A} (r : result A) : keeps Rel (lift r).
Proof. intros w r' w' [= <- <-]. apply Rel_refl. Qed.

Lemma keeps_the {A} (e : exn) (o : option A) : keeps Rel (the e o).
Proof. destruct o; [apply keeps_ret | apply keeps_raise]. Qed.

Lemma keeps_bind {A C} (m : M A) (f : A → M C) :
  keeps Rel m → (∀ a, keeps Rel (f a)) → keeps Rel (bind m f).
Proof.
  intros Hm Hf w r w'. unfold bind.
  destruct (m w) as [[a|e] w1] eqn:E.
  - intros H. eapply Rel_trans; [exact (Hm _ _ _ E) | exact (Hf _ _ _ _ H)].
  - intros [= <- <-]. exact (Hm _ _ _ E).
Qed.

Lemma keeps_try_except {A} (m h : M A) :
  keeps Rel m → keeps Rel h → keeps Rel (try_except m h).
Proof.
  intros Hm Hh w r w'. unfold try_except.
  destruct (m w) as [[a|e] w1] eqn:E.
  - intros [= <- <-]. exact (Hm _ _ _ E).
  - intros H. eapply Rel_trans; [exact (Hm _ _ _ E) | exact (Hh _ _ _ H)].
Qed.

Lemma keeps_get_shown : keeps Rel get_shown.
Proof. intros w r w' [= <- <-]. apply Rel_refl. Qed.

Lemma keeps_get_eye : keeps Rel get_eye.
Proof. intros w r w' [= <- <-]. apply Rel_refl. Qed.

Lemma keeps_read_lu l : keeps Rel (read_lu l).
Proof.
  intros w r w'. unfold read_lu.
  destruct (heap w !! l) as [[f|t]|]; intros [= <- <-]; apply Rel_refl.
Qed.

Lemma keeps_read_tensor l : keeps Rel (read_tensor l).
Proof.
  intros w r w'. unfold read_tensor.
  destruct (heap w !! l) as [[f|t]|]; intros [= <- <-]; apply Rel_refl.
Qed.

End Keeps.

(** One step through a computation that keeps a relation. *)
Ltac keeps_step :=
  first
    [ assumption
    | apply keeps_ret
    | apply keeps_raise
    | apply keeps_lift
    | apply keeps_the
    | apply keeps_get_shown
    | apply keeps_get_eye
    | apply keeps_read_lu
    | apply keeps_read_tensor
    | solve [auto]
    | apply keeps_try_except
    | apply keeps_bind; [.. | intros ?]
    | match goal with
      | |- keeps _ (match ?x with _ => _ end) => destruct x
      end ].

Ltac keeps_auto := repeat keeps_step.

Section KeepsSolver.

Context (Rel : world → world → Prop).
Hypothesis Rel_refl : ∀ w, Rel w w.
Hypothesis Rel_trans : ∀ w1 w2 w3, Rel w1 w2 → Rel w2 w3 → Rel w1 w3.

Context (B : backend).
Context (alt_kkt : KKTSolvers → bmat → bmat → option bmat → option bmat →
                   fval → bvec → bvec → bvec → bvec → option bvec → M dirs).
Context (Q : bmat) (p : bvec) (G : bmat) (h : bvec)
        (A : option bmat) (b : option bvec) (F : option bmat)
        (Q_LU S_LU R : loc)
        (eps : fval) (verbose notImprovedLim : Z)
        (nineq nz neq nBatch : nat).

Hypothesis keeps_btrifact : ∀ x, keeps Rel (btrifact_hack B x).
Hypothesis keeps_set_eye : ∀ e, keeps Rel (set_eye e).
Hypothesis keeps_update : ∀ f, keeps Rel (update_lu S_LU f).
Hypothesis keeps_iteration_line :
  verbose = 1 → ∀ i a c d, keeps Rel (print (PrintIter i a c d)).
Hypothesis keeps_warning : ∀ bst, keeps Rel (warn_and_return bst verbose).

Lemma keeps_factor_kkt d : keeps Rel (factor_kkt B S_LU R d).
Proof. unfold factor_kkt. keeps_auto. Qed.

Lemma keeps_solve_kkt d rx rs rz ry :
  keeps Rel (solve_kkt B Q_LU d G A S_LU rx rs rz ry).
Proof. unfold solve_kkt. keeps_auto. Qed.

Lemma keeps_compute_residuals cur :
  keeps Rel (compute_residuals B Q p G h A b F nineq nz neq nBatch cur).
Proof. unfold compute_residuals. keeps_auto. Qed.

Lemma keeps_track_best resids cur best k :
  keeps Rel (track_best neq resids cur best k).
Proof. unfold track_best. keeps_auto. Qed.

Lemma keeps_direction d rx rs rz ry :
  keeps Rel (direction B alt_kkt Q G A F Q_LU S_LU eps LU_PARTIAL d rx rs rz ry).
Proof.
  unfold direction. destruct (decide (LU_PARTIAL = LU_PARTIAL)); [|contradiction].
  apply keeps_solve_kkt.
Qed.

Lemma keeps_advance cur d mu aff :
  keeps Rel (advance B alt_kkt Q G A F Q_LU S_LU eps LU_PARTIAL
               nineq nz neq nBatch cur d mu aff).
Proof.
  pose proof keeps_direction. unfold advance.
  destruct cur, aff as [[[? ?] ?] ?]. keeps_auto.
Qed.

Lemma keeps_loop n : ∀ i cur best k,
  keeps Rel (loop B alt_kkt Q p G h A b F Q_LU S_LU R eps verbose
               notImprovedLim LU_PARTIAL nineq nz neq nBatch n i cur best k).
Proof.
  pose proof keeps_direction. pose proof keeps_advance.
  pose proof keeps_compute_residuals. pose proof keeps_track_best.
  pose proof keeps_factor_kkt.
  induction n as [|n IH]; intros i cur best k.
  - cbn [loop]. keeps_auto.
  - cbn [loop]. destruct (decide (LU_PARTIAL = LU_PARTIAL)); [|contradiction].
    keeps_auto.
Qed.

Lemma keeps_initial_iterate :
  keeps Rel (initial_iterate B alt_kkt Q p G h A b F Q_LU S_LU R eps LU_PARTIAL
               nineq neq nBatch).
Proof.
  pose proof keeps_factor_kkt. pose proof keeps_solve_kkt.
  unfold initial_iterate. destruct (decide (LU_PARTIAL = LU_PARTIAL)); [|contradiction].
  keeps_auto.
Qed.

End KeepsSolver.

Lemma only_written_refl l w : only_written l w w.
Proof. intros l' _. reflexivity. Qed.

Lemma only_written_trans l w1 w2 w3 :
  only_written l w1 w2 → only_written l w2 w3 → only_written l w1 w3.
Proof. intros H1 H2 l' Hl. rewrite (H2 l' Hl). exact (H1 l' Hl). Qed.

Lemma same_output_trans w1 w2 w3 :
  same_output w1 w2 → same_output w2 w3 → same_output w1 w3.
Proof. unfold same_output. congruence. Qed.

Lemma btrifact_hack_accepted B x w :
  (∀ pv y, btrifact_pivot B pv y ≠ Raise TypeError) →
  btrifact_hack B x w = (btrifact_pivot B (negb (is_cuda B)) x, w).
Proof.
  intros HB. unfold btrifact_hack.
  destruct (btrifact_pivot B (negb (is_cuda B)) x) as [f|[]] eqn:E;
    try reflexivity.
  now apply HB in E.
Qed.

Lemma update_lu_only_written l f : keeps (only_written l) (update_lu l f).
Proof.
  intros w r w'. unfold update_lu.
  destruct (heap w !! l) as [[x|t]|]; intros [= <- <-]; try apply only_written_refl.
  intros l' Hl. cbn [heap]. now apply lookup_insert_ne.
Qed.

Lemma update_lu_same_output l f : keeps same_output (update_lu l f).
Proof.
  intros w r w'. unfold update_lu.
  destruct (heap w !! l) as [[x|t]|]; intros [= <- <-]; reflexivity.
Qed.

(** X4: under the partial strategy [forward] writes to no object of
    the heap but [S_LU], whatever it returns or raises: the cached
    [Q_LU] and [R], and every other object, are what they were, and no
    object is created. *)
Theorem forward_writes_only_S_LU (B : backend)
    (alt_kkt : KKTSolvers → bmat → bmat → option bmat → option bmat →
               fval → bvec → bvec → bvec → bvec → option bvec → M dirs)
    (Q : bmat) (p : bvec) (G : bmat) (h : bvec)
    (A : option bmat) (b : option bvec) (F : option bmat) (Q_LU S_LU R : loc)
    (eps : fval) (verbose notImprovedLim maxIter : Z)
    (w w' : world) (r : result answer) (l : loc) :
  forward B alt_kkt Q p G h A b F Q_LU S_LU R eps verbose notImprovedLim maxIter
          LU_PARTIAL w = (r, w') →
  l ≠ S_LU →
  heap w' !! l = heap w !! l.
Proof.
  intros Hrun Hl. revert l Hl. change (only_written S_LU w w').
  revert w r w' Hrun. change (keeps (only_written S_LU)
    (forward B alt_kkt Q p G h A b F Q_LU S_LU R eps verbose notImprovedLim
             maxIter LU_PARTIAL)).
  pose proof (only_written_refl S_LU) as Hrefl.
  pose proof (only_written_trans S_LU) as Htrans.
  assert (Hb : ∀ x, keeps (only_written S_LU) (btrifact_hack B x)).
  { intros x w r w' H l' _. now rewrite (btrifact_hack_heap _ _ _ _ _ H). }
  assert (He : ∀ e, keeps (only_written S_LU) (set_eye e)).
  { intros e w r w' [= <- <-] l' _. reflexivity. }
  assert (Hp : ∀ ln, keeps (only_written S_LU) (print ln)).
  { intros ln w r w' [= <- <-] l' _. reflexivity. }
  assert (Hw : ∀ bst, keeps (only_written S_LU) (warn_and_return bst verbose)).
  { intros bst. unfold warn_and_return. keeps_auto. }
  pose proof (update_lu_only_written S_LU) as Hu.
  unfold forward. apply keeps_bind; [exact Htrans | now apply keeps_lift |].
  intros [[[nineq nz] neq] nBatch].
  apply keeps_bind; [exact Htrans | now apply keeps_initial_iterate |].
  intros init. apply keeps_bind; [exact Htrans | now apply keeps_lift |].
  intros s. apply keeps_bind; [exact Htrans | now apply keeps_lift |].
  intros z. apply keeps_loop; auto.
Qed.

Lemma forward_writes_only_S_LU_witness :
  let run := forward OneByOne.B OneByOne.no_alt [[[F1]]] [[F1]] [[[F1]]] [[F1]]
               None None (Some [[[F0]]]) 1%positive 2%positive 3%positive
               OneByOne.eps_default 0 3 2 LU_PARTIAL OneByOne.cached in
  heap run.2 !! 1%positive = heap OneByOne.cached !! 1%positive.
Proof.
  intros run.
  apply (forward_writes_only_S_LU OneByOne.B OneByOne.no_alt [[[F1]]] [[F1]]
           [[[F1]]] [[F1]] None None (Some [[[F0]]]) 1%positive 2%positive
           3%positive OneByOne.eps_default 0 3 2 OneByOne.cached run.2
           (Ok (OneByOne.value (None, None, None, None) run)) 1%positive).
  - run.
  - discriminate.
Defined.

(** X5: on a tensor library that knows the [pivot] keyword, [forward]
    under the partial strategy with a negative [verbose] prints
    nothing, whatever it returns or raises: neither the iteration
    lines nor the warning about an inaccurate solution. *)
Theorem forward_silent (B : backend)
    (alt_kkt : KKTSolvers → bmat → bmat → option bmat → option bmat →
               fval → bvec → bvec → bvec → bvec → option bvec → M dirs)
    (Q : bmat) (p : bvec) (G : bmat) (h : bvec)
    (A : option bmat) (b : option bvec) (F : option bmat) (Q_LU S_LU R : loc)
    (eps : fval) (verbose notImprovedLim maxIter : Z)
    (w w' : world) (r : result answer) :
  (∀ pv x, btrifact_pivot B pv x ≠ Raise TypeError) →
  verbose < 0 →
  forward B alt_kkt Q p G h A b F Q_LU S_LU R eps verbose notImprovedLim maxIter
          LU_PARTIAL w = (r, w') →
  stdout w' = stdout w.
Proof.
  intros HB Hv Hrun. change (same_output w w').
  revert w r w' Hrun. change (keeps same_output
    (forward B alt_kkt Q p G h A b F Q_LU S_LU R eps verbose notImprovedLim
             maxIter LU_PARTIAL)).
  assert (Hrefl : ∀ w, same_output w w) by reflexivity.
  pose proof same_output_trans as Htrans.
  assert (Hb : ∀ x, keeps same_output (btrifact_hack B x)).
  { intros x w r w'. rewrite (btrifact_hack_accepted B x w HB).
    intros [= <- <-]. reflexivity. }
  assert (He : ∀ e, keeps same_output (set_eye e)).
  { intros e w r w' [= <- <-]. reflexivity. }
  assert (Hp : verbose = 1 → ∀ i a c d, keeps same_output (print (PrintIter i a c d)))
    by lia.
  assert (Hw : ∀ bst, keeps same_output (warn_and_return bst verbose)).
  { intros bst. unfold warn_and_return.
    replace (bool_decide (0 ≤ verbose)) with false
      by (symmetry; apply bool_decide_eq_false; lia).
    rewrite andb_false_r. keeps_auto. }
  pose proof (update_lu_same_output S_LU) as Hu.
  unfold forward. apply keeps_bind; [exact Htrans | now apply keeps_lift |].
  intros [[[nineq nz] neq] nBatch].
  apply keeps_bind; [exact Htrans | now apply keeps_initial_iterate |].
  intros init. apply keeps_bind; [exact Htrans | now apply keeps_lift |].
  intros s. apply keeps_bind; [exact Htrans | now apply keeps_lift |].
  intros z. apply keeps_loop; auto.
Qed.

Lemma forward_silent_witness :
  let run := forward OneByOne.B OneByOne.no_alt [[[F1]]] [[F1]] [[[F1]]] [[F1]]
               None None (Some [[[F0]]]) 1%positive 2%positive 3%positive
               OneByOne.eps_default (-1) 3 2 LU_PARTIAL OneByOne.cached in
  stdout run.2 = stdout OneByOne.cached.
Proof.
  intros run.
  apply (forward_silent OneByOne.B OneByOne.no_alt [[[F1]]] [[F1]]
           [[[F1]]] [[F1]] None None (Some [[[F0]]]) 1%positive 2%positive
           3%positive OneByOne.eps_default (-1) 3 2 OneByOne.cached run.2
           (Ok (OneByOne.value (None, None, None, None) run))).
  - intros pv x. cbn [btrifact_pivot OneByOne.B]. unfold OneByOne.factor.
    destruct (existsb OneByOne.singular x); discriminate.
  - lia.
  - run.
Defined.

(** ** What [forward] returns *)

Lemma returns_only_ret {A} (P : A → Prop) (a : A) : P a → returns_only P (ret a).
Proof. intros H w a' w' [= <- <-]. exact H. Qed.

Lemma returns_only_bind {A C} (P : C → Prop) (m : M A) (f : A → M C) :
  (∀ a, returns_only P (f a)) → returns_only P (bind m f).
Proof.
  intros Hf w c w'. unfold bind. destruct (m w) as [[a|e] w1]; [|discriminate].
  apply Hf.
Qed.

Lemma returns_only_warn_and_return (P : answer → Prop) bst verbose :
  P (best_answer (Some bst)) → returns_only P (warn_and_return bst verbose).
Proof.
  intros H. unfold warn_and_return. apply returns_only_bind. intros _.
  now apply returns_only_ret.
Qed.

Lemma loop_returns B alt_kkt Q p G h A b F Q_LU S_LU R eps verbose notImprovedLim
    solver nineq nz neq nBatch n :
  ∀ i cur best k,
    returns_only
      (λ ans, (ans = (None, None, None, None) ∧ solver = LU_PARTIAL)
              ∨ ∃ bst, ans = best_answer (Some bst))
      (loop B alt_kkt Q p G h A b F Q_LU S_LU R eps verbose notImprovedLim solver
            nineq nz neq nBatch n i cur best k).
Proof.
  induction n as [|n IH]; intros i cur best k.
  - cbn [loop]. apply returns_only_bind. intros bst.
    apply returns_only_warn_and_return. right. now exists bst.
  - rewrite loop_unfold. apply returns_only_bind. intros res.
    assert (Hgo : returns_only
      (λ ans, (ans = (None, None, None, None) ∧ solver = LU_PARTIAL)
              ∨ ∃ bst, ans = best_answer (Some bst))
      (bind (if decide (verbose = 1) then
               print (PrintIter i (tmean (r_pri res)) (tmean (r_dual res))
                                  (tmean (r_mu res)))
             else ret ()) (λ _,
         bind (track_best neq (r_resids res) cur best k) (λ '(bst, k'),
           if should_stop k' notImprovedLim bst eps (r_mu res)
           then warn_and_return bst verbose
           else
             bind (direction B alt_kkt Q G A F Q_LU S_LU eps solver
                     (bmap2 fdiv (it_z cur) (it_s cur))
                     (r_x res) (r_s res) (r_z res) (r_y res)) (λ aff,
               bind (advance B alt_kkt Q G A F Q_LU S_LU eps solver nineq nz neq
                       nBatch cur (bmap2 fdiv (it_z cur) (it_s cur)) (r_mu res) aff)
                 (λ next,
                   loop B alt_kkt Q p G h A b F Q_LU S_LU R eps verbose
                        notImprovedLim solver nineq nz neq nBatch
                        n (S i) next (Some bst) k')))))).
    { apply returns_only_bind. intros _. apply returns_only_bind. intros [bst k'].
      destruct (should_stop k' notImprovedLim bst eps (r_mu res)).
      - apply returns_only_warn_and_return. right. now exists bst.
      - apply returns_only_bind. intros aff. apply returns_only_bind. intros next.
        apply IH. }
    destruct (decide (solver = LU_PARTIAL)) as [Hs|Hs].
    + apply returns_only_bind. intros [|]; cbn [negb]; [exact Hgo|].
      apply returns_only_ret. destruct best as [bst|].
      * right. now exists bst.
      * left. split; [reflexivity | exact Hs].
    + intros w ans w' Hrun. exact (Hgo w ans w' Hrun).
Qed.

(** X3: [forward] returns all or nothing.  What it returns is either
    [(None, None, None, None)], and then the strategy is the partial
    one, whose factorization has failed, or a recorded iterate, of
    which [x], [z] and [s] are tensors. *)
Theorem forward_all_or_nothing (B : backend)
    (alt_kkt : KKTSolvers → bmat → bmat → option bmat → option bmat →
               fval → bvec → bvec → bvec → bvec → option bvec → M dirs)
    (Q : bmat) (p : bvec) (G : bmat) (h : bvec)
    (A : option bmat) (b : option bvec) (F : option bmat) (Q_LU S_LU R : loc)
    (eps : fval) (verbose notImprovedLim maxIter : Z) (solver : KKTSolvers)
    (w w' : world) (x y z s : option bvec) :
  forward B alt_kkt Q p G h A b F Q_LU S_LU R eps verbose notImprovedLim maxIter
          solver w = (Ok (x, y, z, s), w') →
  (x = None ∧ y = None ∧ z = None ∧ s = None ∧ solver = LU_PARTIAL)
  ∨ (is_Some x ∧ is_Some z ∧ is_Some s).
Proof.
  intros Hrun.
  assert (H : (λ ans : answer,
                 (ans = (None, None, None, None) ∧ solver = LU_PARTIAL)
                 ∨ ∃ bst, ans = best_answer (Some bst)) (x, y, z, s)).
  { revert Hrun. generalize (x, y, z, s). intros ans. revert w ans w'.
    change (returns_only
      (λ ans : answer, (ans = (None, None, None, None) ∧ solver = LU_PARTIAL)
                       ∨ ∃ bst, ans = best_answer (Some bst))
      (forward B alt_kkt Q p G h A b F Q_LU S_LU R eps verbose notImprovedLim
               maxIter solver)).
    unfold forward. apply returns_only_bind. intros [[[nineq nz] neq] nBatch].
    apply returns_only_bind. intros init.
    apply returns_only_bind. intros s0. apply returns_only_bind. intros z0.
    apply loop_returns. }
  cbv beta in H. destruct H as [[[= -> -> -> ->] Hs]|[bst [= -> -> -> ->]]].
  - left. repeat split. exact Hs.
  - right. repeat split; eexists; reflexivity.
Qed.

Lemma forward_all_or_nothing_witness :
  let run := forward OneByOne.B OneByOne.no_alt [[[F1]]] [[F1]] [[[F1]]] [[F1]]
               None None (Some [[[F0]]]) 1%positive 2%positive 3%positive
               OneByOne.eps_default 0 3 2 LU_PARTIAL OneByOne.cached in
  let ans := OneByOne.value (None, None, None, None) run in
  (ans.1.1.1 = None ∧ ans.1.1.2 = None ∧ ans.1.2 = None ∧ ans.2 = None
   ∧ LU_PARTIAL = LU_PARTIAL)
  ∨ (is_Some ans.1.1.1 ∧ is_Some ans.1.2 ∧ is_Some ans.2).
Proof.
  intros run ans.
  apply (forward_all_or_nothing OneByOne.B OneByOne.no_alt [[[F1]]] [[F1]]
           [[[F1]]] [[F1]] None None (Some [[[F0]]]) 1%positive 2%positive
           3%positive OneByOne.eps_default 0 3 2 LU_PARTIAL OneByOne.cached run.2
           ans.1.1.1 ans.1.1.2 ans.1.2 ans.2).
  run.
Defined.

(** X2: without an iteration to run, [maxIter <= 0], a call whose first
    solve and shifts succeed, on a batch of one element, does not
    return the first iterate: the maximum of the best residual, which
    is still [None], is taken at line 339, and [forward] raises the
    attribute error.  On a batch on which a shift fails it raises
    [IndexError] before. *)
Theorem forward_without_iterations (B : backend)
    (alt_kkt : KKTSolvers → bmat → bmat → option bmat → option bmat →
               fval → bvec → bvec → bvec → bvec → option bvec → M dirs)
    (Q : bmat) (p : bvec) (G : bmat) (h : bvec)
    (A : option bmat) (b : option bvec) (F : option bmat) (Q_LU S_LU R : loc)
    (eps : fval) (verbose notImprovedLim maxIter : Z) (solver : KKTSolvers)
    (nineq nz neq nBatch : nat) (w w1 : world) (init : iterate) :
  maxIter ≤ 0 →
  get_sizes G A = Ok (nineq, nz, neq, nBatch) →
  initial_iterate B alt_kkt Q p G h A b F Q_LU S_LU R eps solver nineq neq nBatch w
  = (Ok init, w1) →
  forward B alt_kkt Q p G h A b F Q_LU S_LU R eps verbose notImprovedLim maxIter
          solver w
  = (Raise (match shift_positive nineq (it_s init),
                  shift_positive nineq (it_z init) with
            | Ok _, Ok _ => AttributeError
            | _, _ => IndexError
            end), w1).
Proof.
  intros Hmax Hsz Hinit.
  destruct (shift_positive nineq (it_s init)) as [s|e] eqn:Hss.
  - destruct (shift_positive nineq (it_z init)) as [z|e] eqn:Hsh.
    + rewrite (forward_reaches_loop B alt_kkt Q p G h A b F Q_LU S_LU R eps
                 verbose notImprovedLim solver nineq nz neq nBatch maxIter
                 w w1 init s z Hsz Hinit Hss Hsh).
      replace (Z.to_nat maxIter) with 0%nat by lia. reflexivity.
    + apply (forward_shift_fails B alt_kkt Q p G h A b F Q_LU S_LU R eps
               verbose notImprovedLim solver nineq nz neq nBatch maxIter
               w w1 init Hsz Hinit).
      right. rewrite Hsh. f_equal. revert Hsh. unfold shift_positive.
      destruct (it_z init) as [|row [|row' rest]]; try (now intros [= <-]).
      destruct (decide (length row = nineq)); [discriminate | now intros [= <-]].
  - assert (He : e = IndexError).
    { revert Hss. unfold shift_positive.
      destruct (it_s init) as [|row [|row' rest]]; try (now intros [= <-]).
      destruct (decide (length row = nineq)); [discriminate | now intros [= <-]]. }
    subst e.
    apply (forward_shift_fails B alt_kkt Q p G h A b F Q_LU S_LU R eps
             verbose notImprovedLim solver nineq nz neq nBatch maxIter
             w w1 init Hsz Hinit).
    now left.
Qed.

Lemma forward_without_iterations_witness :
  let run := initial_iterate OneByOne.B OneByOne.no_alt [[[F1]]] [[F1]] [[[F1]]]
               [[F1]] None None (Some [[[F0]]]) 1%positive 2%positive 3%positive
               OneByOne.eps_default LU_PARTIAL 1 0 1 OneByOne.cached in
  forward OneByOne.B OneByOne.no_alt [[[F1]]] [[F1]] [[[F1]]] [[F1]]
          None None (Some [[[F0]]]) 1%positive 2%positive 3%positive
          OneByOne.eps_default 0 3 0 LU_PARTIAL OneByOne.cached
  = (Raise AttributeError, run.2).
Proof.
  intros run.
  apply (forward_without_iterations OneByOne.B OneByOne.no_alt [[[F1]]] [[F1]]
           [[[F1]]] [[F1]] None None (Some [[[F0]]]) 1%positive 2%positive
           3%positive OneByOne.eps_default 0 3 0 LU_PARTIAL 1 1 0 1
           OneByOne.cached run.2 (OneByOne.value (Iterate [] [] [] None) run)).
  - lia.
  - reflexivity.
  - run.
Defined.

(** ** The best iterate and the stall counter *)

Lemma select_rows_lookup {A} (I : list bool) (new old : list A) j r :
  select_rows I new old !! j = Some r →
  ∃ (i : bool) a c, I !! j = Some i ∧ new !! j = Some a ∧ old !! j = Some c
                    ∧ r = if i then a else c.
Proof.
  unfold select_rows. intros H.
  apply lookup_zip_with_Some in H as (i & [a c] & -> & Hi & Hz).
  apply lookup_zip_Some in Hz as [Ha Hc]. cbn [fst snd] in *.
  now exists i, a, c.
Qed.

Lemma select_rows_unchanged {A} (I : list bool) (new old : list A) :
  true ∉ I → (length old ≤ length I)%nat → (length old ≤ length new)%nat →
  select_rows I new old = old.
Proof.
  unfold select_rows. revert new old.
  induction I as [|i I IH]; intros new old Hno HI Hnew.
  - destruct old; [reflexivity | cbn in HI; lia].
  - destruct old as [|c old]; [now destruct new|].
    destruct new as [|a new]; [cbn in Hnew; lia|].
    cbn [zip zip_with fst snd]. destruct i.
    + exfalso. apply Hno. left.
    + f_equal. apply IH.
      * intros Hin. apply Hno. now right.
      * cbn in HI. lia.
      * cbn in Hnew. lia.
Qed.

Lemma count_occ_true_pos (I : list bool) :
  (0 < count_occ bool_eq_dec I true)%nat ↔ true ∈ I.
Proof.
  split; intros H.
  - apply list_elem_of_In, (count_occ_In bool_eq_dec). exact H.
  - apply (count_occ_In bool_eq_dec), list_elem_of_In, H.
Qed.

Lemma track_best_resids neq resids cur bst k w bst' k' w' :
  track_best neq resids cur (Some bst) k w = (Ok (bst', k'), w') →
  best_resids bst'
  = select_rows (zip_with flt resids (best_resids bst)) resids (best_resids bst)
  ∧ k' = (if decide (0 < count_occ bool_eq_dec
                          (zip_with flt resids (best_resids bst)) true)%nat
          then 0%nat else S k).
Proof.
  unfold track_best, bind. destruct (decide (0 < neq)%nat).
  - destruct (best_y bst); cbn [the ret raise]; [|discriminate].
    destruct (it_y cur); cbn [the ret raise]; [|discriminate].
    intros [= <- <- _]. split; reflexivity.
  - cbn [ret]. intros [= <- <- _]. split; reflexivity.
Qed.

(** X8: the best residual of a batch element never gets worse.  After
    the bookkeeping of lines 207-228 the recorded residual of every
    batch element is the one recorded before or one that compares
    strictly below it. *)
Theorem track_best_never_worse (neq : nat) (resids : vec) (cur : iterate)
    (bst bst' : best_iterate) (k k' : nat) (w w' : world) (j : nat) (r' : fval) :
  track_best neq resids cur (Some bst) k w = (Ok (bst', k'), w') →
  best_resids bst' !! j = Some r' →
  ∃ r, best_resids bst !! j = Some r ∧ (r' = r ∨ flt r' r = true).
Proof.
  intros Hrun Hj. apply track_best_resids in Hrun as [E _]. rewrite E in Hj.
  apply select_rows_lookup in Hj as (i & a & c & Hi & Ha & Hc & ->).
  exists c. split; [exact Hc|].
  apply lookup_zip_with_Some in Hi as (a' & c' & -> & Ha' & Hc').
  rewrite Ha in Ha'. rewrite Hc in Hc'. injection Ha' as <-. injection Hc' as <-.
  destruct (flt a c) eqn:Hlt; [now right | now left].
Qed.

Lemma track_best_never_worse_witness :
  let cur := Iterate [[F1]; [F1]] [[F1]; [F1]] [[F1]; [F1]] None in
  let bst := Best [Fin 2; Fin 3] [[F0]; [F0]] [[F0]; [F0]] [[F0]; [F0]] None in
  let run := track_best 0 [Fin 5; Fin 1] cur (Some bst) 0 OneByOne.empty_world in
  ∃ r, best_resids bst !! 1%nat = Some r ∧ (Fin 1 = r ∨ flt (Fin 1) r = true).
Proof.
  intros cur bst run.
  apply (track_best_never_worse 0 [Fin 5; Fin 1] cur bst
           (OneByOne.value (bst, 0%nat) run).1 0 (OneByOne.value (bst, 0%nat) run).2
           OneByOne.empty_world run.2 1 (Fin 1)).
  - run.
  - run.
Defined.

(** X9: the stall counter counts the iterations that change nothing.
    For tensors of [nBatch] rows, either no residual is strictly below
    the recorded one, the counter is incremented and the record is
    left as it is, or some residual is, the counter is reset to zero. *)
Theorem track_best_stall_counter (nBatch neq : nat) (resids : vec) (cur : iterate)
    (bst bst' : best_iterate) (k k' : nat) (w w' : world) :
  length resids = nBatch →
  length (best_resids bst) = nBatch →
  length (it_x cur) = nBatch → length (best_x bst) = nBatch →
  length (it_z cur) = nBatch → length (best_z bst) = nBatch →
  length (it_s cur) = nBatch → length (best_s bst) = nBatch →
  (∀ y, it_y cur = Some y → length y = nBatch) →
  (∀ y, best_y bst = Some y → length y = nBatch) →
  track_best neq resids cur (Some bst) k w = (Ok (bst', k'), w') →
  (k' = S k ∧ bst' = bst
   ∧ ∀ j new old, resids !! j = Some new → best_resids bst !! j = Some old →
       flt new old = false)
  ∨ (k' = 0%nat
     ∧ ∃ j new old, resids !! j = Some new ∧ best_resids bst !! j = Some old
         ∧ flt new old = true ∧ best_resids bst' !! j = Some new).
Proof.
  intros Lr Lb Lx Lbx Lz Lbz Ls Lbs Ly Lby Hrun.
  pose proof (track_best_resids _ _ _ _ _ _ _ _ _ Hrun) as [Er Ek].
  set (I := zip_with flt resids (best_resids bst)) in *.
  assert (LI : length I = nBatch)
    by (unfold I; rewrite length_zip_with; lia).
  destruct (decide (0 < count_occ bool_eq_dec I true)%nat) as [Hpos|Hnone].
  - right. split; [exact Ek|].
    apply count_occ_true_pos, list_elem_of_lookup in Hpos as [j Hj].
    pose proof Hj as Hj'. unfold I in Hj'.
    apply lookup_zip_with_Some in Hj' as (new & old & Hlt & Hnew & Hold).
    exists j, new, old. split; [exact Hnew|]. split; [exact Hold|].
    split; [now symmetry|]. rewrite Er. unfold select_rows.
    rewrite lookup_zip_with, Hj. cbn [mbind option_bind].
    rewrite lookup_zip_with, Hnew. cbn [mbind option_bind]. rewrite Hold.
    reflexivity.
  - left. split; [exact Ek|].
    assert (Hno : true ∉ I) by (intros Hin; apply Hnone, count_occ_true_pos, Hin).
    split.
    + revert Hrun. unfold track_best, bind. fold I.
      assert (Hsel : ∀ (X : Type) (new old : list X),
                length new = nBatch → length old = nBatch →
                select_rows I new old = old).
      { intros X new old Hn Ho. apply select_rows_unchanged; [exact Hno | lia | lia]. }
      rewrite !Hsel by assumption.
      destruct (decide (0 < neq)%nat).
      * destruct (best_y bst) as [by0|] eqn:Eby; cbn [the ret raise]; [|discriminate].
        destruct (it_y cur) as [y|] eqn:Ey; cbn [the ret raise]; [|discriminate].
        rewrite Hsel by auto. intros [= <- _ _]. destruct bst. cbn in *. now subst.
      * cbn [ret]. intros [= <- _ _]. now destruct bst.
    + intros j new old Hnew Hold.
      destruct (flt new old) eqn:Hlt; [|reflexivity].
      exfalso. apply Hno. apply list_elem_of_lookup. exists j. unfold I.
      rewrite lookup_zip_with, Hnew. cbn [mbind option_bind]. rewrite Hold.
      cbn [mbind option_bind]. now rewrite Hlt.
Qed.

Lemma track_best_stall_counter_witness :
  let cur := Iterate [[F1]; [F1]] [[F1]; [F1]] [[F1]; [F1]] None in
  let bst := Best [Fin 2; Fin 3] [[F0]; [F0]] [[F0]; [F0]] [[F0]; [F0]] None in
  let run := track_best 0 [Fin 5; Fin 3] cur (Some bst) 4 OneByOne.empty_world in
  let out := OneByOne.value (bst, 0%nat) run in
  (out.2 = 5%nat ∧ out.1 = bst
   ∧ ∀ j new old, [Fin 5; Fin 3] !! j = Some new → best_resids bst !! j = Some old →
       flt new old = false)
  ∨ (out.2 = 0%nat
     ∧ ∃ j new old, [Fin 5; Fin 3] !! j = Some new ∧ best_resids bst !! j = Some old
         ∧ flt new old = true ∧ best_resids out.1 !! j = Some new).
Proof.
  intros cur bst run out.
  apply (track_best_stall_counter 2 0 [Fin 5; Fin 3] cur bst out.1 4 out.2
           OneByOne.empty_world run.2);
    try reflexivity; try discriminate.
Defined.

(** ** The factorizations and the state *)

Lemma bind_ok_inv {A C} (m : M A) (f : A → M C) w c w' :
  bind m f w = (Ok c, w') → ∃ a w1, m w = (Ok a, w1) ∧ f a w1 = (Ok c, w').
Proof.
  unfold bind. destruct (m w) as [[a|e] w1]; [|discriminate].
  intros H. now exists a, w1.
Qed.

Lemma btrifact_hack_eye B x w r w' :
  btrifact_hack B x w = (r, w') → factor_kkt_eye w' = factor_kkt_eye w.
Proof.
  unfold btrifact_hack.
  destruct (btrifact_pivot B (negb (is_cuda B)) x) as [f|[]]; unfold lift;
    try (intros [= <- <-]; reflexivity).
  unfold bind, get_shown. destruct (shown_btrifact_warning w); cbn;
    intros [= <- <-]; reflexivity.
Qed.

(** X19: the cached mask of [factor_kkt] is never reused.  Whatever mask
    an earlier call has left, of the right shape or not, a call that
    finds a factorization at [S_LU] leaves the batched identity of the
    shape of its own [d]: the comparison of line 849 is between a size
    of three dimensions and one of two. *)
Theorem factor_kkt_rebuilds_mask (B : backend) (S_LU R : loc) (d : bvec)
    (S : lu) (w w' : world) (r : result unit) :
  heap w !! S_LU = Some (OLU S) →
  factor_kkt B S_LU R d w = (r, w') →
  factor_kkt_eye w' = Some (batched_eye (length d) (length (hd [] d))).
Proof.
  intros HS. unfold factor_kkt.
  unfold bind at 1. unfold read_lu at 1. rewrite HS.
  unfold bind at 1. unfold get_eye at 1.
  set (Rel := λ w1 w2 : world, factor_kkt_eye w2 = factor_kkt_eye w1).
  assert (Hrefl : ∀ w1, Rel w1 w1) by reflexivity.
  assert (Htrans : ∀ w1 w2 w3, Rel w1 w2 → Rel w2 w3 → Rel w1 w3)
    by (unfold Rel; congruence).
  assert (Hb : ∀ x, keeps Rel (btrifact_hack B x))
    by (intros x w1 r1 w2 H; exact (btrifact_hack_eye _ _ _ _ _ H)).
  assert (Hu : ∀ f, keeps Rel (update_lu S_LU f)).
  { intros f w1 r1 w2. unfold update_lu.
    destruct (heap w1 !! S_LU) as [[y|t]|]; intros [= <- <-]; reflexivity. }
  assert (Hset : ∀ (k : list (list (list bool)) → M unit),
    (∀ mask, keeps Rel (k mask)) →
    bind (bind (set_eye (batched_eye (length d) (length (hd [] d))))
            (λ _, ret (batched_eye (length d) (length (hd [] d))))) k w = (r, w') →
    factor_kkt_eye w' = Some (batched_eye (length d) (length (hd [] d)))).
  { intros k Hk. unfold bind at 1. unfold bind at 1. unfold set_eye at 1.
    unfold ret at 1. intros H. now rewrite (Hk _ _ _ _ H). }
  destruct (factor_kkt_eye w) as [e|].
  - destruct (decide (size3 e ≠ size2 d)) as [_|Heq];
      [|exfalso; apply Heq, size3_ne_size2].
    apply Hset. intros mask. keeps_auto.
  - apply Hset. intros mask. keeps_auto.
Qed.

Lemma factor_kkt_rebuilds_mask_witness :
  let w := World (heap OneByOne.cached) false (Some [[[true]; [true]]]) [] in
  let run := factor_kkt OneByOne.B 2%positive 3%positive [[F1]] w in
  factor_kkt_eye run.2 = Some (batched_eye 1 1).
Proof.
  intros w run.
  apply (factor_kkt_rebuilds_mask OneByOne.B 2%positive 3%positive [[F1]]
           ([[[F0]]], [[1]]) w run.2 run.1).
  - run.
  - run.
Defined.

Lemma try_except_heap {A} (m h : M A) :
  keeps (λ w w', heap w' = heap w) m → keeps (λ w w', heap w' = heap w) h →
  keeps (λ w w', heap w' = heap w) (try_except m h).
Proof. apply keeps_try_except. congruence. Qed.

(** X17: [pre_factor_kkt] creates its three objects and touches nothing
    else.  The references it returns are pairwise distinct, none of
    them was in use before the call, and every other object of the
    heap is what it was. *)
Theorem pre_factor_kkt_allocates (B : backend) (Q G : bmat) (F A : option bmat)
    (w w' : world) (Q_LU S_LU R : loc) :
  pre_factor_kkt B Q G F A w = (Ok (Q_LU, S_LU, R), w') →
  heap w !! Q_LU = None ∧ heap w !! S_LU = None ∧ heap w !! R = None
  ∧ Q_LU ≠ S_LU ∧ S_LU ≠ R ∧ Q_LU ≠ R
  ∧ ∀ l, l ≠ Q_LU → l ≠ S_LU → l ≠ R → heap w' !! l = heap w !! l.
Proof.
  set (Rel := λ w1 w2 : world, heap w2 = heap w1).
  assert (Hrefl : ∀ w1, Rel w1 w1) by reflexivity.
  assert (Htrans : ∀ w1 w2 w3, Rel w1 w2 → Rel w2 w3 → Rel w1 w3)
    by (unfold Rel; congruence).
  assert (Hb : ∀ x, keeps Rel (btrifact_hack B x))
    by (intros x w1 r1 w2 H; exact (btrifact_hack_heap _ _ _ _ _ H)).
  assert (Halloc : ∀ o1 o2 o3 w0,
    bind (alloc o1) (λ l1, bind (alloc o2) (λ l2,
      bind (alloc o3) (λ l3, ret (l1, l2, l3)))) w0 = (Ok (Q_LU, S_LU, R), w') →
    heap w0 !! Q_LU = None ∧ heap w0 !! S_LU = None ∧ heap w0 !! R = None
    ∧ Q_LU ≠ S_LU ∧ S_LU ≠ R ∧ Q_LU ≠ R
    ∧ ∀ l, l ≠ Q_LU → l ≠ S_LU → l ≠ R → heap w' !! l = heap w0 !! l).
  { intros o1 o2 o3 w0. unfold bind.
    destruct (alloc_spec o1 w0) as (l1 & -> & H1).
    match goal with |- context [alloc o2 ?w1] =>
      destruct (alloc_spec o2 w1) as (l2 & -> & H2) end.
    match goal with |- context [alloc o3 ?w2] =>
      destruct (alloc_spec o3 w2) as (l3 & -> & H3) end.
    cbn [heap] in *. intros [= -> -> -> <-]. cbn [heap].
    assert (S_LU ≠ Q_LU) by (intros ->; rewrite lookup_insert_eq in H2; discriminate).
    assert (R ≠ S_LU) by (intros ->; rewrite lookup_insert_eq in H3; discriminate).
    assert (R ≠ Q_LU).
    { intros ->. rewrite lookup_insert_ne, lookup_insert_eq in H3 by done.
      discriminate. }
    rewrite lookup_insert_ne in H2 by done.
    rewrite !lookup_insert_ne in H3 by done.
    repeat (split; [done|]).
    intros l ? ? ?. now rewrite !lookup_insert_ne by done. }
  unfold pre_factor_kkt. intros Hrun.
  apply bind_ok_inv in Hrun as ([[[nineq nz] neq] nBatch] & w1 & H1 & Hrun).
  injection H1 as _ <-.
  apply bind_ok_inv in Hrun as (qlu & w2 & H2 & Hrun).
  assert (E2 : heap w2 = heap w).
  { revert H2. apply (keeps_try_except Rel Htrans); [apply Hb|].
    now apply keeps_raise. }
  apply bind_ok_inv in Hrun as (f & w3 & H3 & Hrun).
  assert (E3 : heap w3 = heap w2).
  { revert H3. now apply (keeps_the Rel Hrefl). }
  apply bind_ok_inv in Hrun as ([[sd sp] r0] & w4 & H4 & Hrun).
  assert (E4 : heap w4 = heap w3).
  { revert H4. match goal with |- ?m w3 = _ → _ => assert (Hk : keeps Rel m) end.
    { keeps_auto. }
    apply Hk. }
  apply Halloc in Hrun. rewrite E4, E3, E2 in Hrun. exact Hrun.
Qed.

Lemma pre_factor_kkt_allocates_witness :
  let run := pre_factor_kkt OneByOne.B [[[F1]]] [[[F1]]] (Some [[[F0]]]) None
               OneByOne.cached in
  let ls := OneByOne.value (1%positive, 1%positive, 1%positive) run in
  heap OneByOne.cached !! ls.1.1 = None ∧ heap OneByOne.cached !! ls.1.2 = None
  ∧ heap OneByOne.cached !! ls.2 = None
  ∧ ls.1.1 ≠ ls.1.2 ∧ ls.1.2 ≠ ls.2 ∧ ls.1.1 ≠ ls.2
  ∧ ∀ l, l ≠ ls.1.1 → l ≠ ls.1.2 → l ≠ ls.2 →
      heap run.2 !! l = heap OneByOne.cached !! l.
Proof.
  intros run ls.
  apply (pre_factor_kkt_allocates OneByOne.B [[[F1]]] [[[F1]]] (Some [[[F0]]]) None
           OneByOne.cached run.2 ls.1.1 ls.1.2 ls.2).
  run.
Defined.

(** X18: [pre_factor_kkt] needs the coupling block that [forward] does
    without.  With [F = None] and a [Q] that can be factored it raises
    the type error of the sum at line 807, after the factorization of
    [Q] and whatever that has printed, and creates no object. *)
Theorem pre_factor_kkt_requires_F (B : backend) (Q G : bmat) (A : option bmat)
    (ns : nat * nat * nat * nat) (qlu : lu) (w w1 : world) :
  get_sizes G A = Ok ns →
  btrifact_hack B Q w = (Ok qlu, w1) →
  pre_factor_kkt B Q G None A w = (Raise TypeError, w1)
  ∧ heap w1 = heap w.
Proof.
  intros Hsz Hq. split; [|exact (btrifact_hack_heap _ _ _ _ _ Hq)].
  unfold pre_factor_kkt, bind at 1, lift. rewrite Hsz.
  destruct ns as [[[nineq nz] neq] nBatch]. cbv beta iota.
  unfold bind at 1, try_except. rewrite Hq. reflexivity.
Qed.

Lemma pre_factor_kkt_requires_F_witness :
  pre_factor_kkt OneByOne.B [[[F1]]] [[[F1]]] None None OneByOne.empty_world
  = (Raise TypeError, OneByOne.empty_world)
  ∧ heap OneByOne.empty_world = heap OneByOne.empty_world.
Proof.
  apply (pre_factor_kkt_requires_F OneByOne.B [[[F1]]] [[[F1]]] None
           (1, 1, 0, 1)%nat ([[[F1]]], [[1]]) OneByOne.empty_world
           OneByOne.empty_world).
  - reflexivity.
  - run.
Defined.

(** ** The warning about pivoting *)

Lemma btrifact_hack_output B x w r w' :
  btrifact_hack B x w = (r, w') →
  (stdout w' = stdout w ∧ shown_btrifact_warning w' = shown_btrifact_warning w)
  ∨ (shown_btrifact_warning w = false ∧ shown_btrifact_warning w' = true
     ∧ stdout w' = stdout w ++ [PrintStr BTRIFACT_WARNING]).
Proof.
  unfold btrifact_hack.
  destruct (btrifact_pivot B (negb (is_cuda B)) x) as [f|[]]; unfold lift;
    try (intros [= <- <-]; now left).
  unfold bind, get_shown. destruct (shown_btrifact_warning w) eqn:E; cbn.
  - intros [= <- <-]. now left.
  - intros [= <- <-]. right. cbn. auto.
Qed.

Lemma factor_all_quiet B xs : ∀ w,
  shown_btrifact_warning w = true →
  stdout (factor_all B xs w) = stdout w.
Proof.
  unfold factor_all. induction xs as [|x xs IH]; intros w Hw; [reflexivity|].
  cbn [foldl]. destruct (btrifact_hack B x w) as [r w1] eqn:E. cbn [snd].
  destruct (btrifact_hack_output _ _ _ _ _ E) as [[Ho Hs]|(Hf & _)].
  - rewrite IH by congruence. exact Ho.
  - congruence.
Qed.

(** X1: the warning about pivoting is printed at most once.  However
    many matrices are factored one after the other, and whether the
    factorizations succeed or raise, what is printed in all is nothing,
    or one copy of the warning, and then the flag was not yet set. *)
Theorem pivot_warning_at_most_once (B : backend) (xs : list bmat) (w : world) :
  stdout (factor_all B xs w) = stdout w
  ∨ (shown_btrifact_warning w = false
     ∧ stdout (factor_all B xs w) = stdout w ++ [PrintStr BTRIFACT_WARNING]).
Proof.
  revert w. induction xs as [|x xs IH]; intros w; [now left|].
  change (factor_all B (x :: xs) w)
    with (factor_all B xs (btrifact_hack B x w).2).
  destruct (btrifact_hack B x w) as [r w1] eqn:E. cbn [snd].
  destruct (btrifact_hack_output _ _ _ _ _ E) as [[Ho Hs]|(Hf & Ht & Ho)].
  - destruct (IH w1) as [H|[Hf H]].
    + left. congruence.
    + right. split; [congruence|]. now rewrite H, Ho.
  - right. split; [exact Hf|]. now rewrite (factor_all_quiet B xs w1 Ht).
Qed.

(** ** Packing and unpacking a direction *)

Lemma unpack_row (rx rs rz ry : vec) (nz nineq neq : nat) :
  length rx = nz → length rs = nineq → length rz = nineq → length ry = neq →
  let row := ((rx ++ rs) ++ rz) ++ ry in
  take nz (drop 0 row) = rx
  ∧ take nineq (drop (0 + nz) row) = rs
  ∧ take nineq (drop (0 + nz + nineq) row) = rz
  ∧ take neq (drop (0 + nz + nineq + nineq) row) = ry.
Proof.
  intros Hx Hs Hz Hy row. unfold row. rewrite <- !app_assoc.
  split; [|split; [|split]].
  - rewrite drop_0. now apply take_app_length'.
  - rewrite drop_app_length' by lia. now apply take_app_length'.
  - rewrite !app_assoc, <- (app_assoc (rx ++ rs)).
    rewrite drop_app_length' by (rewrite length_app; lia).
    now apply take_app_length'.
  - rewrite !app_assoc.
    rewrite drop_app_length' by (rewrite !length_app; lia).
    apply take_ge. lia.
Qed.

(** X12: unpacking undoes packing.  For four blocks of the same number
    of rows, whose rows have [nz], [nineq], [nineq] and [neq] entries,
    [unpack_kkt] gives back the blocks from their concatenation along
    the columns. *)
Theorem unpack_kkt_cat (x s z y : bvec) (nz nineq neq : nat) :
  Forall (λ r, length r = nz) x → Forall (λ r, length r = nineq) s →
  Forall (λ r, length r = nineq) z → Forall (λ r, length r = neq) y →
  length s = length x → length z = length x → length y = length x →
  unpack_kkt (cat1 (cat1 (cat1 x s) z) y) nz nineq neq = (x, s, z, y).
Proof.
  intros Hx Hs Hz Hy Ls Lz Ly.
  assert (H : cols_range 0 nz (cat1 (cat1 (cat1 x s) z) y) = x
            ∧ cols_range (0 + nz) nineq (cat1 (cat1 (cat1 x s) z) y) = s
            ∧ cols_range (0 + nz + nineq) nineq (cat1 (cat1 (cat1 x s) z) y) = z
            ∧ cols_range (0 + nz + nineq + nineq) neq
                (cat1 (cat1 (cat1 x s) z) y) = y).
  { revert s z y Hs Hz Hy Ls Lz Ly.
    induction Hx as [|rx x Hrx _ IH]; intros s z y Hs Hz Hy Ls Lz Ly.
    - destruct s, z, y; try discriminate. repeat split.
    - destruct Hs as [|rs s Hrs Hs]; [discriminate|].
      destruct Hz as [|rz z Hrz Hz]; [discriminate|].
      destruct Hy as [|ry y Hry Hy]; [discriminate|].
      cbn [length] in Ls, Lz, Ly.
      destruct (IH s z y Hs Hz Hy ltac:(lia) ltac:(lia) ltac:(lia))
        as (I1 & I2 & I3 & I4).
      destruct (unpack_row rx rs rz ry nz nineq neq Hrx Hrs Hrz Hry)
        as (E1 & E2 & E3 & E4).
      cbv zeta in E1, E2, E3, E4.
      unfold cols_range, cat1 in *. cbn [zip_with map].
      rewrite E1, E2, E3, E4, I1, I2, I3, I4. repeat split. }
  destruct H as (E1 & E2 & E3 & E4). unfold unpack_kkt. cbv zeta.
  now rewrite E1, E2, E3, E4.
Qed.

Lemma unpack_kkt_cat_witness :
  unpack_kkt (cat1 (cat1 (cat1 [[F1]; [F0]] [[Fin 2]; [Fin 3]]) [[Fin 4]; [Fin 5]])
                   [[]; []]) 1 1 0
  = ([[F1]; [F0]], [[Fin 2]; [Fin 3]], [[Fin 4]; [Fin 5]], [[]; []]).
Proof.
  apply (unpack_kkt_cat [[F1]; [F0]] [[Fin 2]; [Fin 3]] [[Fin 4]; [Fin 5]]
           [[]; []] 1 1 0); repeat constructor.
Defined.

(** X13: packing undoes unpacking.  A tensor whose rows have
    [nz + 2 nineq + neq] entries is the concatenation of the four
    blocks [unpack_kkt] cuts it into: no entry is lost and none is
    used twice. *)
Theorem cat_unpack_kkt (v : bvec) (nz nineq neq : nat) :
  Forall (λ r, length r = (nz + nineq + nineq + neq)%nat) v →
  let '(x, s, z, y) := unpack_kkt v nz nineq neq in
  cat1 (cat1 (cat1 x s) z) y = v.
Proof.
  intros Hv. unfold unpack_kkt, cols_range, cat1.
  induction Hv as [|r v Hr _ IH]; [reflexivity|].
  cbn [map zip_with]. f_equal; [|exact IH].
  cbn [Nat.add]. rewrite drop_0.
  pose proof (take_drop nz r) as E1.
  pose proof (take_drop nineq (drop nz r)) as E2.
  pose proof (take_drop nineq (drop (nz + nineq) r)) as E3.
  rewrite drop_drop in E2, E3.
  assert (E4 : take neq (drop (nz + nineq + nineq) r) = drop (nz + nineq + nineq) r)
    by (apply take_ge; rewrite length_drop; lia).
  rewrite E4, <- !app_assoc, E3, E2, E1. reflexivity.
Qed.

Lemma cat_unpack_kkt_witness :
  let '(x, s, z, y) := unpack_kkt [[F1; Fin 2; Fin 4]; [F0; Fin 3; Fin 5]] 1 1 0 in
  cat1 (cat1 (cat1 x s) z) y = [[F1; Fin 2; Fin 4]; [F0; Fin 3; Fin 5]].
Proof.
  apply (cat_unpack_kkt [[F1; Fin 2; Fin 4]; [F0; Fin 3; Fin 5]] 1 1 0).
  repeat constructor.
Defined.

(** ** The direction of the partial strategy *)

Lemma entry2_bmap2 (f : fval → fval → fval) (u v : bvec) j i x y :
  entry2 u j i = Some x → entry2 v j i = Some y →
  entry2 (bmap2 f u v) j i = Some (f x y).
Proof.
  unfold entry2, bmap2, vmap2. intros Hu Hv.
  destruct (u !! j) as [ru|] eqn:Eu; [|discriminate].
  destruct (v !! j) as [rv|] eqn:Ev; [|discriminate].
  cbn [mbind option_bind] in *.
  rewrite lookup_zip_with, Eu. cbn [mbind option_bind]. rewrite Ev.
  cbn [mbind option_bind]. rewrite lookup_zip_with, Hu. cbn [mbind option_bind].
  now rewrite Hv.
Qed.

Lemma entry2_bneg (u : bvec) j i x :
  entry2 u j i = Some x → entry2 (bneg u) j i = Some (fneg x).
Proof.
  unfold entry2, bneg. intros Hu.
  destruct (u !! j) as [ru|] eqn:Eu; [|discriminate].
  cbn [mbind option_bind] in *.
  rewrite lookup_map, Eu. cbn [fmap option_fmap option_map mbind option_bind].
  now rewrite lookup_map, Hu.
Qed.

Lemma solve_kkt_outcome B Q_LU d G A S_LU rx rs rz ry w dx ds dz dy w' :
  solve_kkt B Q_LU d G A S_LU rx rs rz ry w = (Ok (dx, ds, dz, dy), w') →
  w' = w
  ∧ ds = bmap2 fdiv (bmap2 fsub (bneg rs) dz) d
  ∧ ∃ nineq nz neq nBatch,
      get_sizes G A = Ok (nineq, nz, neq, nBatch)
      ∧ (dy = None ↔ neq = 0%nat).
Proof.
  unfold solve_kkt. intros Hrun.
  apply bind_ok_inv in Hrun as ([[[nineq nz] neq] nBatch] & w1 & H1 & Hrun).
  unfold lift in H1. injection H1 as Hsz <-.
  apply bind_ok_inv in Hrun as (qlu & w2 & H2 & Hrun).
  assert (w2 = w) as ->.
  { revert H2. unfold read_lu. destruct (heap w !! Q_LU) as [[?|?]|]; now inversion 1. }
  apply bind_ok_inv in Hrun as (hh & w3 & H3 & Hrun).
  assert (w3 = w) as ->.
  { revert H3. destruct (decide (0 < neq)%nat).
    - destruct A, ry; cbn; now inversion 1.
    - cbn. now inversion 1. }
  apply bind_ok_inv in Hrun as (slu & w4 & H4 & Hrun).
  assert (w4 = w) as ->.
  { revert H4. unfold read_lu. destruct (heap w !! S_LU) as [[?|?]|]; now inversion 1. }
  apply bind_ok_inv in Hrun as (g1 & w5 & H5 & Hrun).
  assert (w5 = w) as ->.
  { revert H5. destruct (decide (0 < neq)%nat).
    - destruct A; cbn; now inversion 1.
    - cbn. now inversion 1. }
  unfold ret in Hrun. injection Hrun as <- <- <- <- <-.
  split; [reflexivity|]. split; [reflexivity|].
  exists nineq, nz, neq, nBatch. split; [exact Hsz|].
  destruct (decide (0 < neq)%nat); split; intros; try discriminate; try lia;
    reflexivity.
Qed.

(** ** The strategies that factor the full system *)

Lemma fsub_as_fadd a c : fsub a c = fadd a (fneg c).
Proof.
  destruct a as [x| | |], c as [y| | |]; try reflexivity.
  cbn [fsub fadd fneg]. f_equal. apply Qred_complete.
  rewrite Qred_correct. reflexivity.
Qed.

Lemma mmap2_fsub_as_fadd (S C : bmat) :
  mmap2 fsub S C = mmap2 fadd S (map (map (map fneg)) C).
Proof.
  unfold mmap2. rewrite map_is_fmap, zip_with_fmap_r.
  apply zip_with_ext; [|reflexivity|reflexivity]. intros Sb Cb.
  unfold bmap2. rewrite map_is_fmap, zip_with_fmap_r.
  apply zip_with_ext; [|reflexivity|reflexivity]. intros r c.
  unfold vmap2. rewrite map_is_fmap, zip_with_fmap_r.
  apply zip_with_ext; [|reflexivity|reflexivity]. intros x y.
  apply fsub_as_fadd.
Qed.

Lemma factor_solve_kkt_reg_as_full B Q_tilde D G A C_tilde rx rs rz ry eps
    nineq nz neq nBatch w :
  get_sizes G A = Ok (nineq, nz, neq, nBatch) →
  factor_solve_kkt_reg B Q_tilde D G A C_tilde rx rs rz ry eps w
  = bind (kkt_A nBatch nineq neq G A) (λ A_,
      factor_solve_kkt B Q_tilde D A_ (map (map (map fneg)) C_tilde)
                       rx rs rz ry (nineq, nz, neq, nBatch)) w.
Proof.
  intros Hsz. unfold factor_solve_kkt_reg, factor_solve_kkt.
  unfold bind at 1. unfold lift. rewrite Hsz. cbv beta iota.
  unfold bind at 1 6.
  destruct (kkt_A nBatch nineq neq G A w) as [[A_|e] w1]; [|reflexivity].
  unfold bind at 1 5.
  match goal with |- context [match ?m w1 with _ => _ end] =>
    destruct (m w1) as [[[g_ h_]|e] w2]; [|reflexivity] end.
  unfold bind at 1 3.
  match goal with |- context [match ?m w2 with _ => _ end] =>
    destruct (m w2) as [[H_LU|e] w3]; [|reflexivity] end.
  rewrite mmap2_fsub_as_fadd. reflexivity.
Qed.

(** X14: [factor_solve_kkt_reg] is [factor_solve_kkt] on the negated
    regularization block.  For every problem and right-hand side it
    returns, raises, prints and leaves what [factor_solve_kkt] does on
    the constraint block [[G, I], [A, 0]] and on [-C_tilde]: the two
    functions differ in the sign with which [C_tilde] enters the Schur
    complement and in nothing else, and the argument [eps] has no
    effect. *)
Theorem factor_solve_kkt_reg_negates_C (B : backend) (Q_tilde D G : bmat)
    (A : option bmat) (C_tilde : bmat) (rx rs rz : bvec) (ry : option bvec)
    (eps : fval) (nineq nz neq nBatch : nat) (w : world) :
  get_sizes G A = Ok (nineq, nz, neq, nBatch) →
  factor_solve_kkt_reg B Q_tilde D G A C_tilde rx rs rz ry eps w
  = bind (kkt_A nBatch nineq neq G A) (λ A_,
      factor_solve_kkt B Q_tilde D A_ (map (map (map fneg)) C_tilde)
                       rx rs rz ry (nineq, nz, neq, nBatch)) w.
Proof.
  intros Hsz. unfold factor_solve_kkt_reg, factor_solve_kkt.
  unfold bind at 1. unfold lift. rewrite Hsz. cbv beta iota.
  unfold bind at 1 6.
  destruct (kkt_A nBatch nineq neq G A w) as [[A_|e] w1]; [|reflexivity].
  unfold bind at 1 5.
  match goal with |- context [match ?m w1 with _ => _ end] =>
    destruct (m w1) as [[[g_ h_]|e] w2]; [|reflexivity] end.
  unfold bind at 1 3.
  match goal with |- context [match ?m w2 with _ => _ end] =>
    destruct (m w2) as [[H_LU|e] w3]; [|reflexivity] end.
  rewrite mmap2_fsub_as_fadd. reflexivity.
Qed.

Lemma factor_solve_kkt_reg_negates_C_witness :
  factor_solve_kkt_reg OneByOne.B [[[F1]]] [[[F1]]] [[[F1]]] None [[[Fin 2]]]
    [[F1]] [[F0]] [[F1]] None F0 OneByOne.empty_world
  = bind (kkt_A 1 1 0 [[[F1]]] None) (λ A_,
      factor_solve_kkt OneByOne.B [[[F1]]] [[[F1]]] A_
        (map (map (map fneg)) [[[Fin 2]]]) [[F1]] [[F0]] [[F1]] None
        (1, 1, 0, 1)%nat) OneByOne.empty_world.
Proof.
  apply (factor_solve_kkt_reg_negates_C OneByOne.B [[[F1]]] [[[F1]]] [[[F1]]] None
           [[[Fin 2]]] [[F1]] [[F0]] [[F1]] None F0 1 1 0 1 OneByOne.empty_world).
  reflexivity.
Defined.

Lemma kkt_H_element (nz nineq : nat) (Qb Db : mat) :
  (0 < nineq)%nat → length Qb = nz → length Db = nineq →
  on_last_n nineq
    (λ rows, zip_with (λ row v, but_last_n nineq row ++ v) rows Db)
    (zip_with (λ row v, v ++ drop nz row) (take nz (zeros (nz + nineq) (nz + nineq))) Qb
     ++ drop nz (zeros (nz + nineq) (nz + nineq)))
  = map (λ r, r ++ replicate nineq F0) Qb ++ map (λ r, replicate nz F0 ++ r) Db.
Proof.
  intros Hpos HQ HD. unfold zeros.
  rewrite take_replicate_add, drop_replicate_add.
  rewrite zip_with_replicate_l by lia.
  rewrite drop_replicate_add.
  unfold on_last_n, but_last_n, last_n.
  destruct (decide (nineq = 0%nat)) as [->|_]; [lia|].
  rewrite length_app, length_fmap, length_replicate, HQ.
  replace (nz + nineq - nineq)%nat with nz by lia.
  rewrite take_app_length' by (now rewrite length_fmap).
  rewrite drop_app_length' by (now rewrite length_fmap).
  rewrite zip_with_replicate_l by lia.
  rewrite length_replicate.
  replace (nz + nineq - nineq)%nat with nz by lia.
  rewrite take_replicate_add. reflexivity.
Qed.

(** X15: the two slice assignments of lines 683-685 build the block
    diagonal matrix.  With inequality constraints, for [Q_tilde] of
    [nz] rows and [D_tilde] of [nineq] rows in each of the [nBatch]
    batch elements, [H_] is [[Q_tilde, 0], [0, D_tilde]]: the
    concatenation that the source gives in a comment. *)
Theorem kkt_H_block_diagonal (nBatch nz nineq : nat) (Q_tilde D_tilde : bmat) :
  (0 < nineq)%nat →
  length Q_tilde = nBatch → length D_tilde = nBatch →
  Forall (λ Qb, length Qb = nz) Q_tilde →
  Forall (λ Db, length Db = nineq) D_tilde →
  kkt_H nBatch nz nineq Q_tilde D_tilde
  = zip_with (λ Qb Db, map (λ r, r ++ replicate nineq F0) Qb
                       ++ map (λ r, replicate nz F0 ++ r) Db)
             Q_tilde D_tilde.
Proof.
  intros Hpos LQ LD HQ HD. unfold kkt_H, set_block22, set_block11, zeros3.
  cbv zeta. subst nBatch. revert D_tilde LD HD.
  induction HQ as [|Qb Q HQb _ IH]; intros D LD HD.
  - destruct D; [reflexivity | discriminate].
  - destruct HD as [|Db D HDb HD]; [discriminate|].
    cbn [length replicate zip_with]. f_equal.
    + now apply kkt_H_element.
    + apply IH; [|exact HD]. cbn [length] in LD. lia.
Qed.

Lemma kkt_H_block_diagonal_witness :
  kkt_H 1 1 1 [[[Fin 2]]] [[[Fin 3]]] = [[[Fin 2; F0]; [F0; Fin 3]]].
Proof.
  apply (kkt_H_block_diagonal 1 1 1 [[[Fin 2]]] [[[Fin 3]]]);
    [lia | reflexivity | reflexivity | repeat constructor | repeat constructor].
Defined.

(** ** Strict positivity of the slack and the dual *)


Lemma update_keeps_positive_witness :
  let s := [[F1; Fin 3]] in
  let z := [[Fin 2; F1]] in
  let ds := [[Fin (-2); Fin 4]] in
  let dz := [[Fin 1; Fin (-3)]] in
  let alpha := damped_alpha 1 s z ds dz in
  Forall (Forall finite_pos) (step_by 2 alpha s ds)
  ∧ Forall (Forall finite_pos) (step_by 2 alpha z dz).
Proof.
  intros s z ds dz.
  apply (update_keeps_positive 1 2 s z ds dz).
  - repeat constructor.
    + exists 1%Q, (-2)%Q. repeat split; lra.
    + exists 3%Q, 4%Q. repeat split; lra.
  - repeat constructor.
    + exists 2%Q, 1%Q. repeat split; lra.
    + exists 1%Q, (-3)%Q. repeat split; lra.
  - reflexivity.
  - unfold s. cbn [length]. lia.
  - unfold ds. repeat constructor.
  - unfold dz. repeat constructor.
Defined.

(** ** The first iterate of the partial strategy *)

Lemma entry2_replicate (n m : nat) (x : fval) j i :
  (j < n)%nat → (i < m)%nat →
  entry2 (replicate n (replicate m x)) j i = Some x.
Proof.
  intros Hj Hi. unfold entry2. rewrite lookup_replicate_2 by exact Hj.
  cbn [mbind option_bind]. now apply lookup_replicate_2.
Qed.

(** X6: before the shift of lines 167-173 the first slack of the
    partial strategy is the negative of the first dual.  Wherever the
    dual of the first solve is a rational [q], the slack is [-q]: the
    first solve has the right-hand side [rs = 0] and the reweighting
    [d = 1]. *)
Theorem initial_slack_is_minus_dual (B : backend)
    (alt_kkt : KKTSolvers → bmat → bmat → option bmat → option bmat →
               fval → bvec → bvec → bvec → bvec → option bvec → M dirs)
    (Q : bmat) (p : bvec) (G : bmat) (h : bvec)
    (A : option bmat) (b : option bvec) (F : option bmat) (Q_LU S_LU R : loc)
    (eps : fval) (nineq neq nBatch : nat) (w w' : world) (init : iterate)
    (j i : nat) (q : QArith_base.Q) :
  initial_iterate B alt_kkt Q p G h A b F Q_LU S_LU R eps LU_PARTIAL
                  nineq neq nBatch w = (Ok init, w') →
  (j < nBatch)%nat → (i < nineq)%nat →
  entry2 (it_z init) j i = Some (Fin q) →
  ∃ q', entry2 (it_s init) j i = Some (Fin q') ∧ (q' == - q)%Q.
Proof.
  unfold initial_iterate.
  destruct (decide (LU_PARTIAL = LU_PARTIAL)); [|contradiction].
  intros Hrun Hj Hi Hz.
  apply bind_ok_inv in Hrun as ([[[x s] z] y] & w1 & Hrun & Hret).
  injection Hret as <- _. cbn [it_z it_s] in *.
  apply bind_ok_inv in Hrun as (u & w2 & _ & Hrun).
  apply bind_ok_inv in Hrun as (mb & w3 & _ & Hrun).
  apply solve_kkt_outcome in Hrun as (_ & -> & _). unfold zeros, ones.
  rewrite (entry2_bmap2 fdiv _ _ j i _ _
             (entry2_bmap2 fsub _ _ j i _ _
                (entry2_bneg _ _ _ _ (entry2_replicate nBatch nineq F0 j i Hj Hi)) Hz)
             (entry2_replicate nBatch nineq F1 j i Hj Hi)).
  cbn. eexists. split; [reflexivity|]. rewrite !Qred_correct. field.
Qed.

Lemma initial_slack_is_minus_dual_witness :
  let run := initial_iterate OneByOne.B OneByOne.no_alt [[[F1]]] [[F1]] [[[F1]]]
               [[F1]] None None (Some [[[F0]]]) 1%positive 2%positive 3%positive
               OneByOne.eps_default LU_PARTIAL 1 0 1 OneByOne.cached in
  let init := OneByOne.value (Iterate [] [] [] None) run in
  ∃ q', entry2 (it_s init) 0 0 = Some (Fin q') ∧ (q' == - (-1))%Q.
Proof.
  intros run init.
  apply (initial_slack_is_minus_dual OneByOne.B OneByOne.no_alt [[[F1]]] [[F1]]
           [[[F1]]] [[F1]] None None (Some [[[F0]]]) 1%positive 2%positive
           3%positive OneByOne.eps_default 1 0 1 OneByOne.cached run.2 init 0 0).
  - run.
  - lia.
  - lia.
  - run.
Defined.

(** ** Iterative refinement and the full factorization *)

Lemma fneg_fmul_fneg c x :
  fneg (fmul (fneg (Fin c)) (Fin x)) = fmul (Fin c) (Fin x).
Proof.
  cbn [fneg fmul]. f_equal. apply Qred_complete. rewrite !Qred_correct. ring.
Qed.

Lemma fneg_fsub_scaled c x f :
  fneg (fsub (fmul (fneg (Fin c)) (Fin x)) f) = fadd (fmul (Fin c) (Fin x)) f.
Proof.
  destruct f; cbn [fneg fmul fsub fadd]; try reflexivity.
  f_equal. apply Qred_complete. rewrite !Qred_correct. ring.
Qed.

(** A slice assignment on the first [n] entries under a map. *)
Lemma block_map {X Y Z} (P : X → Prop) (N : Z → Z) (a a' : X → Z)
    (f f' : Z → Y → Z) (n : nat) (l : list X) (v : list Y) :
  (∀ x y, P x → N (f (a x) y) = f' (a' x) y) →
  (∀ x, P x → N (a x) = a' x) →
  Forall P l →
  map N (zip_with f (take n (map a l)) v ++ drop n (map a l))
  = zip_with f' (take n (map a' l)) v ++ drop n (map a' l).
Proof.
  intros Hf Ha Hl. revert n v.
  induction Hl as [|x l Hx _ IH]; intros n v.
  - cbn [map]. rewrite !take_nil, !drop_nil. reflexivity.
  - destruct n as [|n].
    + cbn [map take drop zip_with app]. f_equal; [now apply Ha|].
      specialize (IH 0%nat []). cbn [take drop zip_with app] in IH.
      rewrite !drop_0 in IH. exact IH.
    + destruct v as [|y v].
      * cbn [map take drop zip_with app]. specialize (IH n []).
        rewrite !zip_with_nil_r in IH. exact IH.
      * cbn [map take drop zip_with app]. f_equal; [now apply Hf|]. apply IH.
Qed.

Lemma eye_fin n : Forall (Forall (λ e, is_fin e = true)) (eye n).
Proof.
  unfold eye. rewrite map_is_fmap. apply Forall_fmap, Forall_forall. intros i _.
  unfold compose. rewrite map_is_fmap. apply Forall_fmap, Forall_forall.
  intros j _. unfold compose. now destruct (bool_decide (i = j)).
Qed.

Lemma scaled_eye_as_map c nBatch n :
  scaled_eye c nBatch n
  = map (map (map (fmul c))) (replicate nBatch (eye n)).
Proof. unfold scaled_eye. now rewrite map_is_fmap, fmap_replicate. Qed.

Lemma neg_scaled_row c (row : vec) :
  Forall (λ e, is_fin e = true) row →
  map fneg (map (fmul (fneg (Fin c))) row) = map (fmul (Fin c)) row.
Proof.
  induction 1 as [|e row He _ IH]; [reflexivity|].
  cbn [map]. f_equal; [|exact IH].
  destruct e; try discriminate He. apply fneg_fmul_fneg.
Qed.

Lemma neg_update_block11 c n (E F : bmat) :
  Forall (Forall (Forall (λ e, is_fin e = true))) E →
  map (map (map fneg))
    (update_block11 fsub n (map (map (map (fmul (fneg (Fin c))))) E) F)
  = update_block11 fadd n (map (map (map (fmul (Fin c)))) E) F.
Proof.
  intros HE. unfold update_block11. revert F.
  induction HE as [|Eb E HEb _ IH]; intros [|Fb F]; try reflexivity.
  cbn [map zip_with]. f_equal; [|apply IH].
  apply (block_map (Forall (λ e, is_fin e = true))); [| |exact HEb].
  - intros row v Hrow.
    apply (block_map (λ e, is_fin e = true)); [| |exact Hrow].
    + intros e y He. destruct e; try discriminate He. apply fneg_fsub_scaled.
    + intros e He. destruct e; try discriminate He. apply fneg_fmul_fneg.
  - intros row Hrow. now apply neg_scaled_row.
Qed.

Lemma neg_scaled_mat c (E : mat) :
  Forall (Forall (λ e, is_fin e = true)) E →
  map (map fneg) (map (map (fmul (fneg (Fin c)))) E) = map (map (fmul (Fin c))) E.
Proof.
  induction 1 as [|row E Hrow _ IH]; [reflexivity|].
  cbn [map]. f_equal; [now apply neg_scaled_row | exact IH].
Qed.

Lemma neg_scaled_eye c nBatch n :
  map (map (map fneg)) (scaled_eye (fneg (Fin c)) nBatch n)
  = scaled_eye (Fin c) nBatch n.
Proof.
  unfold scaled_eye. rewrite (map_is_fmap (map (map fneg))), fmap_replicate.
  f_equal. apply neg_scaled_mat, eye_fin.
Qed.

Lemma factor_solve_kkt_dy B Q_tilde D_tilde A_ C_tilde rx rs rz ry
    nineq nz neq nBatch w dx ds dz dy w' :
  factor_solve_kkt B Q_tilde D_tilde A_ C_tilde rx rs rz ry
                   (nineq, nz, neq, nBatch) w = (Ok (dx, ds, dz, dy), w') →
  (dy = None ∧ neq = 0%nat) ∨ (is_Some dy ∧ is_Some ry ∧ (0 < neq)%nat).
Proof.
  unfold factor_solve_kkt. intros Hrun.
  apply bind_ok_inv in Hrun as ([g_ h_] & w1 & H1 & Hrun).
  apply bind_ok_inv in Hrun as (H_LU & w2 & _ & Hrun).
  apply bind_ok_inv in Hrun as (S_LU & w3 & _ & Hrun).
  unfold ret in Hrun. injection Hrun as _ _ _ <- _.
  destruct (decide (0 < neq)%nat) as [Hpos|Hzero].
  - right. split; [eexists; reflexivity|]. split; [|exact Hpos].
    destruct ry; [eexists; reflexivity | discriminate H1].
  - left. split; [reflexivity | lia].
Qed.

Lemma kkt_resid_reg_returns Q_tilde D_tilde G A F_tilde eps dx ds dz dy rx rs rz ry w :
  dy = None ∨ (is_Some A ∧ is_Some ry) →
  ∃ res, kkt_resid_reg Q_tilde D_tilde G A F_tilde eps dx ds dz dy rx rs rz ry w
         = (Ok res, w).
Proof.
  intros [->|[[a ->] [ryv ->]]]; unfold kkt_resid_reg.
  - eexists. reflexivity.
  - destruct dy; eexists; reflexivity.
Qed.

Lemma kkt_A_ok nBatch nineq neq G A w A_ w' :
  kkt_A nBatch nineq neq G A w = (Ok A_, w') →
  w' = w ∧ ((0 < neq)%nat → is_Some A).
Proof.
  unfold kkt_A. destruct (decide (0 < neq)%nat) as [Hpos|Hzero].
  - destruct A as [a|]; cbn; [|discriminate].
    intros [= <- <-]. split; [reflexivity|]. intros _. now eexists.
  - cbn. intros [= <- <-]. split; [reflexivity | lia].
Qed.

Lemma regularization_blocks_opposite (F : option bmat) (nBatch m n : nat) :
  map (map (map fneg))
    (match F with
     | Some f => update_block11 fsub n (scaled_eye (fneg REG_EPS) nBatch m) f
     | None => scaled_eye (fneg REG_EPS) nBatch m
     end)
  = match F with
    | Some f => update_block11 fadd n (scaled_eye REG_EPS nBatch m) f
    | None => scaled_eye REG_EPS nBatch m
    end.
Proof.
  unfold REG_EPS. destruct F as [f|]; [|apply neg_scaled_eye].
  rewrite !scaled_eye_as_map. apply neg_update_block11.
  apply Forall_replicate, eye_fin.
Qed.

(** X20: without a round of refinement the strategy of iterative
    refinement is the strategy of the full factorization.  For a
    problem with equality constraints, or with one batch element,
    [solve_kkt_ir] with [niter = 0] returns, raises, prints and leaves
    what the set-up of lines 70-83 followed by [factor_solve_kkt] does
    for the same block [D] and right-hand side: the regularization
    block it builds with the opposite sign is subtracted where the
    other is added. *)
Theorem solve_kkt_ir_unrefined_is_lu_full (B : backend) (Q D G : bmat)
    (A F : option bmat) (rx rs rz : bvec) (ry : option bvec)
    (nineq nz neq nBatch : nat) (w : world) :
  get_sizes G A = Ok (nineq, nz, neq, nBatch) →
  (0 < neq)%nat ∨ nBatch = 1%nat →
  solve_kkt_ir B Q D G A F rx rs rz ry 0 w
  = bind (lu_full_setup Q G A F) (λ st, lu_full_direction B st D rx rs rz ry) w.
Proof.
  intros Hsz Hshape. unfold solve_kkt_ir.
  unfold bind at 1. unfold lift at 1. rewrite Hsz. cbv beta iota zeta.
  set (C_ir := match F with
               | Some f => update_block11 fsub nineq
                             (scaled_eye (fneg REG_EPS) nBatch (neq + nineq)) f
               | None => scaled_eye (fneg REG_EPS) nBatch (neq + nineq)
               end).
  set (Qt := mmap2 fadd Q (scaled_eye REG_EPS nBatch nz)).
  set (Dt := mmap2 fadd D (scaled_eye REG_EPS nBatch nineq)).
  unfold bind at 1.
  pose proof (factor_solve_kkt_reg_as_full B Qt Dt G A C_ir rx rs rz ry REG_EPS
                nineq nz neq nBatch w Hsz) as Hreg.
  destruct (factor_solve_kkt_reg B Qt Dt G A C_ir rx rs rz ry REG_EPS w)
    as [[[[[dx ds] dz] dy]|e] w1] eqn:Hm.
  - assert (Hres : dy = None ∨ (is_Some A ∧ is_Some ry)).
    { symmetry in Hreg. apply bind_ok_inv in Hreg as (A_ & w0 & HA & Hfull).
      apply kkt_A_ok in HA as [-> HA].
      apply factor_solve_kkt_dy in Hfull as [[-> _]|(_ & Hry & Hpos)];
        [now left | right; auto]. }
    unfold bind at 1.
    destruct (kkt_resid_reg_returns Q D G A (get_block11 nineq C_ir) REG_EPS
                dx ds dz dy rx rs rz ry w1 Hres) as [res ->].
    cbn [refinement_rounds]. unfold ret at 1. rewrite Hreg. clear Hreg Hm Hres.
    unfold C_ir. rewrite regularization_blocks_opposite.
    unfold lu_full_setup, kkt_A, bind, lift. rewrite Hsz. cbv beta iota zeta.
    destruct (decide (0 < neq)%nat) as [Hpos|Hzero].
    + destruct A as [a|]; cbn [the ret raise]; reflexivity.
    + destruct Hshape as [Hpos| ->]; [lia|].
      destruct (decide (1%nat = 1%nat)); [|contradiction]. reflexivity.
  - rewrite Hreg. clear Hreg Hm.
    unfold C_ir. rewrite regularization_blocks_opposite.
    unfold lu_full_setup, kkt_A, bind, lift. rewrite Hsz. cbv beta iota zeta.
    destruct (decide (0 < neq)%nat) as [Hpos|Hzero].
    + destruct A as [a|]; cbn [the ret raise]; reflexivity.
    + destruct Hshape as [Hpos| ->]; [lia|].
      destruct (decide (1%nat = 1%nat)); [|contradiction]. reflexivity.
Qed.

Lemma solve_kkt_ir_unrefined_is_lu_full_witness :
  solve_kkt_ir OneByOne.B [[[F1]]] [[[F1]]] [[[F1]]] None (Some [[[F0]]])
    [[F1]] [[F0]] [[F1]] None 0 OneByOne.empty_world
  = bind (lu_full_setup [[[F1]]] [[[F1]]] None (Some [[[F0]]]))
      (λ st, lu_full_direction OneByOne.B st [[[F1]]] [[F1]] [[F0]] [[F1]] None)
      OneByOne.empty_world.
Proof.
  apply (solve_kkt_ir_unrefined_is_lu_full OneByOne.B [[[F1]]] [[[F1]]] [[[F1]]]
           None (Some [[[F0]]]) [[F1]] [[F0]] [[F1]] None 1 1 0 1
           OneByOne.empty_world).
  - reflexivity.
  - right. reflexivity.
Defined.

Lemma warns_at_most_once_refl w : warns_at_most_once w w.
Proof. repeat split. now left. Qed.

Lemma warns_at_most_once_trans w1 w2 w3 :
  warns_at_most_once w1 w2 → warns_at_most_once w2 w3 → warns_at_most_once w1 w3.
Proof.
  intros (Hh1 & He1 & H1) (Hh2 & He2 & H2).
  split; [congruence|]. split; [congruence|].
  destruct H1 as [[Ho1 Hs1]|(Hf1 & Ht1 & Ho1)], H2 as [[Ho2 Hs2]|(Hf2 & Ht2 & Ho2)].
  - left. split; congruence.
  - right. repeat split; congruence.
  - right. repeat split; congruence.
  - congruence.
Qed.

Lemma btrifact_hack_warns B x : keeps warns_at_most_once (btrifact_hack B x).
Proof.
  intros w r w' H. split; [exact (btrifact_hack_heap _ _ _ _ _ H)|].
  split; [exact (btrifact_hack_eye _ _ _ _ _ H)|].
  exact (btrifact_hack_output _ _ _ _ _ H).
Qed.

Lemma factor_solve_kkt_reg_warns B Q_tilde D G A C_tilde rx rs rz ry eps :
  keeps warns_at_most_once
    (factor_solve_kkt_reg B Q_tilde D G A C_tilde rx rs rz ry eps).
Proof.
  pose proof warns_at_most_once_refl. pose proof warns_at_most_once_trans.
  pose proof (btrifact_hack_warns B).
  unfold factor_solve_kkt_reg, kkt_A. keeps_auto.
Qed.

Lemma kkt_resid_reg_warns Q_tilde D_tilde G A F_tilde eps dx ds dz dy rx rs rz ry :
  keeps warns_at_most_once
    (kkt_resid_reg Q_tilde D_tilde G A F_tilde eps dx ds dz dy rx rs rz ry).
Proof.
  pose proof warns_at_most_once_refl. pose proof warns_at_most_once_trans.
  unfold kkt_resid_reg. keeps_auto.
Qed.

Lemma refinement_rounds_warns B Q D G A Q_tilde D_tilde C_tilde F_tilde eps
    rx rs rz ry niter :
  ∀ sol res,
    keeps warns_at_most_once
      (refinement_rounds B Q D G A Q_tilde D_tilde C_tilde F_tilde eps
         rx rs rz ry niter sol res).
Proof.
  pose proof warns_at_most_once_refl. pose proof warns_at_most_once_trans.
  pose proof (factor_solve_kkt_reg_warns B). pose proof kkt_resid_reg_warns.
  induction niter as [|niter IH]; intros sol res; cbn [refinement_rounds].
  - keeps_auto.
  - destruct sol as [[[dx ds] dz] dy], res as [[[resx ress] resz] resy].
    keeps_auto.
Qed.

(** X21: the strategy of iterative refinement works from scratch and
    warns at most once.  Whatever the number of rounds, and whether it
    returns or raises, [solve_kkt_ir] leaves the heap, and with it the
    cached factorizations, and the cached mask as they were, and it
    prints nothing but the warning about pivoting, at most once, and
    only if the flag of the warning was not set. *)
Theorem solve_kkt_ir_effects (B : backend) (Q D G : bmat) (A F : option bmat)
    (rx rs rz : bvec) (ry : option bvec) (niter : nat)
    (w w' : world) (r : result dirs) :
  solve_kkt_ir B Q D G A F rx rs rz ry niter w = (r, w') →
  heap w' = heap w
  ∧ factor_kkt_eye w' = factor_kkt_eye w
  ∧ ((stdout w' = stdout w
      ∧ shown_btrifact_warning w' = shown_btrifact_warning w)
     ∨ (shown_btrifact_warning w = false
        ∧ shown_btrifact_warning w' = true
        ∧ stdout w' = stdout w ++ [PrintStr BTRIFACT_WARNING])).
Proof.
  revert w r w'. change (keeps warns_at_most_once
                           (solve_kkt_ir B Q D G A F rx rs rz ry niter)).
  pose proof warns_at_most_once_refl. pose proof warns_at_most_once_trans.
  pose proof (factor_solve_kkt_reg_warns B). pose proof kkt_resid_reg_warns.
  pose proof (refinement_rounds_warns B).
  unfold solve_kkt_ir. keeps_auto.
Qed.

Lemma solve_kkt_ir_effects_witness :
  let w := OneByOne.cached in
  let run := solve_kkt_ir OneByOne.B [[[F1]]] [[[F1]]] [[[F1]]] None
               (Some [[[F0]]]) [[F1]] [[F0]] [[F1]] None 1 w in
  heap run.2 = heap w
  ∧ factor_kkt_eye run.2 = factor_kkt_eye w
  ∧ ((stdout run.2 = stdout w
      ∧ shown_btrifact_warning run.2 = shown_btrifact_warning w)
     ∨ (shown_btrifact_warning w = false
        ∧ shown_btrifact_warning run.2 = true
        ∧ stdout run.2 = stdout w ++ [PrintStr BTRIFACT_WARNING])).
Proof.
  intros w run.
  apply (solve_kkt_ir_effects OneByOne.B [[[F1]]] [[[F1]]] [[[F1]]] None
           (Some [[[F0]]]) [[F1]] [[F0]] [[F1]] None 1 w run.2
           (Ok (OneByOne.value ([], [], [], None) run))).
  run.
Defined.
